(** * SmartPlayer: a model of the segment playback engine

    Shallow embedding of [src/components/SmartPlayer.tsx] (with the data
    types of [src/types.ts]): asset decoding ([decodeBase64], [decodePCM],
    [loadAssets]), the transport functions ([playSegment], [togglePlay]),
    the per-frame renderer ([renderLoop]) and the [isPlaying] effect.

    Conventions.
    - JavaScript numbers that carry times, durations, widths and sample
      values are exact rationals ([Q]).  Sample values [v / 32768] with
      [v] a 16-bit integer are exactly representable in the [Float32Array]
      the code stores them in.
      Where a statement turns on the rounding of doubles, the line in
      question is evaluated in binary64 as well (module [Binary64]).
    - A JavaScript exception is a [Throw] result; [try]/[catch] is a match
      on the result.
    - A string is a list of 8-bit characters; the code's strings are
      lists of 16-bit units, which [split(' ')] and concatenation treat
      the same way.
    - Browser services whose code is not part of the repository ([atob],
      image decoding, [measureText]) are the fields of the class
      [Browser].  React's part (a state change re-renders; a render
      creates the component's functions anew; an effect runs after a
      commit that changed its dependencies) and the platform's part (audio
      sources, animation-frame requests) are written out in the player's
      state.

    The generation workflow ([src/services/geminiService.ts]) and the
    application shell with its form ([App.tsx], [CreatorStudio.tsx]) follow
    in the modules [Workflow] and [Shell]. *)

From Stdlib Require Import Strings.String Strings.Ascii Strings.Byte.
From Stdlib Require Import ZArith QArith Qminmax Qround Lqa Lia Bool DecimalString.
From Stdlib Require Floats.PrimFloat.
From stdpp Require Import base list.

Set Default Proof Using "Type".
Set Warnings "-abstract-large-number".

(* ================================================================== *)
(** ** Data model ([src/types.ts]) *)

Inductive AspectRatio := LANDSCAPE | PORTRAIT.

Module VideoSegment.
Record t := {
  id : string;
  text : string;
  imagePrompt : string;
  imageData : string;   (* base64 *)
  audioData : string;   (* base64 *)
  duration : Q          (* approximate duration in seconds *)
}.
End VideoSegment.

Module GeneratedVideo.
Record t := {
  id : string;
  topic : string;
  style : string;
  aspectRatio : AspectRatio;
  segments : list VideoSegment.t;
  timestamp : Q
}.
End GeneratedVideo.

(* ================================================================== *)
(** ** Exceptions and completions *)

Inductive Exn :=
| RangeError
| NotSupportedError
| InvalidCharacterError
| InvalidStateError.

Inductive Completion (A : Type) :=
| Normal (a : A)
| Throw (e : Exn).
Arguments Normal {A} a.
Arguments Throw {A} e.

Definition bind {A B} (c : Completion A) (k : A -> Completion B) : Completion B :=
  match c with
  | Normal a => k a
  | Throw e => Throw e
  end.

Notation "'let!' x ':=' c 'in' k" := (bind c (fun x => k))
  (at level 10, x name, c at level 100, k at level 200).

(** [try { body } catch (err) { handler }] *)
Definition tryCatch {A} (body : Completion A) (handler : Exn -> Completion A) : Completion A :=
  match body with
  | Normal a => Normal a
  | Throw e => handler e
  end.

(* ================================================================== *)
(** ** Typed arrays and audio buffers (Web platform objects) *)

(** A [Uint8Array] is a window on an [ArrayBuffer]: [subarray] makes a new
    window on the same buffer, and [.buffer] is the whole buffer whatever
    the window is. *)
Record Uint8Array := {
  buffer : list byte;
  byteOffset : nat;
  byteLength : nat
}.

(** [new Uint8Array(len)] filled index by index. *)
Definition newUint8Array (bytes : list byte) : Uint8Array :=
  {| buffer := bytes; byteOffset := 0; byteLength := length bytes |}.

(** [a.subarray(begin, end)], the indices clamped to the window. *)
Definition subarray (a : Uint8Array) (begin end_ : nat) : Uint8Array :=
  let b := Nat.min begin (byteLength a) in
  let e := Nat.min end_ (byteLength a) in
  {| buffer := buffer a; byteOffset := byteOffset a + b; byteLength := e - b |}.

(** The bytes a window shows. *)
Definition contents (a : Uint8Array) : list byte :=
  take (byteLength a) (drop (byteOffset a) (buffer a)).

Definition byteVal (b : byte) : Z := Z.of_N (Byte.to_N b).

(** Two's complement reading of a 16-bit pattern. *)
Definition toInt16 (u : Z) : Z :=
  if (u <? 32768)%Z then u else (u - 65536)%Z.

(** 16-bit elements of a byte sequence, low byte first (the byte order of
    the platforms a browser runs on). *)
Fixpoint int16s (bs : list byte) : list Z :=
  match bs with
  | lo :: hi :: rest => toInt16 (byteVal lo + 256 * byteVal hi)%Z :: int16s rest
  | _ => []
  end.

(** [new Int16Array(arrayBuffer)]: a view on the whole buffer; a buffer
    whose byte length is not a multiple of 2 is refused with a
    [RangeError]. *)
Definition newInt16Array (arrayBuffer : list byte) : Completion (list Z) :=
  if (length arrayBuffer mod 2 =? 0)%nat then Normal (int16s arrayBuffer)
  else Throw RangeError.

Module AudioBuffer.
Record t := {
  numberOfChannels : nat;
  length : nat;                 (* frames per channel *)
  sampleRate : Q;
  channelData : list (list Q)   (* one sample list per channel *)
}.

(** [buffer.duration], in seconds. *)
Definition duration (b : t) : Q :=
  (inject_Z (Z.of_nat (length b)) / sampleRate b)%Q.
End AudioBuffer.

(** [ctx.createBuffer(numChannels, frameCount, sampleRate)]: a zero-filled
    buffer.  A channel count or a frame count of zero is refused with a
    [NotSupportedError], and so is a rate outside 8000..96000, the range
    every implementation supports (the only rate the code asks for is
    24000). *)
Definition createBuffer (numChannels frameCount : nat) (sampleRate : Q)
  : Completion AudioBuffer.t :=
  if (numChannels =? 0)%nat || (frameCount =? 0)%nat
     || negb (Qle_bool 8000 sampleRate && Qle_bool sampleRate 96000)
  then Throw NotSupportedError
  else Normal {| AudioBuffer.numberOfChannels := numChannels;
                 AudioBuffer.length := frameCount;
                 AudioBuffer.sampleRate := sampleRate;
                 AudioBuffer.channelData :=
                   replicate numChannels (replicate frameCount 0%Q) |}.

Record ImageBitmap := { width : nat; height : nat }.

(** [createImageBitmap(canvas)] for a canvas of the given size: refused
    with an [InvalidStateError] when a dimension is zero. *)
Definition bitmapOfCanvas (w h : nat) : Completion ImageBitmap :=
  if ((w =? 0) || (h =? 0))%nat then Throw InvalidStateError
  else Normal {| width := w; height := h |}.

(** Browser services used by the player. *)
Class Browser := {
  (** [atob]: [None] when the input is not base64
      ([InvalidCharacterError]). *)
  atob : string -> option string;
  (** [fetch] of the image data URL, [blob()], [createImageBitmap(blob)]:
      [None] when any of the three rejects. *)
  fetchImageBitmap : string -> option ImageBitmap;
  (** [ctx.measureText(line).width] under the caption font of the given
      size. *)
  measureText : Q -> string -> Q
}.

(* ================================================================== *)
(** ** Asset decoding *)

Section Decoder.
Context `{B : Browser}.

(** [decodeBase64] (lines 10-18). *)
Definition decodeBase64 (base64 : string) : Completion Uint8Array :=
  match atob base64 with
  | None => Throw InvalidCharacterError
  | Some binaryString =>
      Normal (newUint8Array (map byte_of_ascii (list_ascii_of_string binaryString)))
  end.

(** The sample the inner loop stores at frame [i] of channel [channel]. *)
Definition pcmSample (dataInt16 : list Z) (numChannels channel i : nat) : Q :=
  (inject_Z (nth (i * numChannels + channel) dataInt16 0%Z) / 32768)%Q.

(** [decodePCM] (lines 21-44). *)
Definition decodePCM (data : Uint8Array) (sampleRate : Q) (numChannels : nat)
  : Completion AudioBuffer.t :=
  (* Ensure data length is even for Int16Array *)
  let data :=
    if negb (byteLength data mod 2 =? 0)%nat
    then subarray data 0 (byteLength data - 1)
    else data in
  let! dataInt16 := newInt16Array (buffer data) in
  let frameCount := (length dataInt16 / numChannels)%nat in
  let! buf := createBuffer numChannels frameCount sampleRate in
  Normal {| AudioBuffer.numberOfChannels := AudioBuffer.numberOfChannels buf;
            AudioBuffer.length := AudioBuffer.length buf;
            AudioBuffer.sampleRate := AudioBuffer.sampleRate buf;
            AudioBuffer.channelData :=
              map (fun channel =>
                     map (pcmSample dataInt16 numChannels channel) (seq 0 frameCount))
                  (seq 0 numChannels) |}.

(** What [loadAssets] has accumulated. *)
Record Assets := {
  audioBuffers : list AudioBuffer.t;
  images : list ImageBitmap;
  loadedCount : nat
}.

(** Lines 89-91: the narration of one payload, as 24 kHz mono PCM. *)
Definition decodeAudio (audioData : string) : Completion AudioBuffer.t :=
  let! bytes := decodeBase64 audioData in
  decodePCM bytes 24000 1.

(** Step 1 of the loop body (lines 88-99): decode the narration, a silent
    buffer on any exception. *)
Definition decodeAudioStep (segment : VideoSegment.t) (audioBuffers : list AudioBuffer.t)
  : Completion (list AudioBuffer.t) :=
  tryCatch
    (let! audioBuffer := decodeAudio (VideoSegment.audioData segment) in
     Normal (audioBuffers ++ [audioBuffer]))
    (fun err =>
       let! silent := createBuffer 1 24000 24000 in
       Normal (audioBuffers ++ [silent])).

(** Step 2 of the loop body (lines 102-116): load the image, a 1x1
    placeholder on any exception. *)
Definition loadImageStep (segment : VideoSegment.t) (images : list ImageBitmap)
  : Completion (list ImageBitmap) :=
  tryCatch
    (match fetchImageBitmap (VideoSegment.imageData segment) with
     | Some imgBitmap => Normal (images ++ [imgBitmap])
     | None => Throw InvalidStateError
     end)
    (fun err =>
       let! fallback := bitmapOfCanvas 1 1 in
       Normal (images ++ [fallback])).

(** The [for (const segment of video.segments)] loop (lines 86-117). *)
Fixpoint loadLoop (segments : list VideoSegment.t) (acc : Assets) : Completion Assets :=
  match segments with
  | [] => Normal acc
  | segment :: rest =>
      let! abs := decodeAudioStep segment (audioBuffers acc) in
      let! imgs := loadImageStep segment (images acc) in
      loadLoop rest {| audioBuffers := abs; images := imgs;
                       loadedCount := S (S (loadedCount acc)) |}
  end.

(** The decode phase of [loadAssets]: the loop from empty arrays. *)
Definition decodeAssets (video : GeneratedVideo.t) : Completion Assets :=
  loadLoop (GeneratedVideo.segments video)
           {| audioBuffers := []; images := []; loadedCount := 0 |}.

(** The two fallback entries, and the entry each segment ends up with. *)
Definition silentBuffer : AudioBuffer.t :=
  {| AudioBuffer.numberOfChannels := 1;
     AudioBuffer.length := 24000;
     AudioBuffer.sampleRate := 24000;
     AudioBuffer.channelData := [replicate 24000 0%Q] |}.

Definition placeholderImage : ImageBitmap := {| width := 1; height := 1 |}.

Definition audioEntry (segment : VideoSegment.t) : AudioBuffer.t :=
  match decodeAudio (VideoSegment.audioData segment) with
  | Normal audioBuffer => audioBuffer
  | Throw _ => silentBuffer
  end.

Definition imageEntry (segment : VideoSegment.t) : ImageBitmap :=
  match fetchImageBitmap (VideoSegment.imageData segment) with
  | Some imgBitmap => imgBitmap
  | None => placeholderImage
  end.

End Decoder.

(* ================================================================== *)
(** ** The renderer's per-frame computations ([renderLoop], lines 227-343) *)

Definition Qltb (x y : Q) : bool := negb (Qle_bool y x).

Section Renderer.
Context `{B : Browser}.

(** [text.split(' ')]: the pieces between single spaces; never empty. *)
Fixpoint split (s : string) : list string :=
  match s with
  | EmptyString => [EmptyString]
  | String c rest =>
      if Ascii.eqb c " "%char then EmptyString :: split rest
      else match split rest with
           | w :: ws => String c w :: ws
           | [] => [String c EmptyString]
           end
  end.

(** The word-wrap loop (lines 308-317): [n] is the loop counter, [line]
    and [lines] the two accumulators. *)
Fixpoint wrapLoop (fontSize maxWidth : Q) (words : list string) (n : nat)
    (line : string) (lines : list string) : list string * string :=
  match words with
  | [] => (lines, line)
  | word :: rest =>
      let testLine := (line ++ word ++ " ")%string in
      if Qltb maxWidth (measureText fontSize testLine) && (0 <? n)%nat
      then wrapLoop fontSize maxWidth rest (S n) (word ++ " ")%string (lines ++ [line])
      else wrapLoop fontSize maxWidth rest (S n) testLine lines
  end.

(** Word wrap (lines 302-318), the last line pushed after the loop. *)
Definition wordWrap (fontSize maxWidth : Q) (text : string) : list string :=
  let '(lines, line) := wrapLoop fontSize maxWidth (split text) 0 EmptyString [] in
  lines ++ [line].

(** The caption as drawn: the lines one after the other. *)
Definition joinLines (lines : list string) : string :=
  fold_right String.append EmptyString lines.

(** [buffer ? buffer.duration * 1000 : 5000] (line 232), milliseconds. *)
Definition segmentDuration (audioBuffers : list AudioBuffer.t) (segmentIdx : nat) : Q :=
  match audioBuffers !! segmentIdx with
  | Some buffer => (AudioBuffer.duration buffer * 1000)%Q
  | None => 5000%Q
  end.

(** [Math.min(Math.max(elapsed / segmentDuration, 0), 1)] (line 237).
    [Q]'s division by zero is 0 where JavaScript's is not a number; the
    statements below are about positive durations. *)
Definition progress (elapsed segmentDuration : Q) : Q :=
  Qmin (Qmax (elapsed / segmentDuration) 0) 1.


(** Ken Burns zoom (line 247). *)
Definition kenBurnsScale (progress : Q) : Q := (1.0 + progress * 0.15)%Q.

(** [reduce((acc, b) => acc + (b?.duration || 0), 0)] (lines 330-331). *)
Definition sumDurations (buffers : list AudioBuffer.t) : Q :=
  fold_left (fun acc b => (acc + AudioBuffer.duration b)%Q) buffers 0%Q.

(** A buffer that lasts. *)
Definition positive (b : AudioBuffer.t) : Prop := (0 < AudioBuffer.duration b)%Q.

(** Progress bar fraction (lines 330-335); [elapsed] in milliseconds. *)
Definition totalProgressPct (audioBuffers : list AudioBuffer.t) (segmentIdx : nat)
    (elapsed : Q) : Q :=
  let totalDuration := sumDurations audioBuffers in
  let prevDuration := sumDurations (take segmentIdx audioBuffers) in
  let currentProgress := (prevDuration + elapsed / 1000)%Q in
  Qmin (currentProgress / totalDuration) 1.

(** Caption font size (lines 289-291). *)
Definition fontSize (aspectRatio : AspectRatio) (canvasWidth : Q) : Q :=
  match aspectRatio with
  | PORTRAIT => (canvasWidth * 0.08)%Q
  | LANDSCAPE => (canvasWidth * 0.04)%Q
  end.

(** What one pass of [renderLoop] paints: the segment and the elapsed time
    it was computed from, the zoom applied to the image (none when the
    image is missing), the caption lines and the filled fraction of the
    progress bar. *)
Record Frame := {
  frameSegment : nat;
  frameElapsed : Q;
  frameScale : option Q;
  frameLines : list string;
  frameBar : Q
}.

(** The painting part of [renderLoop] (lines 230-343) for segment
    [segmentIdx], [elapsed] milliseconds after the segment started, on a
    canvas [canvasWidth] wide. *)
Definition renderFrame (video : GeneratedVideo.t) (audioBuffers : list AudioBuffer.t)
    (imageBitmaps : list ImageBitmap) (segmentIdx : nat) (elapsed canvasWidth : Q)
  : Frame :=
  let progress := progress elapsed (segmentDuration audioBuffers segmentIdx) in
  let text :=
    match GeneratedVideo.segments video !! segmentIdx with
    | Some segment => VideoSegment.text segment
    | None => EmptyString
    end in
  let fontSize := fontSize (GeneratedVideo.aspectRatio video) canvasWidth in
  let maxWidth := (canvasWidth * 0.85)%Q in
  {| frameSegment := segmentIdx;
     frameElapsed := elapsed;
     frameScale :=
       match imageBitmaps !! segmentIdx with
       | Some img => Some (kenBurnsScale progress)
       | None => None
       end;
     frameLines := wordWrap fontSize maxWidth text;
     frameBar := totalProgressPct audioBuffers segmentIdx elapsed |}.

End Renderer.

(** Lines 237 and 247 in the browser's own numbers: binary64 doubles,
    every operation rounded to the nearest. *)
Module Binary64.
Import PrimFloat.

#[local] Set Warnings "-inexact-float".

(** [Math.max] and [Math.min]: not a number if an argument is not, and
    the zero of positive sign is the larger one. *)
Definition mathMax (a b : float) : float :=
  if (is_nan a || is_nan b)%bool then nan
  else if (a <? b)%float then b
  else if (b <? a)%float then a
  else if get_sign a then b else a.

Definition mathMin (a b : float) : float :=
  if (is_nan a || is_nan b)%bool then nan
  else if (a <? b)%float then a
  else if (b <? a)%float then b
  else if get_sign a then a else b.

(** [Math.min(Math.max(elapsed / segmentDuration, 0), 1)] (line 237). *)
Definition progress (elapsed segmentDuration : float) : float :=
  mathMin (mathMax (elapsed / segmentDuration) 0) 1.

(** [1.0 + (progress * 0.15)] (line 247). *)
Definition scale (progress : float) : float := (1.0 + (progress * 0.15))%float.

End Binary64.

(* ================================================================== *)
(** ** The player: React state, refs, audio sources, frame requests *)

Inductive ContextState := suspended | running.

(** The React state as one render sees it.  Each render creates
    [playSegment], [togglePlay], [renderLoop] and the effect anew, and
    these functions read [isPlaying] and [currentSegmentIndex] as
    constants of the render that created them: a [Render] is what such a
    closure has captured. *)
Record Render := {
  isPlaying : bool;
  currentSegmentIndex : nat;
  isLoaded : bool
}.

(** An [AudioBufferSourceNode] that was started: [Playing] until it plays
    to its end or is stopped; [Stopped] after [stop()] on a playing node,
    its [ended] event still to come; [Ended] once [onended] has run. *)
Inductive SourceState := Playing | Stopped | Ended.

Record SourceNode := {
  sourceIndex : nat;        (* plays audioBuffersRef.current[sourceIndex] *)
  sourceState : SourceState;
  sourceRender : Render     (* the render whose playSegment made the node *)
}.

(** What the platform hands to a handler: [performance.now()] and the
    container's [clientWidth]. *)
Record Env := { now : Q; clientWidth : Q }.

Record Player := {
  (* useState: the values last set *)
  st : Render;
  (* the render on screen: its functions are the click handler and the
     effect's dependencies *)
  rendered : Render;
  (* useRef *)
  audioContextRef : option ContextState;   (* ctx.state of the context *)
  audioBuffersRef : list AudioBuffer.t;
  imageBitmapsRef : list ImageBitmap;
  currentSourceRef : option nat;           (* position in [sources] *)
  animationFrameRef : nat;                 (* 0: no frame requested yet *)
  segmentStartTimeRef : Q;
  (* platform *)
  sources : list SourceNode;               (* every node created, oldest first *)
  frameRequests : list (nat * Render);     (* pending requestAnimationFrame callbacks *)
  nextFrameId : nat;
  painted : list Frame;                    (* frames drawn so far, oldest first *)
  clock : Q                                (* time of the last event *)
}.

Definition initialRender : Render :=
  {| isPlaying := false; currentSegmentIndex := 0; isLoaded := false |}.

Definition initialPlayer : Player :=
  {| st := initialRender; rendered := initialRender;
     audioContextRef := None; audioBuffersRef := []; imageBitmapsRef := [];
     currentSourceRef := None; animationFrameRef := 0; segmentStartTimeRef := 0%Q;
     sources := []; frameRequests := []; nextFrameId := 1; painted := [];
     clock := 0%Q |}.

(** Field updates. *)
Definition withSt (r : Render) (p : Player) : Player :=
  {| st := r; rendered := rendered p; audioContextRef := audioContextRef p;
     audioBuffersRef := audioBuffersRef p; imageBitmapsRef := imageBitmapsRef p;
     currentSourceRef := currentSourceRef p; animationFrameRef := animationFrameRef p;
     segmentStartTimeRef := segmentStartTimeRef p; sources := sources p;
     frameRequests := frameRequests p; nextFrameId := nextFrameId p;
     painted := painted p; clock := clock p |}.

Definition withRendered (r : Render) (p : Player) : Player :=
  {| st := st p; rendered := r; audioContextRef := audioContextRef p;
     audioBuffersRef := audioBuffersRef p; imageBitmapsRef := imageBitmapsRef p;
     currentSourceRef := currentSourceRef p; animationFrameRef := animationFrameRef p;
     segmentStartTimeRef := segmentStartTimeRef p; sources := sources p;
     frameRequests := frameRequests p; nextFrameId := nextFrameId p;
     painted := painted p; clock := clock p |}.

Definition withContext (c : option ContextState) (p : Player) : Player :=
  {| st := st p; rendered := rendered p; audioContextRef := c;
     audioBuffersRef := audioBuffersRef p; imageBitmapsRef := imageBitmapsRef p;
     currentSourceRef := currentSourceRef p; animationFrameRef := animationFrameRef p;
     segmentStartTimeRef := segmentStartTimeRef p; sources := sources p;
     frameRequests := frameRequests p; nextFrameId := nextFrameId p;
     painted := painted p; clock := clock p |}.

Definition withAssets (a : Assets) (p : Player) : Player :=
  {| st := st p; rendered := rendered p; audioContextRef := audioContextRef p;
     audioBuffersRef := audioBuffers a; imageBitmapsRef := images a;
     currentSourceRef := currentSourceRef p; animationFrameRef := animationFrameRef p;
     segmentStartTimeRef := segmentStartTimeRef p; sources := sources p;
     frameRequests := frameRequests p; nextFrameId := nextFrameId p;
     painted := painted p; clock := clock p |}.

Definition withSources (l : list SourceNode) (cur : option nat) (p : Player) : Player :=
  {| st := st p; rendered := rendered p; audioContextRef := audioContextRef p;
     audioBuffersRef := audioBuffersRef p; imageBitmapsRef := imageBitmapsRef p;
     currentSourceRef := cur; animationFrameRef := animationFrameRef p;
     segmentStartTimeRef := segmentStartTimeRef p; sources := l;
     frameRequests := frameRequests p; nextFrameId := nextFrameId p;
     painted := painted p; clock := clock p |}.

Definition withSegmentStartTime (t : Q) (p : Player) : Player :=
  {| st := st p; rendered := rendered p; audioContextRef := audioContextRef p;
     audioBuffersRef := audioBuffersRef p; imageBitmapsRef := imageBitmapsRef p;
     currentSourceRef := currentSourceRef p; animationFrameRef := animationFrameRef p;
     segmentStartTimeRef := t; sources := sources p;
     frameRequests := frameRequests p; nextFrameId := nextFrameId p;
     painted := painted p; clock := clock p |}.

Definition withFrames (ref : nat) (reqs : list (nat * Render)) (next : nat) (p : Player)
  : Player :=
  {| st := st p; rendered := rendered p; audioContextRef := audioContextRef p;
     audioBuffersRef := audioBuffersRef p; imageBitmapsRef := imageBitmapsRef p;
     currentSourceRef := currentSourceRef p; animationFrameRef := ref;
     segmentStartTimeRef := segmentStartTimeRef p; sources := sources p;
     frameRequests := reqs; nextFrameId := next;
     painted := painted p; clock := clock p |}.

Definition withPainted (l : list Frame) (p : Player) : Player :=
  {| st := st p; rendered := rendered p; audioContextRef := audioContextRef p;
     audioBuffersRef := audioBuffersRef p; imageBitmapsRef := imageBitmapsRef p;
     currentSourceRef := currentSourceRef p; animationFrameRef := animationFrameRef p;
     segmentStartTimeRef := segmentStartTimeRef p; sources := sources p;
     frameRequests := frameRequests p; nextFrameId := nextFrameId p;
     painted := l; clock := clock p |}.

Definition withClock (t : Q) (p : Player) : Player :=
  {| st := st p; rendered := rendered p; audioContextRef := audioContextRef p;
     audioBuffersRef := audioBuffersRef p; imageBitmapsRef := imageBitmapsRef p;
     currentSourceRef := currentSourceRef p; animationFrameRef := animationFrameRef p;
     segmentStartTimeRef := segmentStartTimeRef p; sources := sources p;
     frameRequests := frameRequests p; nextFrameId := nextFrameId p;
     painted := painted p; clock := t |}.

(** The state setters. *)
Definition setIsPlaying (b : bool) (p : Player) : Player :=
  withSt {| isPlaying := b; currentSegmentIndex := currentSegmentIndex (st p);
            isLoaded := isLoaded (st p) |} p.

Definition setCurrentSegmentIndex (index : nat) (p : Player) : Player :=
  withSt {| isPlaying := isPlaying (st p); currentSegmentIndex := index;
            isLoaded := isLoaded (st p) |} p.

Definition setIsLoaded (b : bool) (p : Player) : Player :=
  withSt {| isPlaying := isPlaying (st p); currentSegmentIndex := currentSegmentIndex (st p);
            isLoaded := b |} p.

(** [requestAnimationFrame(renderLoop)] with the result stored in
    [animationFrameRef]; [renderLoop] is the closure of render [r]. *)
Definition requestAnimationFrame (r : Render) (p : Player) : Player :=
  withFrames (nextFrameId p) (frameRequests p ++ [(nextFrameId p, r)])
             (S (nextFrameId p)) p.

(** [cancelAnimationFrame(id)]. *)
Definition cancelAnimationFrame (id : nat) (p : Player) : Player :=
  withFrames (animationFrameRef p)
             (filter (fun req => fst req ≠ id) (frameRequests p))
             (nextFrameId p) p.

Definition stopNode (node : SourceNode) : SourceNode :=
  {| sourceIndex := sourceIndex node;
     sourceState := match sourceState node with
                    | Playing => Stopped
                    | other => other
                    end;
     sourceRender := sourceRender node |}.

Definition endNode (node : SourceNode) : SourceNode :=
  {| sourceIndex := sourceIndex node; sourceState := Ended;
     sourceRender := sourceRender node |}.

(** Lines 151-153: [currentSourceRef.current.stop()] when a source is bound. *)
Definition stopCurrent (p : Player) : Player :=
  match currentSourceRef p with
  | Some j =>
      match sources p !! j with
      | Some node => withSources (<[j := stopNode node]> (sources p)) (currentSourceRef p) p
      | None => p
      end
  | None => p
  end.

(** Lines 155-166: a fresh source on buffer [index], its [onended] bound
    to the [playSegment] of render [r], started and stored in
    [currentSourceRef]. *)
Definition startSource (r : Render) (index : nat) (p : Player) : Player :=
  withSources
    (sources p ++ [{| sourceIndex := index; sourceState := Playing; sourceRender := r |}])
    (Some (length (sources p))) p.

Section Player.
Context `{B : Browser}.
Variable video : GeneratedVideo.t.

(** [video.segments.length] *)
Definition segmentCount : nat := length (GeneratedVideo.segments video).

Definition contextIs (c : ContextState) (p : Player) : bool :=
  match audioContextRef p, c with
  | Some suspended, suspended => true
  | Some running, running => true
  | _, _ => false
  end.

(** [renderLoop] (lines 207-348) as created by render [r].  The canvas is
    in the document once a render with [isLoaded] was committed, and its
    2d context is there for the asking; the canvas takes the container's
    width before anything is drawn. *)
Definition renderLoop (r : Render) (env : Env) (p : Player) : Player :=
  if negb (isLoaded (rendered p)) then p
  else if negb (isPlaying r) && contextIs suspended p
  then requestAnimationFrame r p
  else
    let segmentIdx := currentSegmentIndex r in
    if (segmentCount <=? segmentIdx)%nat then p
    else
      let elapsed := (now env - segmentStartTimeRef p)%Q in
      let frame := renderFrame video (audioBuffersRef p) (imageBitmapsRef p)
                               segmentIdx elapsed (clientWidth env) in
      let p := withPainted (painted p ++ [frame]) p in
      if isPlaying r then requestAnimationFrame r p else p.

(** [playSegment] (lines 142-175) as created by render [r]. *)
Definition playSegment (r : Render) (env : Env) (index : nat) (p : Player) : Player :=
  if (segmentCount <=? index)%nat then setIsPlaying false p
  else
    match audioContextRef p with
    | None => p
    | Some _ =>
        let p := stopCurrent p in
        let p := startSource r index p in
        let p := setCurrentSegmentIndex index p in
        let p := withSegmentStartTime (now env) p in
        let p := setIsPlaying true p in
        if (animationFrameRef p =? 0)%nat then renderLoop r env p else p
    end.

(** [source.onended] of node [j] (lines 159-163). *)
Definition onended (j : nat) (env : Env) (p : Player) : Player :=
  match sources p !! j with
  | Some node =>
      let p := withSources (<[j := endNode node]> (sources p)) (currentSourceRef p) p in
      playSegment (sourceRender node) env (sourceIndex node + 1) p
  | None => p
  end.

(** [togglePlay] (lines 177-205) of the render on screen, its awaits run
    to completion.  [video.segments.length - 1] is -1 for an empty
    project, below every index, as is the truncated [segmentCount - 1]. *)
Definition togglePlay (env : Env) (p : Player) : Player :=
  let r := rendered p in
  match audioContextRef p with
  | None => p
  | Some _ =>
      let p := if contextIs suspended p then withContext (Some running) p else p in
      if isPlaying r then
        if contextIs running p
        then setIsPlaying false (withContext (Some suspended) p)
        else p
      else
        if contextIs suspended p
        then renderLoop r env (setIsPlaying true (withContext (Some running) p))
        else
          (* If we were fully stopped/finished, restart *)
          if (segmentCount <=? currentSegmentIndex r)%nat
             || ((segmentCount - 1 <=? currentSegmentIndex r)%nat
                 && negb (bool_decide (is_Some (currentSourceRef p))))
          then playSegment r env 0 p
          else renderLoop r env (setIsPlaying true p)
  end.

(** The tail of [loadAssets] (lines 119-129) once the loop is over, the
    context being in state [c]; a throwing loop is the fatal error of
    line 128. *)
Definition loadAssets (c : ContextState) (env : Env) (p : Player) : Player :=
  let r := rendered p in
  let p := withContext (Some c) p in
  match decodeAssets video with
  | Throw _ => p
  | Normal assets =>
      let p := setIsLoaded true (withAssets assets p) in
      match c with
      | running => playSegment r env 0 p
      | suspended => p
      end
  end.

(** The effect on [isPlaying, currentSegmentIndex] (lines 350-356) as
    created by render [r]. *)
Definition playingEffect (r : Render) (env : Env) (p : Player) : Player :=
  if isPlaying r then renderLoop r env p
  else if negb (animationFrameRef p =? 0)%nat
       then cancelAnimationFrame (animationFrameRef p) p
       else p.

(** React commits the pending state: the new render replaces the one on
    screen, and the effect runs when one of its dependencies changed. *)
Definition commit (env : Env) (p : Player) : Player :=
  let prev := rendered p in
  let r := st p in
  let p := withRendered r p in
  if Bool.eqb (isPlaying prev) (isPlaying r)
     && (currentSegmentIndex prev =? currentSegmentIndex r)%nat
  then p
  else playingEffect r env p.

(** The browser runs the animation-frame callbacks requested so far, in
    the order they were requested. *)
Definition runFrames (env : Env) (p : Player) : Player :=
  fold_left (fun q req => renderLoop (snd req) env q) (frameRequests p)
            (withFrames (animationFrameRef p) [] (nextFrameId p) p).

(** What can happen to a mounted player. *)
Inductive Event :=
| AssetsLoaded (c : ContextState)   (* loadAssets finishes its loop *)
| SourceEnded (j : nat)             (* the ended event of source j *)
| Click                             (* the play overlay: togglePlay *)
| AnimationFrame.                   (* the browser serves the frame requests *)

Definition handle (ev : Event) (env : Env) (p : Player) : Player :=
  match ev with
  | AssetsLoaded c => loadAssets c env p
  | SourceEnded j => onended j env p
  | Click => togglePlay env p
  | AnimationFrame => runFrames env p
  end.

(** One event at time [now env], then React's commit: the state updates
    of one handler are batched into one render, whose effect runs before
    the next event. *)
Definition step (ev : Event) (env : Env) (p : Player) : Player :=
  commit env (handle ev env (withClock (now env) p)).

Fixpoint run (evs : list (Event * Env)) (p : Player) : Player :=
  match evs with
  | [] => p
  | (ev, env) :: rest => run rest (step ev env p)
  end.

(** When an event can happen: assets load once; a source ends when it is
    playing on a running context, or after it was stopped while playing;
    the play overlay, the only element wired to [togglePlay], is on
    screen while the player is loaded and not playing (lines 359, 382). *)
Definition enabled (ev : Event) (p : Player) : Prop :=
  match ev with
  | AssetsLoaded _ => audioContextRef p = None
  | SourceEnded j =>
      exists node, sources p !! j = Some node /\
        ((sourceState node = Playing /\ audioContextRef p = Some running)
         \/ sourceState node = Stopped)
  | Click => isLoaded (rendered p) = true /\ isPlaying (rendered p) = false
  | AnimationFrame => True
  end.

(** States the player reaches from its first render; the clock never
    runs backwards. *)
Inductive reachable : Player -> Prop :=
| reachable_init : reachable initialPlayer
| reachable_step p ev env :
    reachable p -> enabled ev p -> (clock p <= now env)%Q ->
    reachable (step ev env p).

End Player.

(* ================================================================== *)
(** ** Invariants of the reachable states *)

Section Invariants.
Context `{B : Browser}.
Variable video : GeneratedVideo.t.

(** A playing source is the bound one. *)
Definition onePlaying (p : Player) : Prop :=
  forall j node, sources p !! j = Some node -> sourceState node = Playing ->
                 currentSourceRef p = Some j.

Definition nonePlaying (p : Player) : Prop :=
  forall j node, sources p !! j = Some node -> sourceState node <> Playing.

(** The arrays the decode phase stores in the two refs (lines 119-120). *)
Definition decodedAudio : list AudioBuffer.t :=
  match decodeAssets video with
  | Normal assets => audioBuffers assets
  | Throw _ => []
  end.

Definition decodedImages : list ImageBitmap :=
  match decodeAssets video with
  | Normal assets => images assets
  | Throw _ => []
  end.

(** A frame of an existing segment, painted from the decoded assets at a
    time not before the segment started. *)
Definition goodFrame (f : Frame) : Prop :=
  exists segmentIdx elapsed canvasWidth,
    (segmentIdx < segmentCount video)%nat /\ (0 <= elapsed)%Q /\
    f = renderFrame video decodedAudio decodedImages segmentIdx elapsed canvasWidth.

Record Inv (p : Player) : Prop := {
  inv_index : (currentSegmentIndex (st p) <= segmentCount video - 1)%nat;
  inv_playing : onePlaying p;
  inv_assets : isLoaded (st p) = true ->
               audioBuffersRef p = decodedAudio /\ imageBitmapsRef p = decodedImages;
  inv_mounted : isLoaded (rendered p) = true -> isLoaded (st p) = true;
  inv_start : (segmentStartTimeRef p <= clock p)%Q;
  inv_painted : forall f, f ∈ painted p -> goodFrame f
}.

(** The invariant inside the handler of an event at time [now env]. *)
Definition InvAt (env : Env) (p : Player) : Prop := Inv p /\ clock p = now env.

(** A render loop of render [r] is among the pending requests, with
    nothing left for React to commit. *)
Definition loopPending (r : Render) (p : Player) : Prop :=
  rendered p = st p /\ isLoaded (rendered p) = true /\
  exists id, (id, r) ∈ frameRequests p.

(** The sum of a list of durations. *)
Definition sumOf (durations : list Q) : Q := fold_right Qplus 0%Q durations.

(** The progress-bar fraction in the specification's words: the decoded
    durations (seconds) of the segments before segment [current] plus the
    time [elapsed] (milliseconds) into it, over the decoded durations of
    all segments. *)
Definition specFraction (current : nat) (elapsed : Q) : Q :=
  let durations := map AudioBuffer.duration decodedAudio in
  ((sumOf (take current durations) + elapsed / 1000) / sumOf durations)%Q.

(** [enabled] as a test. *)
Definition enabledb (ev : Event) (p : Player) : bool :=
  match ev with
  | AssetsLoaded _ => negb (bool_decide (is_Some (audioContextRef p)))
  | SourceEnded j =>
      match sources p !! j with
      | Some node =>
          match sourceState node with
          | Playing => contextIs running p
          | Stopped => true
          | Ended => false
          end
      | None => false
      end
  | Click => isLoaded (rendered p) && negb (isPlaying (rendered p))
  | AnimationFrame => true
  end.

(** Every event of the list can happen when its turn comes. *)
Fixpoint allowedb (evs : list (Event * Env)) (p : Player) : bool :=
  match evs with
  | [] => true
  | (ev, env) :: rest =>
      enabledb ev p && Qle_bool (clock p) (now env) && allowedb rest (step video ev env p)
  end.

(** Times that do not run backwards from [t] on. *)
Fixpoint timely (t : Q) (ticks : list Env) : Prop :=
  match ticks with
  | [] => True
  | env :: rest => (t <= now env)%Q /\ timely (now env) rest
  end.

(** A run of animation frames. *)
Definition frames (ticks : list Env) : list (Event * Env) :=
  map (fun env => (AnimationFrame, env)) ticks.

End Invariants.

(* ================================================================== *)
(** ** A concrete browser and two small projects, for closed instances *)

Module Demo.

(** Value of a base64 digit. *)
Definition digit (c : ascii) : option N :=
  let n := N_of_ascii c in
  if ((65 <=? n) && (n <=? 90))%N then Some (n - 65)%N
  else if ((97 <=? n) && (n <=? 122))%N then Some (n - 71)%N
  else if ((48 <=? n) && (n <=? 57))%N then Some (n + 4)%N
  else if (n =? 43)%N then Some 62%N
  else if (n =? 47)%N then Some 63%N
  else None.

Definition pad : ascii := "="%char.

(** Padded base64, four characters at a time. *)
Fixpoint groups (cs : list ascii) : option (list ascii) :=
  match cs with
  | [] => Some []
  | a :: b :: c :: d :: rest =>
      match digit a, digit b with
      | Some x, Some y =>
          let b0 := ascii_of_N (x * 4 + y / 16) in
          match digit c, digit d, rest with
          | Some z, Some w, _ =>
              let b1 := ascii_of_N ((y mod 16) * 16 + z / 4) in
              let b2 := ascii_of_N ((z mod 4) * 64 + w) in
              match groups rest with
              | Some tl => Some (b0 :: b1 :: b2 :: tl)
              | None => None
              end
          | Some z, None, [] =>
              if Ascii.eqb d pad
              then Some [b0; ascii_of_N ((y mod 16) * 16 + z / 4)]
              else None
          | None, None, [] =>
              if Ascii.eqb c pad && Ascii.eqb d pad then Some [b0] else None
          | _, _, _ => None
          end
      | _, _ => None
      end
  | _ => None
  end.

Definition browser : Browser :=
  {| atob := fun s =>
       match groups (list_ascii_of_string s) with
       | Some cs => Some (string_of_list_ascii cs)
       | None => None
       end;
     fetchImageBitmap := fun s =>
       if String.eqb s "" then None else Some {| width := 4; height := 3 |};
     measureText := fun size line =>
       (size * inject_Z (Z.of_nat (String.length line)) * 0.5)%Q |}.

Definition segment (text audioData imageData : string) : VideoSegment.t :=
  {| VideoSegment.id := "segment"; VideoSegment.text := text;
     VideoSegment.imagePrompt := ""; VideoSegment.imageData := imageData;
     VideoSegment.audioData := audioData; VideoSegment.duration := 5 |}.

Definition project (segments : list VideoSegment.t) : GeneratedVideo.t :=
  {| GeneratedVideo.id := "video"; GeneratedVideo.topic := "";
     GeneratedVideo.style := ""; GeneratedVideo.aspectRatio := LANDSCAPE;
     GeneratedVideo.segments := segments; GeneratedVideo.timestamp := 0 |}.

(** "AEAAwA==" is the four bytes 00 40 00 C0 (samples 0.5 and -0.5),
    "AEB/" the three bytes 00 40 7F, "/9j/" stands for image data. *)
Definition oneSegment : GeneratedVideo.t :=
  project [segment "hello" "AEAAwA==" "/9j/"].

Definition twoSegments : GeneratedVideo.t :=
  project [segment "hello big world" "AEAAwA==" "/9j/";
           segment "bye" "AEAAwA==" ""].

Definition oddSegment : VideoSegment.t := segment "odd" "AEB/" "".

(** A caption of one long word. *)
Definition wideWord : GeneratedVideo.t :=
  project [segment "pneumonoultramicroscopicsilicovolcanoconiosis" "AEAAwA==" "/9j/"].

Definition at_ (t : Q) : Env := {| now := t; clientWidth := 640 |}.

(** The one-segment project right after loading on a running context,
    and the frame its effect paints. *)
Definition loadedOne : Player :=
  run (B := browser) oneSegment [(AssetsLoaded running, at_ 0)] initialPlayer.

Definition firstFrame : Frame :=
  renderFrame (B := browser) oneSegment (decodedAudio (B := browser) oneSegment)
              (decodedImages (B := browser) oneSegment) 0 0 640.

(** The one-segment project after its narration has ended. *)
Definition finishedOne : Player :=
  run (B := browser) oneSegment
      [(AssetsLoaded running, at_ 0); (SourceEnded 0, at_ 1)] initialPlayer.

(** The two-segment project after both narrations have ended. *)
Definition finishedTwo : Player :=
  run (B := browser) twoSegments
      [(AssetsLoaded running, at_ 0); (SourceEnded 0, at_ 1); (SourceEnded 1, at_ 2)]
      initialPlayer.

(** The render the effect ran in when segment 0 started playing. *)
Definition firstPlaying : Render :=
  {| isPlaying := true; currentSegmentIndex := 0; isLoaded := true |}.

(** The two-segment project one millisecond into segment 0, whose
    narration lasts 2 frames at 24 kHz, before the [ended] event is
    delivered; and the frame painted then. *)
Definition overdueTwo : Player :=
  run (B := browser) twoSegments
      [(AssetsLoaded running, at_ 0); (AnimationFrame, at_ 1)] initialPlayer.

Definition overdueFrame : Frame :=
  renderFrame (B := browser) twoSegments (decodedAudio (B := browser) twoSegments)
              (decodedImages (B := browser) twoSegments) 0 1 640.

End Demo.

(* ================================================================== *)
(** ** Buffers, loading progress and image placement *)

(** An audio buffer as the platform makes them: as many channels as it
    says, each with as many samples as it has frames. *)
Definition wellFormed (b : AudioBuffer.t) : Prop :=
  length (AudioBuffer.channelData b) = AudioBuffer.numberOfChannels b /\
  Forall (fun channel => length channel = AudioBuffer.length b) (AudioBuffer.channelData b).

(** [Math.round]: the nearest integer, a tie going up. *)
Definition mathRound (x : Q) : Z := Qfloor (x + (1 # 2))%Q.

(** [updateProgress] (lines 81-84) once [loadedCount] has been
    incremented: the percentage handed to [setLoadingProgress]. *)
Definition loadingProgress (loadedCount total : nat) : Z :=
  mathRound (inject_Z (Z.of_nat loadedCount) / inject_Z (Z.of_nat total) * 100)%Q.

(** The percentages the loop of [loadAssets] reports, two per segment
    (lines 99 and 116), from [loadedCount] on. *)
Fixpoint progressLoop (segments : list VideoSegment.t) (loadedCount total : nat) : list Z :=
  match segments with
  | [] => []
  | segment :: rest =>
      loadingProgress (S loadedCount) total
        :: loadingProgress (S (S loadedCount)) total
        :: progressLoop rest (S (S loadedCount)) total
  end.

(** [total = video.segments.length * 2] (line 79) and the reports of the
    whole loop. *)
Definition progressReports (video : GeneratedVideo.t) : list Z :=
  progressLoop (GeneratedVideo.segments video) 0
               (length (GeneratedVideo.segments video) * 2).

(** Where [drawImage] puts the image. *)
Record Rect := { offsetX : Q; offsetY : Q; renderW : Q; renderH : Q }.

(** Cover fit (lines 249-264), for an image and a canvas of positive
    size. *)
Definition coverFit (img : ImageBitmap) (canvasWidth canvasHeight : Q) : Rect :=
  let imgRatio := (inject_Z (Z.of_nat (width img)) / inject_Z (Z.of_nat (height img)))%Q in
  let canvasRatio := (canvasWidth / canvasHeight)%Q in
  if Qltb canvasRatio imgRatio
  then let renderH := canvasHeight in
       let renderW := (renderH * imgRatio)%Q in
       {| offsetX := ((canvasWidth - renderW) / 2)%Q; offsetY := 0%Q;
          renderW := renderW; renderH := renderH |}
  else let renderW := canvasWidth in
       let renderH := (renderW / imgRatio)%Q in
       {| offsetX := 0%Q; offsetY := ((canvasHeight - renderH) / 2)%Q;
          renderW := renderW; renderH := renderH |}.

(** The rectangle as it lands on the canvas under the transform of lines
    266-268: a scaling about the canvas centre. *)
Definition zoomed (scale canvasWidth canvasHeight : Q) (r : Rect) : Rect :=
  {| offsetX := (canvasWidth / 2 + scale * (offsetX r - canvasWidth / 2))%Q;
     offsetY := (canvasHeight / 2 + scale * (offsetY r - canvasHeight / 2))%Q;
     renderW := (scale * renderW r)%Q;
     renderH := (scale * renderH r)%Q |}.

(** The rectangle reaches every edge of the canvas. *)
Definition covers (canvasWidth canvasHeight : Q) (r : Rect) : Prop :=
  (offsetX r <= 0)%Q /\ (canvasWidth <= offsetX r + renderW r)%Q /\
  (offsetY r <= 0)%Q /\ (canvasHeight <= offsetY r + renderH r)%Q.

(* ================================================================== *)
(** ** Caption lines as runs of words *)

Section Caption.
Context `{B : Browser}.

(** The line made of a run of words: each word and a space. *)
Definition lineOf (group : list string) : string :=
  joinLines (map (fun word => (word ++ " ")%string) group).

(** A run of words that is a single word or measures no more than the
    maximum width. *)
Definition fits (size maxWidth : Q) (group : list string) : Prop :=
  length group = 1%nat \/ (measureText size (lineOf group) <= maxWidth)%Q.

(** Each run but the last could not take the first word of the next. *)
Definition breaksLate (size maxWidth : Q) (groups : list (list string)) : Prop :=
  forall i group word rest,
    groups !! i = Some group -> groups !! S i = Some (word :: rest) ->
    (maxWidth < measureText size (lineOf (group ++ [word])))%Q.

Record Wrapped (size maxWidth : Q) (groups : list (list string)) : Prop := {
  wrapped_nonempty : Forall (fun group => group <> []) groups;
  wrapped_fits : Forall (fits size maxWidth) groups;
  wrapped_late : breaksLate size maxWidth groups
}.

End Caption.

(* ================================================================== *)
(** ** Sources, index and context in the reachable states *)

Section Transport.
Context `{B : Browser}.
Variable video : GeneratedVideo.t.

(** Every source created so far has played to its end. *)
Definition quiet (p : Player) : Prop :=
  Forall (fun node => sourceState node = Ended) (sources p).

(** What the sources, the index and the context have to do with each
    other, at any point of a handler: the bound source is the newest; the
    sources are the segments in order; the index is that of the newest
    source; only the newest source can be playing, and then the playing
    flag is up; whatever was started, requested or painted needed a
    running context. *)
Record Steady (p : Player) : Prop := {
  steady_bound :
    currentSourceRef p
    = match sources p with [] => None | _ => Some (length (sources p) - 1)%nat end;
  steady_order :
    forall j node, sources p !! j = Some node -> sourceIndex node = j;
  steady_count : (length (sources p) <= segmentCount video)%nat;
  steady_index : currentSegmentIndex (st p) = (length (sources p) - 1)%nat;
  steady_states :
    forall j node, sources p !! j = Some node ->
      sourceState node = Ended \/
      (sourceState node = Playing /\ S j = length (sources p) /\ isPlaying (st p) = true);
  steady_running :
    sources p <> [] \/ isPlaying (st p) = true \/ frameRequests p <> []
    \/ painted p <> [] ->
    audioContextRef p = Some running;
  steady_loaded :
    isLoaded (st p) = true <-> is_Some (audioContextRef p);
  steady_requests :
    Forall (fun req : nat * Render =>
              isPlaying (snd req) = true /\
              (currentSegmentIndex (snd req) < segmentCount video)%nat)
           (frameRequests p);
  steady_empty :
    segmentCount video = 0%nat -> isPlaying (st p) = false
}.

(** The steady state between two events: React has nothing left to
    commit. *)
Definition Settled (p : Player) : Prop := Steady p /\ rendered p = st p.

(** [renderLoop] and the effect change the frame requests and the painted
    frames, [commit] the render on screen as well; none of them touches
    the state, the context or the sources. *)
Definition sameTransport (p q : Player) : Prop :=
  st q = st p /\ audioContextRef q = audioContextRef p /\
  currentSourceRef q = currentSourceRef p /\ sources q = sources p /\
  segmentStartTimeRef q = segmentStartTimeRef p /\
  audioBuffersRef q = audioBuffersRef p /\ imageBitmapsRef q = imageBitmapsRef p.

End Transport.

(* ================================================================== *)
(** ** The pending render loops *)

(** How many render loops are pending: one for every source created,
    less the one the effect cancels when [isPlaying] is cleared; one at
    least while [isPlaying] is set. *)
Definition loopCount (p : Player) : nat :=
  if isPlaying (st p) then Nat.max 1 (length (sources p))
  else (length (sources p) - 1)%nat.

(** The pending requests have ids of their own, none of them 0, all below
    the next id. *)
Definition freshIds (p : Player) : Prop :=
  Forall (fun req : nat * Render => (0 < fst req < nextFrameId p)%nat) (frameRequests p) /\
  NoDup (map fst (frameRequests p)) /\ (0 < nextFrameId p)%nat.

(** The request [animationFrameRef] names is the last one made, and
    pending. *)
Definition latestPending (p : Player) : Prop :=
  exists front r, frameRequests p = front ++ [(animationFrameRef p, r)].

(** The frame requests differ in nothing. *)
Definition sameFrames (p q : Player) : Prop :=
  frameRequests q = frameRequests p /\ animationFrameRef q = animationFrameRef p /\
  nextFrameId q = nextFrameId p /\ rendered q = rendered p.

(** A source made by a render in which [isPlaying] was clear. *)
Definition idleClosure (node : SourceNode) : Prop := isPlaying (sourceRender node) = false.

(** The render the effect runs in while segment [i] plays. *)
Definition playingAt (i : nat) : Render :=
  {| isPlaying := true; currentSegmentIndex := i; isLoaded := true |}.

Record Looping (p : Player) : Prop := {
  loop_count : length (frameRequests p) = loopCount p;
  loop_renders :
    map snd (frameRequests p) = map playingAt (seq 0 (length (frameRequests p)));
  loop_fresh : freshIds p;
  loop_latest : isPlaying (st p) = true -> latestPending p;
  loop_closures : Forall idleClosure (sources p)
}.

(** The frame a render loop of segment [i] paints at the time of [env]:
    the image and caption of its own segment, at the time elapsed since
    [segmentStartTimeRef]. *)
Definition frameOf `{B : Browser} (video : GeneratedVideo.t) (env : Env) (p : Player)
    (i : nat) : Frame :=
  renderFrame video (audioBuffersRef p) (imageBitmapsRef p) i
              (now env - segmentStartTimeRef p) (clientWidth env).

(* ================================================================== *)
(** ** More concrete inputs *)

Module Cases.

(** The four bytes of "AEAAwA==": two frames of one channel, or one frame
    of two. *)
Definition fourBytes : list byte := [x00; x40; x00; xc0].

Definition binaryString : string := string_of_list_ascii (map ascii_of_byte fourBytes).

Definition firstSegment : VideoSegment.t := Demo.segment "hello" "AEAAwA==" "/9j/".

Definition firstBuffer : AudioBuffer.t := audioEntry (B := Demo.browser) firstSegment.

Definition playingNode : SourceNode :=
  {| sourceIndex := 0; sourceState := Playing; sourceRender := initialRender |}.

(** The one-segment project after its narration has ended and the play
    overlay was clicked. *)
Definition replayedOne : Player :=
  run (B := Demo.browser) Demo.oneSegment
      [(AssetsLoaded running, Demo.at_ 0); (SourceEnded 0, Demo.at_ 1); (Click, Demo.at_ 2)]
      initialPlayer.

(** A project without segments, loaded, the play overlay clicked. *)
Definition emptyProject : GeneratedVideo.t := Demo.project [].

Definition clickedEmpty : Player :=
  run (B := Demo.browser) emptyProject
      [(AssetsLoaded running, Demo.at_ 0); (Click, Demo.at_ 1)] initialPlayer.

Definition image : ImageBitmap := {| width := 4; height := 3 |}.

(** The two-segment project while its second narration plays. *)
Definition secondPlaying : Player :=
  run (B := Demo.browser) Demo.twoSegments
      [(AssetsLoaded running, Demo.at_ 0); (SourceEnded 0, Demo.at_ 1)] initialPlayer.

Definition secondNode : SourceNode :=
  {| sourceIndex := 1; sourceState := Playing; sourceRender := initialRender |}.

(** "AEAAwAAg" is the six bytes 00 40 00 C0 00 20: three frames at
    24 kHz, 1/8 ms; "AEAAwA==" holds two frames, 1/12 ms.  Durations in
    the ratio 3 : 2. *)
Definition threeTwo : GeneratedVideo.t :=
  Demo.project [Demo.segment "one" "AEAAwAAg" "/9j/"; Demo.segment "two" "AEAAwA==" "/9j/"].

(** Segment 0 of it playing since time 0. *)
Definition threeTwoLoaded : Player :=
  run (B := Demo.browser) threeTwo [(AssetsLoaded running, Demo.at_ 0)] initialPlayer.

Definition firstNode : SourceNode :=
  {| sourceIndex := 0; sourceState := Playing; sourceRender := initialRender |}.

End Cases.

(* ================================================================== *)
(** ** The generation workflow ([src/services/geminiService.ts]) *)

Module Workflow.

(** A scene of the script, as the response schema asks for it. *)
Record Scene := { narration : string; visual_prompt : string }.

(** What a rejected promise carries: an error, with its message. *)
Inductive Reason := Error (message : string).

Definition message (reason : Reason) : string :=
  match reason with Error message => message end.

(** How a promise settles. *)
Inductive Outcome (A : Type) :=
| Resolved (a : A)
| Rejected (reason : Reason).
Arguments Resolved {A} a.
Arguments Rejected {A} reason.

(** A call of [ai.models.generateContent]: the model and the text sent.
    The configuration is the same for all calls of one model. *)
Record Request := { model : string; contents : string }.

(** A part of the first candidate's content, with the data of its
    [inlineData] when it has one. *)
Record Part := { inlineData : option string }.

(** A response: its [text] and [candidates?.[0]?.content?.parts], no
    parts when one of these is missing. *)
Record Response := { text : option string; parts : list Part }.

(** What the code does not hold: the key in [process.env.API_KEY]; the
    API, whose answer may depend on how many requests came before;
    [JSON.parse(text).scenes], absent for the empty object; the clock
    behind [Date.now()], by the number of readings before. *)
Class Gemini := {
  API_KEY : option string;
  generateContent : nat -> Request -> Outcome Response;
  parseScenes : string -> Outcome (option (list Scene));
  parseScenes_empty_object : parseScenes "{}" = Resolved None;
  dateNow : nat -> Z
}.

(** A number in a template string. *)
Definition showNat (n : nat) : string := NilZero.string_of_uint (Nat.to_uint n).
Definition showZ (z : Z) : string := NilZero.string_of_int (Z.to_int z).

Definition quote : string := String (ascii_of_nat 34) EmptyString.
Definition newline : string := String (ascii_of_nat 10) EmptyString.

Definition flash : string := "gemini-2.5-flash".
Definition flashImage : string := "gemini-2.5-flash-image".
Definition flashTts : string := "gemini-2.5-flash-preview-tts".

Definition keyNotFound : Reason := Error "API Key not found. Please select a key.".
Definition noImage : Reason := Error "No image generated".
Definition noAudio : Reason := Error "No audio generated".

(** The prompt of [generateScript] (lines 17-26). *)
Definition scriptPrompt (topic style : string) (isShorts : bool) : string :=
  let format : string := if isShorts then "YouTube Short (under 60s, fast paced)"%string
                         else "YouTube Video (engaging, informative)"%string in
  ("You are an expert YouTube video creator. Create a script for a " ++ format
   ++ " about: " ++ quote ++ topic ++ quote ++ "." ++ newline
   ++ "  Style: " ++ style ++ "." ++ newline
   ++ "  " ++ newline
   ++ "  Return a JSON object containing a list of exactly 5 scenes." ++ newline
   ++ "  Each scene must have:" ++ newline
   ++ "  - " ++ quote ++ "narration" ++ quote
   ++ ": The spoken text (keep it punchy and engaging, max 15 words per scene)." ++ newline
   ++ "  - " ++ quote ++ "visual_prompt" ++ quote
   ++ ": A highly detailed description to generate a photorealistic, cinematic image for this scene. Avoid text in the image description."
   ++ newline ++ "  ")%string.

(** [enhancedPrompt] (line 129). *)
Definition enhancedPrompt (style : string) (scene : Scene) : string :=
  (visual_prompt scene ++ ", " ++ style
   ++ " style, 8k, photorealistic, cinematic lighting, no text")%string.

(** The progress messages (lines 116, 126, 134). *)
Definition planningMessage : string := "Planning video script & visuals...".

Definition visualsMessage (i total : nat) : string :=
  ("Generating Scene " ++ showNat i ++ "/" ++ showNat total ++ ": Visuals...")%string.

Definition voiceoverMessage (i total : nat) : string :=
  ("Generating Scene " ++ showNat i ++ "/" ++ showNat total ++ ": Voiceover...")%string.

(** The requests the three generators send. *)
Definition scriptRequest (topic style : string) (aspectRatio : AspectRatio) : Request :=
  {| model := flash;
     contents := scriptPrompt topic style
                   (match aspectRatio with PORTRAIT => true | LANDSCAPE => false end) |}.

Definition imageRequest (prompt : string) : Request :=
  {| model := flashImage; contents := prompt |}.

Definition audioRequest (text : string) : Request :=
  {| model := flashTts; contents := text |}.

(** [response.text || "{}"] *)
Definition textOrEmptyObject (response : Response) : string :=
  match text response with
  | Some (String c rest) => String c rest
  | _ => "{}"
  end.

(** The loop of [generateImage] (lines 77-81): the data of the first
    part that has inline data. *)
Fixpoint firstInlineData (parts : list Part) : option string :=
  match parts with
  | [] => None
  | part :: rest =>
      match inlineData part with
      | Some data => Some data
      | None => firstInlineData rest
      end
  end.

(** [parts?.[0]?.inlineData?.data] when it is not empty (lines 103-104):
    the empty string is refused like a missing one. *)
Definition audioOf (response : Response) : option string :=
  match parts response with
  | part :: _ =>
      match inlineData part with
      | Some (String c rest) => Some (String c rest)
      | _ => None
      end
  | [] => None
  end.

Section Run.
Context `{G : Gemini}.

(** The caller's state, which only [onProgress] touches. *)
Context {Caller : Type}.
Variable onProgress : string -> Caller -> Caller.

(** What a run changes: the requests sent, the clock readings made, the
    caller's state. *)
Record World := {
  sent : list Request;
  clockReads : nat;
  caller : Caller
}.

(** An [async] function: from a world to an outcome and a world. *)
Definition Async (A : Type) : Type := World -> Outcome A * World.

Definition ret {A} (a : A) : Async A := fun w => (Resolved a, w).

Definition throw {A} (reason : Reason) : Async A := fun w => (Rejected reason, w).

Definition andThen {A C} (c : Async A) (k : A -> Async C) : Async C :=
  fun w =>
    match c w with
    | (Resolved a, w') => k a w'
    | (Rejected reason, w') => (Rejected reason, w')
    end.

Notation "'await!' x ':=' c 'in' k" := (andThen c (fun x => k))
  (at level 10, x name, c at level 100, k at level 200).

(** [getClient] (lines 4-10): a missing or empty key is refused. *)
Definition getClient : Async unit :=
  match API_KEY with
  | Some (String _ _) => ret tt
  | _ => throw keyNotFound
  end.

(** The world after a request. *)
Definition afterSend (request : Request) (w : World) : World :=
  {| sent := sent w ++ [request]; clockReads := clockReads w; caller := caller w |}.

(** [await ai.models.generateContent(...)] *)
Definition send (request : Request) : Async Response :=
  fun w => (generateContent (length (sent w)) request, afterSend request w).

(** [Date.now()] *)
Definition now_ : Async Z :=
  fun w =>
    (Resolved (dateNow (clockReads w)),
     {| sent := sent w; clockReads := S (clockReads w); caller := caller w |}).

(** [onProgress(msg)] *)
Definition report (msg : string) : Async unit :=
  fun w =>
    (Resolved tt,
     {| sent := sent w; clockReads := clockReads w; caller := onProgress msg (caller w) |}).

(** The segment pushed for scene [i] (lines 140-147). *)
Definition segmentOf (scene : Scene) (i : nat) (t : Z) (imageData audioData : string)
  : VideoSegment.t :=
  {| VideoSegment.id := ("seg-" ++ showZ t ++ "-" ++ showNat i)%string;
     VideoSegment.text := narration scene;
     VideoSegment.imagePrompt := visual_prompt scene;
     VideoSegment.imageData := imageData;
     VideoSegment.audioData := audioData;
     VideoSegment.duration := 5 |}.

(** [generateScript] (lines 13-54); [isShorts] is the test for PORTRAIT
    of line 117. *)
Definition generateScript (topic style : string) (aspectRatio : AspectRatio)
  : Async (list Scene) :=
  await! _ := getClient in
  await! response := send (scriptRequest topic style aspectRatio) in
  match parseScenes (textOrEmptyObject response) with
  | Resolved (Some scenes) => ret scenes
  | Resolved None => ret []
  | Rejected reason => throw reason
  end.

(** [generateImage] (lines 57-83); the aspect ratio is not used. *)
Definition generateImage (prompt : string) (aspectRatio : AspectRatio) : Async string :=
  await! _ := getClient in
  await! response := send (imageRequest prompt) in
  match firstInlineData (parts response) with
  | Some data => ret data
  | None => throw noImage
  end.

(** [generateAudio] (lines 86-106). *)
Definition generateAudio (text : string) : Async string :=
  await! _ := getClient in
  await! response := send (audioRequest text) in
  match audioOf response with
  | Some audioData => ret audioData
  | None => throw noAudio
  end.

(** The loop of [generateVideoWorkflow] (lines 123-148) from scene
    [i + 1] on, [total] being [scenes.length]. *)
Fixpoint sceneLoop (style : string) (aspectRatio : AspectRatio) (total : nat)
    (scenes : list Scene) (i : nat) (segments : list VideoSegment.t)
  : Async (list VideoSegment.t) :=
  match scenes with
  | [] => ret segments
  | scene :: rest =>
      let i := S i in
      await! _ := report (visualsMessage i total) in
      await! imageData := generateImage (enhancedPrompt style scene) aspectRatio in
      await! _ := report (voiceoverMessage i total) in
      await! audioData := generateAudio (narration scene) in
      await! t := now_ in
      sceneLoop style aspectRatio total rest i
        (segments ++ [segmentOf scene i t imageData audioData])
  end.

(** [generateVideoWorkflow] (lines 109-158). *)
Definition generateVideoWorkflow (topic style : string) (aspectRatio : AspectRatio)
  : Async GeneratedVideo.t :=
  await! _ := report planningMessage in
  await! scenes := generateScript topic style aspectRatio in
  await! segments := sceneLoop style aspectRatio (length scenes) scenes 0 [] in
  await! id := now_ in
  await! timestamp := now_ in
  ret {| GeneratedVideo.id := showZ id;
         GeneratedVideo.topic := topic;
         GeneratedVideo.style := style;
         GeneratedVideo.aspectRatio := aspectRatio;
         GeneratedVideo.segments := segments;
         GeneratedVideo.timestamp := inject_Z timestamp |}.

End Run.

Arguments World Caller : clear implicits.
Arguments Async Caller A : clear implicits.

(** The requests and the messages of the scenes, in order. *)
Definition sceneRequests (style : string) (scene : Scene) : list Request :=
  [imageRequest (enhancedPrompt style scene); audioRequest (narration scene)].

Definition sceneMessages (total i : nat) : list string :=
  [visualsMessage i total; voiceoverMessage i total].

(** The messages of a run that gets through [scenes]. *)
Definition runMessages (scenes : list Scene) : list string :=
  planningMessage
    :: flat_map (sceneMessages (length scenes)) (seq 1 (length scenes)).

(** A request of a run for [topic] and [style]: the script request, or
    one for a scene. *)
Definition requestFor (topic style : string) (request : Request) : Prop :=
  (exists aspectRatio, request = scriptRequest topic style aspectRatio) \/
  (exists scene, request ∈ sceneRequests style scene).

(** The request [request], sent after [n] others, is why a run was
    rejected with [reason]: the API refused it, or its answer lacks what
    the generator of that model looks for. *)
Definition blames `{G : Gemini} (n : nat) (request : Request) (reason : Reason) : Prop :=
  match generateContent n request with
  | Rejected refusal => reason = refusal
  | Resolved response =>
      (model request = flash /\
       parseScenes (textOrEmptyObject response) = Rejected reason) \/
      (model request = flashImage /\
       firstInlineData (parts response) = None /\ reason = noImage) \/
      (model request = flashTts /\ audioOf response = None /\ reason = noAudio)
  end.

Definition hasKey `{G : Gemini} : bool :=
  match API_KEY with
  | Some (String _ _) => true
  | _ => false
  end.

End Workflow.

(* ================================================================== *)
(** ** The application shell ([App.tsx]) and the form ([CreatorStudio.tsx]) *)

Module Shell.
Import Workflow.

Inductive GenerationStatus := IDLE | PLANNING | GENERATING_ASSETS | COMPLETED | FAILED.

(** The state of [CreatorStudio]. *)
Record Studio := {
  topic : string;
  selectedStyle : string;
  aspectRatio : AspectRatio
}.

Definition initialStudio : Studio :=
  {| topic := ""; selectedStyle := "hype"; aspectRatio := PORTRAIT |}.

(** The ids of [STYLES]. *)
Definition STYLES : list string := ["documentary"; "hype"; "cinematic"; "minimalist"]%string.

(** The state of [App], with that of the form it shows while there is
    no video. *)
Record App := {
  status : GenerationStatus;
  progressMsg : string;
  currentVideo : option GeneratedVideo.t;
  studio : Studio
}.

Definition initialApp : App :=
  {| status := IDLE; progressMsg := ""; currentVideo := None; studio := initialStudio |}.

Definition setStatus (s : GenerationStatus) (a : App) : App :=
  {| status := s; progressMsg := progressMsg a; currentVideo := currentVideo a;
     studio := studio a |}.

Definition setProgressMsg (msg : string) (a : App) : App :=
  {| status := status a; progressMsg := msg; currentVideo := currentVideo a;
     studio := studio a |}.

Definition setCurrentVideo (v : option GeneratedVideo.t) (a : App) : App :=
  {| status := status a; progressMsg := progressMsg a; currentVideo := v;
     studio := studio a |}.

Definition setStudio (s : Studio) (a : App) : App :=
  {| status := status a; progressMsg := progressMsg a; currentVideo := currentVideo a;
     studio := s |}.

Definition withCaller {Caller} (c : Caller) (w : World Caller) : World Caller :=
  {| sent := sent w; clockReads := clockReads w; caller := c |}.

(** White space of [trim()] among the 8-bit characters: tab to carriage
    return, space, no-break space. *)
Definition isWhiteSpace (c : ascii) : bool :=
  let n := nat_of_ascii c in
  ((9 <=? n) && (n <=? 13) || (n =? 32) || (n =? 160))%nat.

(** [!topic.trim()]: nothing but white space. *)
Fixpoint blank (s : string) : bool :=
  match s with
  | EmptyString => true
  | String c rest => isWhiteSpace c && blank rest
  end.

(** [isGenerating] (line 86 of the form). *)
Definition isGenerating (s : GenerationStatus) : bool :=
  match s with
  | IDLE | COMPLETED | FAILED => false
  | PLANNING | GENERATING_ASSETS => true
  end.

Section Shell.
Context `{G : Gemini}.

(** [handleGenerate] of [App] (lines 13-36), its awaits run to
    completion: nothing else can happen meanwhile, the form being
    disabled and the player not shown. *)
Definition handleGenerate (topic style : string) (aspectRatio : AspectRatio)
    (w : World App) : World App :=
  let w := withCaller (setProgressMsg "Initializing..." (setStatus PLANNING (caller w))) w in
  match generateVideoWorkflow setProgressMsg topic style aspectRatio w with
  | (Resolved result, w) =>
      withCaller (setStatus COMPLETED (setCurrentVideo (Some result) (caller w))) w
  | (Rejected error, w) =>
      withCaller (setProgressMsg ("Error: " ++ message error)
                                 (setStatus FAILED (caller w))) w
  end.

(** [reset] (lines 38-41). *)
Definition reset (a : App) : App := setStatus IDLE (setCurrentVideo None a).

(** [handleGenerate] of the form (lines 81-84). *)
Definition studioHandleGenerate (w : World App) : World App :=
  let s := studio (caller w) in
  if blank (topic s) then w
  else handleGenerate (topic s) (selectedStyle s) (aspectRatio s) w.

(** What the user can do. *)
Inductive Event :=
| SetTopic (value : string)
| SelectStyle (id : string)
| SetAspectRatio (ar : AspectRatio)
| ClickGenerate
| ClickReset.                      (* "Create New Video", in the player *)

(** The form is on screen while there is no video (line 69 of [App]);
    its controls are disabled while generating, the button also for a
    blank topic; the style buttons are those of [STYLES].  The player is
    on screen while there is a video, its reset button once the assets
    are loaded: the events allowed here include all that can happen. *)
Definition enabled (ev : Event) (w : World App) : Prop :=
  let a := caller w in
  match ev with
  | SetTopic _ | SetAspectRatio _ =>
      currentVideo a = None /\ isGenerating (status a) = false
  | SelectStyle id =>
      currentVideo a = None /\ isGenerating (status a) = false /\ id ∈ STYLES
  | ClickGenerate =>
      currentVideo a = None /\ isGenerating (status a) = false /\
      blank (topic (studio a)) = false
  | ClickReset => currentVideo a <> None
  end.

(** One event.  The form that comes back on screen after a reset is a
    new one, in its initial state. *)
Definition step (ev : Event) (w : World App) : World App :=
  let a := caller w in
  match ev with
  | SetTopic value =>
      withCaller (setStudio {| topic := value; selectedStyle := selectedStyle (studio a);
                               aspectRatio := aspectRatio (studio a) |} a) w
  | SelectStyle id =>
      withCaller (setStudio {| topic := topic (studio a); selectedStyle := id;
                               aspectRatio := aspectRatio (studio a) |} a) w
  | SetAspectRatio ar =>
      withCaller (setStudio {| topic := topic (studio a);
                               selectedStyle := selectedStyle (studio a);
                               aspectRatio := ar |} a) w
  | ClickGenerate => studioHandleGenerate w
  | ClickReset => withCaller (setStudio initialStudio (reset a)) w
  end.

Definition initialWorld : World App :=
  {| sent := []; clockReads := 0; caller := initialApp |}.

Inductive reachable : World App -> Prop :=
| reachable_init : reachable initialWorld
| reachable_step w ev : reachable w -> enabled ev w -> reachable (step ev w).

(** What holds between two events. *)
Record Rest (w : World App) : Prop := {
  rest_status : isGenerating (status (caller w)) = false;
  rest_video : is_Some (currentVideo (caller w)) <-> status (caller w) = COMPLETED;
  rest_failed : status (caller w) = FAILED ->
                exists reason, progressMsg (caller w) = ("Error: " ++ message reason)%string;
  rest_style : selectedStyle (studio (caller w)) ∈ STYLES;
  rest_sent : forall request, request ∈ sent w ->
              exists topic style,
                blank topic = false /\ style ∈ STYLES /\ requestFor topic style request
}.

End Shell.
End Shell.

(* ================================================================== *)
(** ** Concrete backends, for closed instances *)

Module Backends.
Import Workflow.

Definition scenes : list Scene :=
  [{| narration := "hello big world"; visual_prompt := "a blue planet" |};
   {| narration := "bye"; visual_prompt := "a sunset" |}].

(** An API that answers every request: a script of two scenes, an image
    in the second part, audio in the first. *)
Definition answer (request : Request) : Response :=
  if String.eqb (model request) flash
  then {| text := Some "script"%string; parts := [] |}
  else if String.eqb (model request) flashImage
       then {| text := None;
               parts := [{| inlineData := None |}; {| inlineData := Some "/9j/"%string |}] |}
       else {| text := None; parts := [{| inlineData := Some "AEAAwA=="%string |}] |}.

Definition parse (text : string) : Outcome (option (list Scene)) :=
  if String.eqb text "{}" then Resolved None
  else if String.eqb text "script" then Resolved (Some scenes)
       else Rejected (Error "Unexpected token").

Definition clock (n : nat) : Z := (1700000000000 + Z.of_nat n)%Z.

Definition working : Gemini :=
  {| API_KEY := Some "key"%string;
     generateContent := fun _ request => Resolved (answer request);
     parseScenes := parse;
     parseScenes_empty_object := eq_refl;
     dateNow := clock |}.

(** The same without a key. *)
Definition keyless : Gemini :=
  {| API_KEY := None;
     generateContent := fun _ request => Resolved (answer request);
     parseScenes := parse;
     parseScenes_empty_object := eq_refl;
     dateNow := clock |}.

(** An API that is out of quota from its fourth request on. *)
Definition limited : Gemini :=
  {| API_KEY := Some "key"%string;
     generateContent := fun n request =>
       if (3 <=? n)%nat then Rejected (Error "quota exceeded")
       else Resolved (answer request);
     parseScenes := parse;
     parseScenes_empty_object := eq_refl;
     dateNow := clock |}.

(** An API whose answers carry nothing. *)
Definition mute : Gemini :=
  {| API_KEY := Some "key"%string;
     generateContent := fun _ _ => Resolved {| text := None; parts := [] |};
     parseScenes := parse;
     parseScenes_empty_object := eq_refl;
     dateNow := clock |}.

(** A run that only records the messages. *)
Definition logging (msg : string) (log : list string) : list string := log ++ [msg].

Definition freshLog : World (list string) := {| sent := []; clockReads := 0; caller := [] |}.

Definition run (G : Gemini) : Outcome GeneratedVideo.t * World (list string) :=
  generateVideoWorkflow (G := G) logging "space" "hype" PORTRAIT freshLog.

Definition videoOf (G : Gemini) : GeneratedVideo.t :=
  match fst (run G) with
  | Resolved video => video
  | Rejected _ => Demo.project []
  end.

Definition reasonOf (G : Gemini) : Reason :=
  match fst (run G) with
  | Resolved _ => Error ""
  | Rejected reason => reason
  end.

(** The form with a topic typed in, and after a click on the button. *)
Definition typed : World Shell.App :=
  Shell.step (G := working) (Shell.SetTopic "space") Shell.initialWorld.

Definition generated (G : Gemini) : World Shell.App :=
  Shell.step (G := G) Shell.ClickGenerate typed.

End Backends.

(* ================================================================== *)
(** * Properties of the decoder *)

Section DecoderFacts.
Context `{B : Browser}.

Lemma createBuffer_silent : createBuffer 1 24000 24000 = Normal silentBuffer.
Proof.
  unfold createBuffer.
  replace ((24000 =? 0)%nat) with false by (vm_compute; reflexivity).
  replace (negb (Qle_bool 8000 24000 && Qle_bool 24000 96000)) with false
    by (vm_compute; reflexivity).
  reflexivity.
Qed.

Lemma int16s_length (bs : list byte) : length (int16s bs) = (length bs / 2)%nat.
Proof.
  assert (Hboth : length (int16s bs) = (length bs / 2)%nat /\
                  forall b, length (int16s (b :: bs)) = (S (length bs) / 2)%nat).
  { induction bs as [|a bs [IH1 IH2]]; [split; [|intros]; reflexivity|].
    split; [apply IH2|]. intros b. cbn [int16s length]. rewrite IH1.
    change (S (S (length bs))) with (2 + length bs)%nat.
    replace (2 + length bs)%nat with (length bs + 1 * 2)%nat by lia.
    rewrite Nat.div_add by lia. lia. }
  apply Hboth.
Qed.

(** Shortening the window of a fresh array drops the last byte from what
    the window shows and leaves the buffer behind it whole. *)
Lemma subarray_keeps_buffer (bytes : list byte) :
  let data := subarray (newUint8Array bytes) 0 (length bytes - 1) in
  contents data = take (length bytes - 1) bytes /\ buffer data = bytes.
Proof.
  unfold subarray, newUint8Array, contents. cbn [buffer byteOffset byteLength].
  rewrite Nat.min_0_l, Nat.sub_0_r, Nat.add_0_l, drop_0.
  rewrite Nat.min_l by lia. split; reflexivity.
Qed.

(** An odd-length buffer never reaches [createBuffer]: the window is
    shortened, the buffer behind it is not. *)
Lemma decodePCM_odd (bytes : list byte) (sampleRate : Q) (numChannels : nat) :
  (length bytes mod 2 = 1)%nat ->
  decodePCM (newUint8Array bytes) sampleRate numChannels = Throw RangeError.
Proof.
  intros Hodd. unfold decodePCM, newUint8Array. cbn [byteLength buffer].
  rewrite Hodd. cbn [Nat.eqb negb subarray buffer]. unfold newInt16Array.
  rewrite Hodd. reflexivity.
Qed.

(** What an even, non-empty payload decodes to. *)
Lemma decodePCM_even (bytes : list byte) :
  (length bytes mod 2 = 0)%nat -> (0 < length bytes)%nat ->
  decodePCM (newUint8Array bytes) 24000 1 =
    Normal {| AudioBuffer.numberOfChannels := 1;
              AudioBuffer.length := (length bytes / 2)%nat;
              AudioBuffer.sampleRate := 24000;
              AudioBuffer.channelData :=
                [map (fun v => (inject_Z v / 32768)%Q) (int16s bytes)] |}.
Proof.
  intros Heven Hpos. unfold decodePCM, newUint8Array. cbn [byteLength buffer].
  rewrite Heven. cbn [Nat.eqb negb buffer]. unfold newInt16Array. rewrite Heven.
  cbn [Nat.eqb bind]. rewrite Nat.div_1_r, int16s_length.
  assert (Hn : (0 < length bytes / 2)%nat).
  { apply Nat.div_str_pos. 
    destruct bytes as [|a [|b bs]]; cbn in *; try lia; discriminate. }
  unfold createBuffer.
  destruct (Nat.eqb_spec (length bytes / 2) 0) as [E|_]; [lia|].
  cbn [Nat.eqb orb bind AudioBuffer.numberOfChannels AudioBuffer.length
       AudioBuffer.sampleRate seq map].
  replace (negb (Qle_bool 8000 24000 && Qle_bool 24000 96000)) with false
    by (vm_compute; reflexivity).
  cbn [bind AudioBuffer.numberOfChannels AudioBuffer.length AudioBuffer.sampleRate].
  do 3 f_equal.
  rewrite <- int16s_length.
  apply list_eq. intros i.
  rewrite !list_lookup_fmap.
  destruct (decide (i < length (int16s bytes))%nat) as [Hi|Hi].
  - rewrite lookup_seq_lt by exact Hi. cbn.
    destruct (lookup_lt_is_Some_2 (int16s bytes) i Hi) as [v Hv].
    rewrite Hv. cbn. unfold pcmSample. do 3 f_equal.
    rewrite Nat.mul_1_r, Nat.add_0_r.
    apply nth_lookup_Some with (d := 0%Z) in Hv. exact Hv.
  - rewrite lookup_seq_ge by lia. rewrite lookup_ge_None_2 by lia. reflexivity.
Qed.

Lemma bytes_length (binaryString : string) :
  length (map byte_of_ascii (list_ascii_of_string binaryString))
  = String.length binaryString.
Proof.
  rewrite length_map. induction binaryString as [|c s IH]; cbn; congruence.
Qed.

Lemma decodeAudioStep_entry (segment : VideoSegment.t) (bufs : list AudioBuffer.t) :
  decodeAudioStep segment bufs = Normal (bufs ++ [audioEntry segment]).
Proof.
  unfold decodeAudioStep, audioEntry.
  destruct (decodeAudio (VideoSegment.audioData segment)) as [b|e]; cbn [bind tryCatch].
  - reflexivity.
  - rewrite createBuffer_silent. reflexivity.
Qed.

Lemma loadImageStep_entry (segment : VideoSegment.t) (imgs : list ImageBitmap) :
  loadImageStep segment imgs = Normal (imgs ++ [imageEntry segment]).
Proof.
  unfold loadImageStep, imageEntry.
  destruct (fetchImageBitmap (VideoSegment.imageData segment)); reflexivity.
Qed.

(** The loop appends one entry per segment to each array, in order. *)
Lemma loadLoop_entries (segments : list VideoSegment.t) (acc : Assets) :
  loadLoop segments acc =
    Normal {| audioBuffers := audioBuffers acc ++ map audioEntry segments;
              images := images acc ++ map imageEntry segments;
              loadedCount := loadedCount acc + 2 * length segments |}.
Proof.
  revert acc. induction segments as [|segment rest IH]; intros acc.
  - cbn. rewrite !app_nil_r, Nat.add_0_r. destruct acc; reflexivity.
  - cbn [loadLoop]. rewrite decodeAudioStep_entry, loadImageStep_entry.
    cbn [bind]. rewrite IH. cbn [audioBuffers images loadedCount map length].
    rewrite <- !app_assoc. cbn [app]. do 2 f_equal. lia.
Qed.

Lemma decodeAssets_entries (video : GeneratedVideo.t) :
  decodeAssets video =
    Normal {| audioBuffers := map audioEntry (GeneratedVideo.segments video);
              images := map imageEntry (GeneratedVideo.segments video);
              loadedCount := 2 * length (GeneratedVideo.segments video) |}.
Proof. unfold decodeAssets. rewrite loadLoop_entries. reflexivity. Qed.

Lemma decodedAudio_entries (video : GeneratedVideo.t) :
  decodedAudio video = map audioEntry (GeneratedVideo.segments video).
Proof. unfold decodedAudio. rewrite decodeAssets_entries. reflexivity. Qed.

Lemma decodedImages_entries (video : GeneratedVideo.t) :
  decodedImages video = map imageEntry (GeneratedVideo.segments video).
Proof. unfold decodedImages. rewrite decodeAssets_entries. reflexivity. Qed.

Lemma silentBuffer_duration : (AudioBuffer.duration silentBuffer == 1)%Q.
Proof. vm_compute. reflexivity. Qed.

Lemma silentBuffer_zero (channel : list Q) (x : Q) :
  channel ∈ AudioBuffer.channelData silentBuffer -> x ∈ channel -> x = 0%Q.
Proof.
  cbn [silentBuffer AudioBuffer.channelData]. intros Hc Hx.
  apply list_elem_of_singleton in Hc. subst channel.
  apply elem_of_replicate in Hx. apply Hx.
Qed.

(** Every buffer the decode phase stores lasts longer than nothing. *)
Lemma decodeAudio_frames (audioData : string) (b : AudioBuffer.t) :
  decodeAudio audioData = Normal b ->
  (0 < AudioBuffer.length b)%nat /\ AudioBuffer.sampleRate b = 24000%Q.
Proof.
  unfold decodeAudio. destruct (decodeBase64 audioData) as [bytes|e]; [|discriminate].
  cbn [bind]. unfold decodePCM.
  destruct (newInt16Array _) as [dataInt16|e]; [|discriminate]. cbn [bind].
  rewrite Nat.div_1_r. unfold createBuffer.
  destruct (Nat.eqb_spec (length dataInt16) 0) as [E|E]; [discriminate|].
  cbn [Nat.eqb orb].
  replace (negb (Qle_bool 8000 24000 && Qle_bool 24000 96000)) with false
    by (vm_compute; reflexivity).
  cbn [bind]. intros [= <-]. cbn [AudioBuffer.length AudioBuffer.sampleRate].
  split; [lia|reflexivity].
Qed.

Lemma audioEntry_duration_pos (segment : VideoSegment.t) :
  (0 < AudioBuffer.duration (audioEntry segment))%Q.
Proof.
  unfold audioEntry.
  destruct (decodeAudio (VideoSegment.audioData segment)) as [b|e] eqn:E.
  - destruct (decodeAudio_frames _ _ E) as [Hlen Hrate].
    unfold AudioBuffer.duration. rewrite Hrate.
    apply Qlt_shift_div_l; [reflexivity|]. rewrite Qmult_0_l.
    unfold Qlt. cbn. lia.
  - rewrite silentBuffer_duration. reflexivity.
Qed.

(** C2 (as the code has it).  A payload of odd byte length is not
    truncated: [decodePCM] shortens the window but builds the [Int16Array]
    on the whole buffer, which is refused with a [RangeError]; the decode
    phase then stores the silent fallback for the segment, not a buffer of
    the first [n] samples. *)
Theorem odd_payload_is_refused (segment : VideoSegment.t) (binaryString : string)
    (bufs : list AudioBuffer.t) :
  atob (VideoSegment.audioData segment) = Some binaryString ->
  (String.length binaryString mod 2 = 1)%nat ->
  decodeAudio (VideoSegment.audioData segment) = Throw RangeError /\
  decodeAudioStep segment bufs = Normal (bufs ++ [silentBuffer]).
Proof.
  intros Hatob Hodd.
  assert (E : decodeAudio (VideoSegment.audioData segment) = Throw RangeError).
  { unfold decodeAudio, decodeBase64. rewrite Hatob. cbn [bind].
    apply decodePCM_odd. rewrite bytes_length. exact Hodd. }
  split; [exact E|].
  rewrite decodeAudioStep_entry. unfold audioEntry. rewrite E. reflexivity.
Qed.

(** C5.  The audio step of the decode phase never raises: whenever the
    decoding of a segment's payload fails, the step completes normally and
    the entry stored for the segment is a silent buffer of 24000 frames at
    24000 Hz (one second, every sample zero); the phase goes on to the end
    of the project and stores one buffer per segment. *)
Theorem audio_failure_is_silence (video : GeneratedVideo.t) (i : nat)
    (segment : VideoSegment.t) (e : Exn) :
  GeneratedVideo.segments video !! i = Some segment ->
  decodeAudio (VideoSegment.audioData segment) = Throw e ->
  exists assets silent,
    (forall bufs, decodeAudioStep segment bufs = Normal (bufs ++ [silent])) /\
    decodeAssets video = Normal assets /\
    length (audioBuffers assets) = length (GeneratedVideo.segments video) /\
    audioBuffers assets !! i = Some silent /\
    AudioBuffer.numberOfChannels silent = 1%nat /\
    AudioBuffer.length silent = 24000%nat /\
    AudioBuffer.sampleRate silent = 24000%Q /\
    (AudioBuffer.duration silent == 1)%Q /\
    (forall channel x, channel ∈ AudioBuffer.channelData silent -> x ∈ channel -> x = 0%Q).
Proof.
  intros Hseg Hfail.
  assert (Hentry : audioEntry segment = silentBuffer)
    by (unfold audioEntry; rewrite Hfail; reflexivity).
  exists {| audioBuffers := map audioEntry (GeneratedVideo.segments video);
            images := map imageEntry (GeneratedVideo.segments video);
            loadedCount := 2 * length (GeneratedVideo.segments video) |}, silentBuffer.
  cbn [audioBuffers].
  split; [intros bufs; rewrite decodeAudioStep_entry, Hentry; reflexivity|].
  split; [apply decodeAssets_entries|].
  split; [apply length_map|].
  split; [rewrite list_lookup_fmap, Hseg; cbn; rewrite Hentry; reflexivity|].
  do 3 (split; [reflexivity|]).
  split; [exact silentBuffer_duration|exact silentBuffer_zero].
Qed.

(** C7.  The decode phase always completes, and its two arrays have one
    entry per segment, at the segment's index: the decoded buffer or, when
    the audio decoding fails, the silent buffer; the decoded image or,
    when the image fails to load, the 1x1 placeholder. *)
Theorem assets_are_index_aligned (video : GeneratedVideo.t) :
  exists assets,
    decodeAssets video = Normal assets /\
    length (audioBuffers assets) = length (GeneratedVideo.segments video) /\
    length (images assets) = length (GeneratedVideo.segments video) /\
    forall i segment,
      GeneratedVideo.segments video !! i = Some segment ->
      (forall b, decodeAudio (VideoSegment.audioData segment) = Normal b ->
                 audioBuffers assets !! i = Some b) /\
      (forall e, decodeAudio (VideoSegment.audioData segment) = Throw e ->
                 audioBuffers assets !! i = Some silentBuffer) /\
      (forall img, fetchImageBitmap (VideoSegment.imageData segment) = Some img ->
                   images assets !! i = Some img) /\
      (fetchImageBitmap (VideoSegment.imageData segment) = None ->
       images assets !! i = Some {| width := 1; height := 1 |}).
Proof.
  eexists. split; [apply decodeAssets_entries|]. cbn [audioBuffers images].
  rewrite !length_map. do 2 (split; [reflexivity|]).
  intros i segment Hseg. rewrite !list_lookup_fmap, Hseg. cbn.
  unfold audioEntry, imageEntry.
  repeat split.
  - intros b E. rewrite E. reflexivity.
  - intros e E. rewrite E. reflexivity.
  - intros img E. rewrite E. reflexivity.
  - intros E. rewrite E. reflexivity.
Qed.

End DecoderFacts.

(* ================================================================== *)
(** * Properties of the renderer *)

Section RendererFacts.
Context `{B : Browser}.

Lemma Qltb_lt (x y : Q) : Qltb x y = true <-> (x < y)%Q.
Proof.
  unfold Qltb. rewrite negb_true_iff. split.
  - intros E. apply Qnot_le_lt. intros Hle.
    apply Qle_bool_iff in Hle. congruence.
  - intros Hlt. destruct (Qle_bool y x) eqn:E; [|reflexivity].
    apply Qle_bool_iff in E. exfalso. exact (Qlt_not_le _ _ Hlt E).
Qed.

Lemma Qltb_ge (x y : Q) : Qltb x y = false <-> (y <= x)%Q.
Proof.
  unfold Qltb. rewrite negb_false_iff. apply Qle_bool_iff.
Qed.

(** *** Word wrap *)

Lemma split_nonempty (s : string) : split s <> [].
Proof.
  destruct s as [|c rest]; cbn [split]; [discriminate|].
  destruct (Ascii.eqb c " "); [discriminate|].
  destruct (split rest); discriminate.
Qed.

(** A text without a space is one word. *)
Lemma split_one_word (s : string) :
  ~ In " "%char (list_ascii_of_string s) -> split s = [s].
Proof.
  induction s as [|c rest IH]; intros Hno; [reflexivity|].
  cbn [split]. cbn [list_ascii_of_string In] in Hno.
  destruct (Ascii.eqb_spec c " ") as [->|_]; [exfalso; apply Hno; left; reflexivity|].
  rewrite IH by (intros Hin; apply Hno; right; exact Hin). reflexivity.
Qed.

(** Joining the words of a text, a space after each, gives the text back
    with one more space. *)
Lemma split_join (s : string) :
  joinLines (map (fun word => (word ++ " ")%string) (split s)) = (s ++ " ")%string.
Proof.
  induction s as [|c rest IH]; [reflexivity|].
  cbn [split]. destruct (Ascii.eqb_spec c " ") as [->|_].
  - cbn [map joinLines fold_right]. fold (joinLines (map (fun word => (word ++ " ")%string) (split rest))).
    rewrite IH. reflexivity.
  - destruct (split rest) as [|w ws] eqn:E; [exfalso; exact (split_nonempty rest E)|].
    cbn [map joinLines fold_right] in *.
    cbn [String.append]. f_equal. exact IH.
Qed.

Lemma append_assoc (s1 s2 s3 : string) :
  (s1 ++ s2 ++ s3)%string = ((s1 ++ s2) ++ s3)%string.
Proof. induction s1 as [|c s1 IH]; cbn; congruence. Qed.

Lemma joinLines_app (l1 l2 : list string) :
  joinLines (l1 ++ l2) = (joinLines l1 ++ joinLines l2)%string.
Proof.
  induction l1 as [|a l1 IH]; [reflexivity|].
  cbn [app joinLines fold_right]. fold (joinLines (l1 ++ l2)). fold (joinLines l1).
  rewrite IH. apply append_assoc.
Qed.

Lemma append_empty_r (s : string) : (s ++ "")%string = s.
Proof. induction s as [|c s IH]; cbn; congruence. Qed.

(** The loop moves characters from the words to the lines and changes
    nothing else. *)
Lemma wrapLoop_join (fontSize maxWidth : Q) (words : list string) (n : nat)
    (line : string) (lines : list string) :
  let '(lines', line') := wrapLoop fontSize maxWidth words n line lines in
  (joinLines lines' ++ line')%string
  = (joinLines lines ++ line
     ++ joinLines (map (fun word => (word ++ " ")%string) words))%string.
Proof.
  revert n line lines. induction words as [|word rest IH]; intros n line lines.
  - cbn. rewrite append_empty_r. reflexivity.
  - cbn [wrapLoop].
    destruct (Qltb maxWidth (measureText fontSize (line ++ word ++ " ")) && (0 <? n)%nat).
    + specialize (IH (S n) (word ++ " ")%string (lines ++ [line])).
      destruct (wrapLoop fontSize maxWidth rest (S n) (word ++ " ") (lines ++ [line]))
        as [lines' line'].
      rewrite IH, joinLines_app. cbn [map joinLines fold_right].
      rewrite append_empty_r, <- !append_assoc. reflexivity.
    + specialize (IH (S n) (line ++ word ++ " ")%string lines).
      destruct (wrapLoop fontSize maxWidth rest (S n) (line ++ word ++ " ") lines)
        as [lines' line'].
      rewrite IH. cbn [map joinLines fold_right].
      rewrite <- !append_assoc. reflexivity.
Qed.

(** A single word is never broken, whatever it measures: the loop pushes
    a line only from its second word on. *)
Lemma wordWrap_one_word (size maxWidth : Q) (text : string) :
  ~ In " "%char (list_ascii_of_string text) ->
  wordWrap size maxWidth text = [(text ++ " ")%string].
Proof.
  intros Hword. unfold wordWrap. rewrite (split_one_word _ Hword).
  cbn [wrapLoop Nat.ltb Nat.leb]. rewrite andb_false_r. reflexivity.
Qed.

(** C9.  When the caption of the painted segment is a single word (no
    space in it) that measures more than the maximum line width, 85% of
    the canvas width, the frame's caption is exactly one line, the word
    with the space the loop appends; the wrap is a total function, so
    nothing is raised. *)
Theorem single_wide_word_is_one_line (video : GeneratedVideo.t)
    (bufs : list AudioBuffer.t) (imgs : list ImageBitmap) (segmentIdx : nat)
    (segment : VideoSegment.t) (elapsed canvasWidth : Q) :
  GeneratedVideo.segments video !! segmentIdx = Some segment ->
  ~ In " "%char (list_ascii_of_string (VideoSegment.text segment)) ->
  (canvasWidth * 0.85
   < measureText (fontSize (GeneratedVideo.aspectRatio video) canvasWidth)
                 (VideoSegment.text segment))%Q ->
  frameLines (renderFrame video bufs imgs segmentIdx elapsed canvasWidth)
    = [(VideoSegment.text segment ++ " ")%string] /\
  length (frameLines (renderFrame video bufs imgs segmentIdx elapsed canvasWidth)) = 1%nat.
Proof.
  intros Hseg Hword _. cbn [renderFrame frameLines]. rewrite Hseg.
  rewrite (wordWrap_one_word _ _ _ Hword). split; reflexivity.
Qed.

(** C10.  For every caption, the empty one included, the wrap yields at
    least one line, and the lines read in order are the caption followed
    by one space: wrapping loses, repeats and reorders nothing. *)
Theorem wrap_preserves_text (fontSize maxWidth : Q) (text : string) :
  (1 <= length (wordWrap fontSize maxWidth text))%nat /\
  joinLines (wordWrap fontSize maxWidth text) = (text ++ " ")%string.
Proof.
  unfold wordWrap.
  pose proof (wrapLoop_join fontSize maxWidth (split text) 0 EmptyString []) as Hjoin.
  destruct (wrapLoop fontSize maxWidth (split text) 0 EmptyString []) as [lines line].
  split.
  - rewrite length_app. cbn. lia.
  - rewrite joinLines_app. cbn [joinLines fold_right]. rewrite append_empty_r, Hjoin.
    cbn [joinLines fold_right String.append]. apply split_join.
Qed.

(** *** Durations, the progress bar and the zoom *)

Lemma fold_durations (l : list AudioBuffer.t) (a : Q) :
  (fold_left (fun acc b => acc + AudioBuffer.duration b) l a == a + sumDurations l)%Q.
Proof.
  unfold sumDurations. revert a. induction l as [|b l IH]; intros a; cbn [fold_left].
  - lra.
  - rewrite IH, (IH (0 + AudioBuffer.duration b)%Q). lra.
Qed.

Lemma sumDurations_app (l1 l2 : list AudioBuffer.t) :
  (sumDurations (l1 ++ l2) == sumDurations l1 + sumDurations l2)%Q.
Proof.
  unfold sumDurations at 1. rewrite fold_left_app.
  fold (sumDurations l1). apply fold_durations.
Qed.

Lemma sumDurations_nonneg (l : list AudioBuffer.t) :
  Forall positive l -> (0 <= sumDurations l)%Q.
Proof.
  induction 1 as [|b l Hb _ IH].
  - unfold sumDurations. cbn. lra.
  - change (b :: l) with ([b] ++ l). rewrite sumDurations_app.
    unfold sumDurations at 1. cbn [fold_left]. unfold positive in Hb. lra.
Qed.

Lemma sumDurations_pos (l : list AudioBuffer.t) :
  Forall positive l -> l <> [] -> (0 < sumDurations l)%Q.
Proof.
  intros Hall Hne. destruct Hall as [|b l Hb Hl]; [congruence|].
  change (b :: l) with ([b] ++ l). rewrite sumDurations_app.
  pose proof (sumDurations_nonneg l Hl).
  unfold sumDurations at 1. cbn [fold_left]. unfold positive in Hb. lra.
Qed.

Lemma sumDurations_take (l : list AudioBuffer.t) (i : nat) :
  Forall positive l ->
  (0 <= sumDurations (take i l) <= sumDurations l)%Q.
Proof.
  intros Hall. rewrite <- (take_drop i l) at 3. rewrite sumDurations_app.
  pose proof (sumDurations_nonneg (take i l) (Forall_take _ i _ Hall)).
  pose proof (sumDurations_nonneg (drop i l) (Forall_drop _ i _ Hall)).
  lra.
Qed.

Lemma bar_bounds (bufs : list AudioBuffer.t) (segmentIdx : nat) (elapsed : Q) :
  Forall positive bufs -> bufs <> [] -> (0 <= elapsed)%Q ->
  (0 <= totalProgressPct bufs segmentIdx elapsed <= 1)%Q.
Proof.
  intros Hall Hne He. unfold totalProgressPct.
  pose proof (sumDurations_pos bufs Hall Hne) as Htot.
  pose proof (sumDurations_take bufs segmentIdx Hall) as [Hprev _].
  split; [|apply Q.le_min_r].
  apply Q.min_glb; [|lra].
  apply Qle_shift_div_l; [exact Htot|]. 
  assert (0 <= elapsed / 1000)%Q by (apply Qle_shift_div_l; lra). lra.
Qed.


End RendererFacts.

(* ================================================================== *)
(** * Properties of the player *)

Ltac simp_player :=
  cbn [st rendered audioContextRef audioBuffersRef imageBitmapsRef currentSourceRef
       animationFrameRef segmentStartTimeRef sources frameRequests nextFrameId
       painted clock withSt withRendered withContext withAssets withSources
       withSegmentStartTime withFrames withPainted withClock setIsPlaying
       setCurrentSegmentIndex setIsLoaded requestAnimationFrame cancelAnimationFrame
       startSource isPlaying currentSegmentIndex isLoaded audioBuffers images] in *.

(** Case analysis on every test a function makes. *)
Ltac case_ifs :=
  repeat match goal with
         | |- context [if ?b then _ else _] => destruct b
         | |- context [match ?x with _ => _ end] => destruct x
         end.

(** A state that differs from one satisfying the invariant in fields the
    invariant does not read. *)
Ltac keep HI Hc :=
  split; [destruct HI; constructor; simp_player; assumption | simp_player; exact Hc].

Section PlayerFacts.
Context `{B : Browser}.
Variable video : GeneratedVideo.t.

(** After [stop()] on the bound source nothing plays, if only the bound
    source could. *)
Lemma stopCurrent_nonePlaying p : onePlaying p -> nonePlaying (stopCurrent p).
Proof.
  intros Hone. unfold stopCurrent.
  destruct (currentSourceRef p) as [c|] eqn:Ec.
  - destruct (sources p !! c) as [cur|] eqn:Ecur.
    + intros j node. simp_player.
      destruct (decide (j = c)) as [->|Hne].
      * rewrite list_lookup_insert_eq by (eapply lookup_lt_Some; eauto).
        intros [= <-]. destruct cur as [i [] r]; cbn; discriminate.
      * rewrite list_lookup_insert_ne by auto.
        intros Hj Hp. specialize (Hone _ _ Hj Hp). congruence.
    + intros j node Hj Hp. specialize (Hone _ _ Hj Hp). congruence.
  - intros j node Hj Hp. specialize (Hone _ _ Hj Hp). congruence.
Qed.

(** Each function of the component keeps the invariant on its own, so
    the invariant does not depend on the order in which the platform
    calls them. *)
Lemma renderLoop_inv r env p :
  InvAt video env p -> InvAt video env (renderLoop video r env p).
Proof.
  intros [HI Hc]. unfold renderLoop.
  destruct (isLoaded (rendered p)) eqn:El; cbn [negb]; [|keep HI Hc].
  destruct (negb (isPlaying r) && contextIs suspended p); [keep HI Hc|].
  destruct (Nat.leb_spec (segmentCount video) (currentSegmentIndex r)) as [Hge|Hlt];
    [keep HI Hc|].
  assert (Hgood : forall f, f ∈ painted p ++
      [renderFrame video (audioBuffersRef p) (imageBitmapsRef p) (currentSegmentIndex r)
         (now env - segmentStartTimeRef p) (clientWidth env)] -> goodFrame video f).
  { intros f Hin. destruct HI as [Hi Hp Ha Hm Hs Hf].
    apply elem_of_app in Hin as [Hin|Hin]; [auto|].
    apply list_elem_of_singleton in Hin. subst f.
    destruct (Ha (Hm El)) as [-> ->].
    exists (currentSegmentIndex r), (now env - segmentStartTimeRef p)%Q, (clientWidth env).
    split; [exact Hlt|]. split; [|reflexivity]. rewrite <- Hc. lra. }
  destruct (isPlaying r); keep HI Hc.
Qed.

Lemma setIsPlaying_inv b env p : InvAt video env p -> InvAt video env (setIsPlaying b p).
Proof. intros [HI Hc]. keep HI Hc. Qed.

(** [stop()] touches the sources and nothing else. *)
Lemma stopCurrent_rest p :
  st (stopCurrent p) = st p /\ rendered (stopCurrent p) = rendered p /\
  audioBuffersRef (stopCurrent p) = audioBuffersRef p /\
  imageBitmapsRef (stopCurrent p) = imageBitmapsRef p /\
  painted (stopCurrent p) = painted p /\ clock (stopCurrent p) = clock p.
Proof. unfold stopCurrent. case_ifs; simp_player; auto 10. Qed.

Lemma playSegment_inv r env index p :
  InvAt video env p -> InvAt video env (playSegment video r env index p).
Proof.
  intros [HI Hc]. unfold playSegment.
  destruct (Nat.leb_spec (segmentCount video) index) as [Hge|Hlt]; [keep HI Hc|].
  destruct (audioContextRef p) as [c|] eqn:Ectx; [|keep HI Hc].
  set (q := setIsPlaying true _).
  assert (Hq : InvAt video env q).
  { subst q.
    pose proof (stopCurrent_nonePlaying p (inv_playing video _ HI)) as Hnone.
    destruct (stopCurrent_rest p) as (E1 & E2 & E3 & E4 & E5 & E6).
    split; [|simp_player; congruence].
    destruct HI as [Hi Hp Ha Hm Hs Hf].
    constructor; simp_player; rewrite ?E1, ?E2, ?E3, ?E4, ?E5, ?E6; try assumption.
    - lia.
    - unfold onePlaying. simp_player. intros j node Hj Hplay.
      apply lookup_app_Some in Hj as [Hj|[Hlen Hj]].
      + exfalso. exact (Hnone _ _ Hj Hplay).
      + destruct (j - length (sources (stopCurrent p)))%nat as [|k] eqn:Ek; [|discriminate].
        f_equal. lia.
    - rewrite Hc. lra. }
  destruct (animationFrameRef q =? 0)%nat; [apply renderLoop_inv|]; exact Hq.
Qed.

Lemma onended_inv j env p : InvAt video env p -> InvAt video env (onended video j env p).
Proof.
  intros [HI Hc]. unfold onended.
  destruct (sources p !! j) as [node|] eqn:Ej; [|keep HI Hc].
  apply playSegment_inv. split; [|simp_player; exact Hc].
  destruct HI as [Hi Hp Ha Hm Hs Hf]. constructor; simp_player; try assumption.
  unfold onePlaying. simp_player. intros k nd Hk Hplay.
  destruct (decide (k = j)) as [->|Hne].
  - rewrite list_lookup_insert_eq in Hk by (eapply lookup_lt_Some; eauto).
    injection Hk as <-. discriminate Hplay.
  - rewrite list_lookup_insert_ne in Hk by auto. eauto.
Qed.

Lemma withContext_inv c env p : InvAt video env p -> InvAt video env (withContext c p).
Proof. intros [HI Hc]. keep HI Hc. Qed.

Lemma togglePlay_inv env p : InvAt video env p -> InvAt video env (togglePlay video env p).
Proof.
  intros HI. unfold togglePlay.
  destruct (audioContextRef p); [|exact HI].
  set (q := if contextIs suspended p then _ else _).
  assert (Hq : InvAt video env q) by (subst q; destruct (contextIs suspended p);
                                [apply withContext_inv|]; exact HI).
  clearbody q.
  case_ifs;
    repeat first [ exact Hq | apply playSegment_inv | apply renderLoop_inv
                 | apply setIsPlaying_inv | apply withContext_inv ].
Qed.

Lemma loadAssets_inv c env p : InvAt video env p -> InvAt video env (loadAssets video c env p).
Proof.
  intros [HI Hc]. unfold loadAssets. rewrite decodeAssets_entries.
  set (q := setIsLoaded true _).
  assert (Hq : InvAt video env q).
  { subst q. split; [|simp_player; exact Hc].
    destruct HI as [Hi Hp Ha Hm Hs Hf]. constructor; simp_player; try assumption.
    - intros _. rewrite decodedAudio_entries, decodedImages_entries.
      split; reflexivity.
    - intros _. reflexivity. }
  destruct c; [exact Hq|apply playSegment_inv; exact Hq].
Qed.

Lemma cancelAnimationFrame_inv id env p :
  InvAt video env p -> InvAt video env (cancelAnimationFrame id p).
Proof. intros [HI Hc]. keep HI Hc. Qed.

Lemma withRendered_inv env p : InvAt video env p -> InvAt video env (withRendered (st p) p).
Proof.
  intros [HI Hc]. split; [|simp_player; exact Hc].
  destruct HI as [Hi Hp Ha Hm Hs Hf]. constructor; simp_player; auto.
Qed.

Lemma commit_inv env p : InvAt video env p -> InvAt video env (commit video env p).
Proof.
  intros HI. unfold commit. apply withRendered_inv in HI.
  destruct (_ && _); [exact HI|]. unfold playingEffect.
  case_ifs;
    repeat first [ exact HI | apply renderLoop_inv | apply cancelAnimationFrame_inv ].
Qed.

Lemma runFrames_inv env p : InvAt video env p -> InvAt video env (runFrames video env p).
Proof.
  intros [HI Hc]. unfold runFrames.
  assert (Hq : InvAt video env (withFrames (animationFrameRef p) [] (nextFrameId p) p))
    by keep HI Hc.
  revert Hq. generalize (withFrames (animationFrameRef p) [] (nextFrameId p) p).
  induction (frameRequests p) as [|req reqs IH]; intros q Hq; [exact Hq|].
  cbn [fold_left]. apply IH, renderLoop_inv, Hq.
Qed.

Lemma step_inv ev env p :
  Inv video p -> (clock p <= now env)%Q -> InvAt video env (step video ev env p).
Proof.
  intros HI Hle. unfold step.
  assert (Hq : InvAt video env (withClock (now env) p)).
  { split; [|reflexivity]. destruct HI as [Hi Hp Ha Hm Hs Hf].
    constructor; simp_player; try assumption. lra. }
  apply commit_inv.
  destruct ev; cbn [handle];
    [apply loadAssets_inv|apply onended_inv|apply togglePlay_inv|apply runFrames_inv];
    exact Hq.
Qed.

Lemma initial_inv : Inv video initialPlayer.
Proof.
  constructor.
  - cbn. lia.
  - intros j node Hj. cbn in Hj. rewrite lookup_nil in Hj. discriminate.
  - discriminate.
  - discriminate.
  - cbn. lra.
  - intros f Hf. cbn in Hf. apply elem_of_nil in Hf. destruct Hf.
Qed.

Lemma reachable_inv p : reachable video p -> Inv video p.
Proof.
  induction 1 as [|p ev env _ IH _ Hle]; [apply initial_inv|].
  apply step_inv; assumption.
Qed.

(** Animation frames at times that do not run backwards keep the player
    among the reachable states. *)
Lemma reachable_frames ticks p :
  reachable video p -> timely (clock p) ticks ->
  reachable video (run video (frames ticks) p).
Proof.
  revert p. induction ticks as [|env ticks IH]; intros p Hp Htimely; [exact Hp|].
  cbn [frames map run]. fold (frames ticks). destruct Htimely as [Hle Hrest].
  apply IH.
  - apply reachable_step; [exact Hp|exact I|exact Hle].
  - destruct (step_inv AnimationFrame env p (reachable_inv p Hp) Hle) as [_ ->].
    exact Hrest.
Qed.

End PlayerFacts.

Section PlayerTheorems.
Context `{B : Browser}.
Variable video : GeneratedVideo.t.

Lemma enabledb_sound ev p : enabledb ev p = true -> enabled ev p.
Proof.
  destruct ev as [c|j| |]; cbn [enabledb enabled]; auto.
  - destruct (audioContextRef p); [|reflexivity].
    rewrite bool_decide_eq_true_2 by eauto. discriminate.
  - destruct (sources p !! j) as [node|]; [|discriminate].
    intros E. exists node. split; [reflexivity|].
    destruct (sourceState node); [left|right|discriminate]; [|reflexivity].
    split; [reflexivity|]. unfold contextIs in E.
    destruct (audioContextRef p) as [[]|]; congruence.
  - intros E. apply andb_true_iff in E as [E1 E2].
    apply negb_true_iff in E2. split; assumption.
Qed.

Lemma allowedb_reachable evs p :
  reachable video p -> allowedb video evs p = true -> reachable video (run video evs p).
Proof.
  revert p. induction evs as [|[ev env] rest IH]; intros p Hp Hall; [exact Hp|].
  cbn [allowedb] in Hall. apply andb_true_iff in Hall as [Hall Hrest].
  apply andb_true_iff in Hall as [Hen Hle].
  cbn [run]. apply IH; [|exact Hrest].
  apply reachable_step; [exact Hp|apply enabledb_sound, Hen|apply Qle_bool_iff, Hle].
Qed.

(** What a pass of [renderLoop] leaves alone and what it adds. *)
Lemma renderLoop_extends r env p :
  st (renderLoop video r env p) = st p /\
  rendered (renderLoop video r env p) = rendered p /\
  (exists l, frameRequests (renderLoop video r env p) = frameRequests p ++ l) /\
  (exists l, painted (renderLoop video r env p) = painted p ++ l).
Proof.
  unfold renderLoop.
  case_ifs; simp_player; repeat split; eauto using app_nil_r.
  all: try (exists []; symmetry; apply app_nil_r).
Qed.

(** A loop of a playing render on an existing segment paints and asks for
    the next frame, whatever [isPlaying] has become since. *)
Lemma renderLoop_reschedules r env p :
  isPlaying r = true -> (currentSegmentIndex r < segmentCount video)%nat ->
  isLoaded (rendered p) = true ->
  (exists id, (id, r) ∈ frameRequests (renderLoop video r env p)) /\
  (length (painted p) < length (painted (renderLoop video r env p)))%nat.
Proof.
  intros Hplay Hidx Hloaded. unfold renderLoop.
  rewrite Hloaded, Hplay. cbn [negb andb].
  destruct (Nat.leb_spec (segmentCount video) (currentSegmentIndex r)); [lia|].
  simp_player. split.
  - eexists. apply elem_of_app. right. apply list_elem_of_singleton. reflexivity.
  - rewrite length_app. cbn. lia.
Qed.

Lemma fold_renderLoop r env (reqs : list (nat * Render)) p :
  isPlaying r = true -> (currentSegmentIndex r < segmentCount video)%nat ->
  isLoaded (rendered p) = true ->
  let q := fold_left (fun q (req : nat * Render) => renderLoop video (snd req) env q) reqs p in
  st q = st p /\ rendered q = rendered p /\
  (forall req, req ∈ frameRequests p -> req ∈ frameRequests q) /\
  (length (painted p) <= length (painted q))%nat /\
  ((exists id, (id, r) ∈ reqs) ->
   (exists id, (id, r) ∈ frameRequests q) /\ (length (painted p) < length (painted q))%nat).
Proof.
  intros Hplay Hidx. revert p. induction reqs as [|req reqs IH]; intros p Hloaded;
    cbv zeta; cbn [fold_left].
  - do 4 (split; [auto|]). intros [id Hin]. apply elem_of_nil in Hin. destruct Hin.
  - destruct (renderLoop_extends (snd req) env p) as (Est & Ern & [l El] & [l' El']).
    specialize (IH (renderLoop video (snd req) env p)).
    rewrite Ern in IH. specialize (IH Hloaded). cbv zeta in IH.
    destruct IH as (IHst & IHrn & IHreq & IHlen & IHloop).
    rewrite Est in IHst. rewrite El in IHreq. rewrite El', length_app in IHlen, IHloop.
    split; [exact IHst|]. split; [exact IHrn|]. split; [|split; [lia|]].
    + intros x Hx. apply IHreq, elem_of_app. left. exact Hx.
    + intros [id Hin]. apply elem_of_cons in Hin as [Hin|Hin].
      * subst req. cbn [snd] in *.
        destruct (renderLoop_reschedules r env p Hplay Hidx Hloaded) as [[id' Hid'] Hgrow].
        rewrite El in Hid'. rewrite El', length_app in Hgrow.
        split; [exists id'; apply IHreq, Hid'|lia].
      * destruct (IHloop (ex_intro _ id Hin)) as [Hex Hgrow]. split; [exact Hex|lia].
Qed.

(** Once such a loop is pending, every animation frame paints and leaves
    it pending. *)
Lemma pending_loop_survives r env p :
  isPlaying r = true -> (currentSegmentIndex r < segmentCount video)%nat ->
  loopPending r p ->
  loopPending r (step video AnimationFrame env p) /\
  st (step video AnimationFrame env p) = st p /\
  (length (painted p) < length (painted (step video AnimationFrame env p)))%nat.
Proof.
  intros Hplay Hidx (Hsync & Hloaded & Hreq).
  unfold step. cbn [handle]. unfold runFrames. simp_player.
  pose proof (fold_renderLoop r env (frameRequests p)
                (withFrames (animationFrameRef p) [] (nextFrameId p)
                            (withClock (now env) p)) Hplay Hidx Hloaded)
    as (Est & Ern & _ & _ & Hloop); cbv zeta in *.
  destruct (Hloop Hreq) as [Hex Hgrow]. clear Hloop.
  set (q := fold_left _ _ _) in *. simp_player.
  assert (Hcommit : commit video env q = withRendered (st q) q).
  { unfold commit. rewrite Ern, Est, Hsync, eqb_reflx, Nat.eqb_refl. reflexivity. }
  rewrite Hcommit. unfold loopPending. simp_player.
  rewrite Est, <- Hsync. repeat split; auto.
Qed.

Lemma pending_loop_forever r ticks p :
  isPlaying r = true -> (currentSegmentIndex r < segmentCount video)%nat ->
  loopPending r p ->
  loopPending r (run video (frames ticks) p) /\
  st (run video (frames ticks) p) = st p /\
  (length (painted p) + length ticks <= length (painted (run video (frames ticks) p)))%nat.
Proof.
  intros Hplay Hidx. revert p. induction ticks as [|env ticks IH]; intros p Hpend.
  - cbn [frames map run length]. split; [exact Hpend|]. split; [reflexivity|lia].
  - cbn [frames map run]. fold (frames ticks).
    destruct (pending_loop_survives r env p Hplay Hidx Hpend) as (Hpend' & Est & Hgrow).
    destruct (IH _ Hpend') as (Hp & Est' & Hlen).
    split; [exact Hp|]. split; [congruence|]. cbn [length]. lia.
Qed.

Lemma decodedAudio_positive : Forall positive (decodedAudio video).
Proof.
  rewrite decodedAudio_entries. apply Forall_fmap, Forall_forall.
  intros segment _. apply audioEntry_duration_pos.
Qed.

Lemma decoded_assets (assets : Assets) :
  decodeAssets video = Normal assets ->
  audioBuffers assets = decodedAudio video /\ images assets = decodedImages video.
Proof.
  unfold decodedAudio, decodedImages. intros ->. split; reflexivity.
Qed.

Lemma segmentDuration_pos (segmentIdx : nat) :
  (0 < segmentDuration (decodedAudio video) segmentIdx)%Q.
Proof.
  unfold segmentDuration.
  destruct (decodedAudio video !! segmentIdx) as [b|] eqn:E; [|reflexivity].
  pose proof decodedAudio_positive as Hall.
  rewrite Forall_lookup in Hall. specialize (Hall _ _ E). unfold positive in Hall. lra.
Qed.

(** C4.  In every reachable state at most one source is playing.  When
    [playSegment] is called with an index below the segment count and an
    audio context exists, the state after its [stop()] step has no playing
    source at all, and the state it returns has exactly one, the new
    source, which is the bound one: the previous source is stopped before
    the new one starts. *)
Theorem one_source_at_a_time (p : Player) (r : Render) (env : Env) (index : nat) :
  reachable video p ->
  (index < segmentCount video)%nat ->
  is_Some (audioContextRef p) ->
  (forall i j a b, sources p !! i = Some a -> sources p !! j = Some b ->
                   sourceState a = Playing -> sourceState b = Playing -> i = j) /\
  nonePlaying (stopCurrent p) /\
  exists earlier,
    sources (playSegment video r env index p)
      = earlier ++ [{| sourceIndex := index; sourceState := Playing; sourceRender := r |}] /\
    Forall (fun node => sourceState node <> Playing) earlier /\
    currentSourceRef (playSegment video r env index p) = Some (length earlier).
Proof.
  intros Hreach Hlt [c Hctx].
  pose proof (inv_playing video _ (reachable_inv video p Hreach)) as Hone.
  pose proof (stopCurrent_nonePlaying p Hone) as Hnone.
  split; [|split; [exact Hnone|]].
  - intros i j a b Hi Hj Ha Hb.
    pose proof (Hone _ _ Hi Ha) as Ei. pose proof (Hone _ _ Hj Hb) as Ej. congruence.
  - exists (sources (stopCurrent p)).
    assert (Hplay : sources (playSegment video r env index p)
                    = sources (startSource r index (stopCurrent p)) /\
                    currentSourceRef (playSegment video r env index p)
                    = currentSourceRef (startSource r index (stopCurrent p))).
    { unfold playSegment. destruct (Nat.leb_spec (segmentCount video) index); [lia|].
      rewrite Hctx.
      match goal with |- context [if ?b then _ else _] => destruct b end;
        [unfold renderLoop; case_ifs|]; simp_player; split; reflexivity. }
    destruct Hplay as [-> ->]. simp_player. split; [reflexivity|]. split; [|reflexivity].
    apply Forall_lookup. intros j node Hj. exact (Hnone _ _ Hj).
Qed.

(** C1 (as the code has it).  For a project of at least one segment
    [currentSegmentIndex] is below the segment count in every reachable
    state, and it stays there when [playSegment] is called past the last
    segment: that call only sets [isPlaying] to false.  The index never
    equals the segment count, finished or not. *)
Theorem index_stays_below_count (p : Player) (r : Render) (env : Env) (index : nat) :
  reachable video p ->
  (1 <= segmentCount video)%nat ->
  (segmentCount video <= index)%nat ->
  (currentSegmentIndex (st p) < segmentCount video)%nat /\
  isPlaying (st (playSegment video r env index p)) = false /\
  (currentSegmentIndex (st (playSegment video r env index p)) < segmentCount video)%nat.
Proof.
  intros Hreach Hpos Hge.
  pose proof (inv_index video _ (reachable_inv video p Hreach)) as Hidx.
  unfold playSegment. destruct (Nat.leb_spec (segmentCount video) index); [|lia].
  simp_player. repeat split; try reflexivity; lia.
Qed.

(** What [playSegment] does past the last segment: it clears
    [isPlaying], starts no source and requests no frame. *)
Lemma playSegment_past_end (p : Player) (r : Render) (env : Env) (index : nat) :
  (segmentCount video <= index)%nat ->
  isPlaying (st (playSegment video r env index p)) = false /\
  sources (playSegment video r env index p) = sources p /\
  currentSourceRef (playSegment video r env index p) = currentSourceRef p /\
  frameRequests (playSegment video r env index p) = frameRequests p.
Proof.
  intros Hge. unfold playSegment.
  destruct (Nat.leb_spec (segmentCount video) index); [|lia].
  simp_player. repeat split; reflexivity.
Qed.

End PlayerTheorems.

(** Closed instances of the decoder theorems, on the demo browser. *)

Lemma odd_payload_is_refused_witness :
  @atob Demo.browser (VideoSegment.audioData Demo.oddSegment)
    = Some (String "000" (String "064" (String "127" ""))) /\
  (String.length (String "000" (String "064" (String "127" ""))) mod 2 = 1)%nat /\
  @decodeAudio Demo.browser (VideoSegment.audioData Demo.oddSegment) = Throw RangeError /\
  @decodeAudioStep Demo.browser Demo.oddSegment [] = Normal ([] ++ [silentBuffer]).
Proof.
  split; [reflexivity|]. split; [reflexivity|].
  apply (@odd_payload_is_refused Demo.browser Demo.oddSegment
           (String "000" (String "064" (String "127" ""))) []); reflexivity.
Defined.

Lemma audio_failure_is_silence_witness :
  GeneratedVideo.segments (Demo.project [Demo.oddSegment]) !! 0%nat = Some Demo.oddSegment /\
  @decodeAudio Demo.browser (VideoSegment.audioData Demo.oddSegment) = Throw RangeError /\
  exists assets silent,
    @decodeAssets Demo.browser (Demo.project [Demo.oddSegment]) = Normal assets /\
    audioBuffers assets !! 0%nat = Some silent /\
    AudioBuffer.length silent = 24000%nat.
Proof.
  split; [reflexivity|]. split; [reflexivity|].
  destruct (@audio_failure_is_silence Demo.browser (Demo.project [Demo.oddSegment])
              0%nat Demo.oddSegment RangeError eq_refl eq_refl)
    as (assets & silent & _ & Hdec & _ & Hi & _ & Hlen & _).
  exists assets, silent. auto.
Defined.

Lemma assets_are_index_aligned_witness :
  exists assets,
    @decodeAssets Demo.browser Demo.twoSegments = Normal assets /\
    length (audioBuffers assets) = 2%nat /\ length (images assets) = 2%nat /\
    images assets !! 1%nat = Some {| width := 1; height := 1 |}.
Proof.
  destruct (@assets_are_index_aligned Demo.browser Demo.twoSegments)
    as (assets & Hdec & Ha & Hi & Hentries).
  exists assets. repeat split; try assumption.
  apply (Hentries 1%nat (Demo.segment "bye" "AEAAwA==" "") eq_refl). reflexivity.
Defined.

Lemma single_wide_word_is_one_line_witness :
  GeneratedVideo.segments Demo.wideWord !! 0%nat
    = Some (Demo.segment "pneumonoultramicroscopicsilicovolcanoconiosis" "AEAAwA==" "/9j/") /\
  ~ In " "%char (list_ascii_of_string "pneumonoultramicroscopicsilicovolcanoconiosis") /\
  (40 * 0.85 < @measureText Demo.browser (fontSize LANDSCAPE 40) "pneumonoultramicroscopicsilicovolcanoconiosis")%Q /\
  frameLines (renderFrame (B := Demo.browser) Demo.wideWord [] [] 0 0 40)
    = ["pneumonoultramicroscopicsilicovolcanoconiosis "%string].
Proof.
  assert (Hword : ~ In " "%char (list_ascii_of_string "pneumonoultramicroscopicsilicovolcanoconiosis")).
  { cbn. intros Hin. repeat (destruct Hin as [Hin|Hin]; [discriminate Hin|]). exact Hin. }
  assert (Hwide : (40 * 0.85 < @measureText Demo.browser (fontSize LANDSCAPE 40)
                                 "pneumonoultramicroscopicsilicovolcanoconiosis")%Q)
    by (vm_compute; reflexivity).
  split; [reflexivity|]. split; [exact Hword|]. split; [exact Hwide|].
  apply (single_wide_word_is_one_line (B := Demo.browser) Demo.wideWord [] [] 0%nat
           (Demo.segment "pneumonoultramicroscopicsilicovolcanoconiosis" "AEAAwA==" "/9j/") 0 40
           eq_refl Hword Hwide).
Defined.

Lemma demo_loaded_reachable : reachable (B := Demo.browser) Demo.oneSegment Demo.loadedOne.
Proof.
  apply (allowedb_reachable (B := Demo.browser)); [apply reachable_init|].
  vm_compute. reflexivity.
Qed.

Lemma demo_loaded_painted : painted Demo.loadedOne = [Demo.firstFrame].
Proof. vm_compute. reflexivity. Qed.

Lemma demo_finishedOne_reachable :
  reachable (B := Demo.browser) Demo.oneSegment Demo.finishedOne.
Proof.
  apply (allowedb_reachable (B := Demo.browser)); [apply reachable_init|].
  vm_compute. reflexivity.
Qed.

Lemma demo_finishedTwo_reachable :
  reachable (B := Demo.browser) Demo.twoSegments Demo.finishedTwo.
Proof.
  apply (allowedb_reachable (B := Demo.browser)); [apply reachable_init|].
  vm_compute. reflexivity.
Qed.

Lemma demo_overdue_reachable :
  reachable (B := Demo.browser) Demo.twoSegments Demo.overdueTwo.
Proof.
  apply (allowedb_reachable (B := Demo.browser)); [apply reachable_init|].
  vm_compute. reflexivity.
Qed.

(** The run behind C1: the only narration of a one-segment project ends.
    Playback has halted past the last segment with the index still 0, and
    a click on the play overlay then starts no source: [togglePlay] tests
    the index against the segment count to tell a finished player, which
    never holds. *)
Lemma finished_player_keeps_last_index :
  reachable (B := Demo.browser) Demo.oneSegment Demo.finishedOne /\
  segmentCount Demo.oneSegment = 1%nat /\
  isPlaying (st Demo.finishedOne) = false /\
  currentSegmentIndex (st Demo.finishedOne) = 0%nat /\
  Forall (fun node => sourceState node = Ended) (sources Demo.finishedOne) /\
  sources (step (B := Demo.browser) Demo.oneSegment Click (Demo.at_ 2) Demo.finishedOne)
    = sources Demo.finishedOne /\
  isPlaying (st (step (B := Demo.browser) Demo.oneSegment Click (Demo.at_ 2) Demo.finishedOne))
    = true.
Proof.
  split; [exact demo_finishedOne_reachable|].
  split; [reflexivity|]. split; [reflexivity|]. split; [reflexivity|].
  split; [|split; vm_compute; reflexivity].
  vm_compute. repeat constructor.
Qed.

Lemma index_stays_below_count_witness :
  reachable (B := Demo.browser) Demo.oneSegment Demo.loadedOne /\
  (1 <= segmentCount Demo.oneSegment)%nat /\
  (segmentCount Demo.oneSegment <= 1)%nat /\
  isPlaying (st (playSegment (B := Demo.browser) Demo.oneSegment initialRender
                             (Demo.at_ 1) 1 Demo.loadedOne)) = false /\
  (currentSegmentIndex
     (st (playSegment (B := Demo.browser) Demo.oneSegment initialRender
                      (Demo.at_ 1) 1 Demo.loadedOne)) < 1)%nat.
Proof.
  assert (Hpos : (1 <= segmentCount Demo.oneSegment)%nat) by (cbn; lia).
  assert (Hge : (segmentCount Demo.oneSegment <= 1)%nat) by (cbn; lia).
  split; [exact demo_loaded_reachable|]. split; [exact Hpos|]. split; [exact Hge|].
  apply (index_stays_below_count (B := Demo.browser) Demo.oneSegment Demo.loadedOne
           initialRender (Demo.at_ 1) 1%nat demo_loaded_reachable Hpos Hge).
Defined.

(** C3 (as the code has it).  A two-segment project is loaded on a running
    context and both narrations end, the second [ended] event calling
    [playSegment(2)].  The state is reachable, [isPlaying] is false and
    every source has ended; yet the render loop that the effect started
    for segment 0 is still requested: it was created by a render in which
    [isPlaying] was true, re-registers itself on every frame, and the
    effect cancels only the most recent request.  So every later animation
    frame, at whatever later times frames come, is a step of a reachable
    player that paints and leaves a request pending. *)
Theorem render_loop_outlives_playback :
  reachable (B := Demo.browser) Demo.twoSegments Demo.finishedTwo /\
  segmentCount Demo.twoSegments = 2%nat /\
  isPlaying (st Demo.finishedTwo) = false /\
  Forall (fun node => sourceState node = Ended) (sources Demo.finishedTwo) /\
  forall ticks : list Env,
    (timely 2 ticks ->
     reachable (B := Demo.browser) Demo.twoSegments
               (run (B := Demo.browser) Demo.twoSegments (frames ticks) Demo.finishedTwo)) /\
    isPlaying (st (run (B := Demo.browser) Demo.twoSegments (frames ticks) Demo.finishedTwo))
      = false /\
    frameRequests (run (B := Demo.browser) Demo.twoSegments (frames ticks) Demo.finishedTwo)
      <> [] /\
    (length (painted Demo.finishedTwo) + length ticks
     <= length (painted (run (B := Demo.browser) Demo.twoSegments (frames ticks)
                             Demo.finishedTwo)))%nat.
Proof.
  split; [exact demo_finishedTwo_reachable|]. split; [reflexivity|].
  split; [reflexivity|]. split; [vm_compute; repeat constructor|].
  intros ticks.
  assert (Hpend : loopPending Demo.firstPlaying Demo.finishedTwo).
  { split; [vm_compute; reflexivity|]. split; [reflexivity|].
    exists 1%nat. apply list_elem_of_lookup. exists 0%nat. vm_compute. reflexivity. }
  destruct (pending_loop_forever (B := Demo.browser) Demo.twoSegments Demo.firstPlaying
              ticks Demo.finishedTwo eq_refl) as ((_ & _ & [id Hid]) & Est & Hlen);
    [cbn; lia|exact Hpend|].
  split.
  { intros Htimely.
    apply (reachable_frames (B := Demo.browser)); [exact demo_finishedTwo_reachable|].
    replace (clock Demo.finishedTwo) with 2%Q by (vm_compute; reflexivity).
    exact Htimely. }
  split; [rewrite Est; reflexivity|]. split; [|exact Hlen].
  intros Hnil. rewrite Hnil in Hid. apply elem_of_nil in Hid. exact Hid.
Qed.

Lemma one_source_at_a_time_witness :
  reachable (B := Demo.browser) Demo.oneSegment Demo.loadedOne /\
  (0 < segmentCount Demo.oneSegment)%nat /\
  is_Some (audioContextRef Demo.loadedOne) /\
  nonePlaying (stopCurrent Demo.loadedOne) /\
  exists earlier,
    sources (playSegment (B := Demo.browser) Demo.oneSegment initialRender
                         (Demo.at_ 1) 0 Demo.loadedOne)
      = earlier ++ [{| sourceIndex := 0; sourceState := Playing;
                       sourceRender := initialRender |}] /\
    Forall (fun node => sourceState node <> Playing) earlier.
Proof.
  assert (Hlt : (0 < segmentCount Demo.oneSegment)%nat) by (cbn; lia).
  assert (Hctx : is_Some (audioContextRef Demo.loadedOne)) by (eexists; reflexivity).
  split; [exact demo_loaded_reachable|]. split; [exact Hlt|]. split; [exact Hctx|].
  destruct (one_source_at_a_time (B := Demo.browser) Demo.oneSegment Demo.loadedOne
              initialRender (Demo.at_ 1) 0%nat demo_loaded_reachable Hlt Hctx)
    as (_ & Hnone & earlier & Hsrc & Hall & _).
  split; [exact Hnone|]. exists earlier. split; assumption.
Defined.


(* ================================================================== *)
(** ** More of the decoder *)

Section DecoderMore.
Context `{B : Browser}.

(** Induction over a byte sequence two bytes at a time. *)
Lemma pairs_ind (P : list byte -> Prop) :
  P [] -> (forall a, P [a]) -> (forall lo hi rest, P rest -> P (lo :: hi :: rest)) ->
  forall bs, P bs.
Proof.
  intros Hnil Hone Hstep bs.
  assert (Hboth : P bs /\ forall a, P (a :: bs)).
  { induction bs as [|b bs [IH1 IH2]]; [split; auto|].
    split; [apply IH2|]. intros a. apply Hstep, IH1. }
  apply Hboth.
Qed.

Lemma byteVal_range (b : byte) : (0 <= byteVal b <= 255)%Z.
Proof. unfold byteVal. pose proof (Byte.to_N_bounded b). lia. Qed.

Lemma toInt16_range (lo hi : byte) :
  (-32768 <= toInt16 (byteVal lo + 256 * byteVal hi) <= 32767)%Z.
Proof.
  pose proof (byteVal_range lo). pose proof (byteVal_range hi). unfold toInt16.
  destruct (Z.ltb_spec (byteVal lo + 256 * byteVal hi) 32768); lia.
Qed.

Lemma int16s_range (bs : list byte) :
  Forall (fun v => (-32768 <= v <= 32767)%Z) (int16s bs).
Proof.
  induction bs as [|a|lo hi rest IH] using pairs_ind; cbn [int16s]; try constructor.
  - apply toInt16_range.
  - exact IH.
Qed.

(** Element [i] of the 16-bit view is made of bytes [2i] and [2i+1]. *)
Lemma int16s_lookup (bs : list byte) (i : nat) (lo hi : byte) :
  bs !! (2 * i)%nat = Some lo -> bs !! (2 * i + 1)%nat = Some hi ->
  int16s bs !! i = Some (toInt16 (byteVal lo + 256 * byteVal hi)).
Proof.
  revert i. induction bs as [|a|l h rest IH] using pairs_ind; intros i Hlo Hhi.
  - rewrite lookup_nil in Hlo. discriminate.
  - destruct i; [cbn in Hhi; discriminate|].
    replace (2 * S i)%nat with (S (S (2 * i))) in Hlo by lia.
    cbn in Hlo. discriminate.
  - destruct i as [|i].
    + cbn in Hlo, Hhi. injection Hlo as <-. injection Hhi as <-. reflexivity.
    + replace (2 * S i)%nat with (S (S (2 * i))) in Hlo by lia.
      replace (2 * S i + 1)%nat with (S (S (2 * i + 1))) in Hhi by lia.
      cbn [int16s]. cbn in Hlo, Hhi |- *. apply IH; assumption.
Qed.

Lemma rate_accepted (rate : Q) :
  (8000 <= rate)%Q -> (rate <= 96000)%Q ->
  negb (Qle_bool 8000 rate && Qle_bool rate 96000) = false.
Proof.
  intros H1 H2. apply Qle_bool_iff in H1, H2. rewrite H1, H2. reflexivity.
Qed.

(** What [decodePCM] returns on an even-length fresh array with at least
    one frame: the buffer of the deinterleaving loops. *)
Lemma decodePCM_frames (bytes : list byte) (rate : Q) (numChannels : nat) :
  (length bytes mod 2 = 0)%nat ->
  (1 <= numChannels)%nat -> (numChannels <= length bytes / 2)%nat ->
  (8000 <= rate)%Q -> (rate <= 96000)%Q ->
  decodePCM (newUint8Array bytes) rate numChannels =
    Normal {| AudioBuffer.numberOfChannels := numChannels;
              AudioBuffer.length := (length bytes / 2 / numChannels)%nat;
              AudioBuffer.sampleRate := rate;
              AudioBuffer.channelData :=
                map (fun channel =>
                       map (pcmSample (int16s bytes) numChannels channel)
                           (seq 0 (length bytes / 2 / numChannels)))
                    (seq 0 numChannels) |}.
Proof.
  intros Heven Hc Hn Hlo Hhi. unfold decodePCM, newUint8Array. cbn [byteLength buffer].
  rewrite Heven. cbn [Nat.eqb negb buffer]. unfold newInt16Array. rewrite Heven.
  cbn [Nat.eqb bind]. rewrite int16s_length. unfold createBuffer.
  assert (Hfc : (0 < length bytes / 2 / numChannels)%nat)
    by (apply Nat.div_str_pos; lia).
  destruct (Nat.eqb_spec numChannels 0) as [E|_]; [lia|].
  destruct (Nat.eqb_spec (length bytes / 2 / numChannels) 0) as [E|_]; [lia|].
  rewrite rate_accepted by assumption. reflexivity.
Qed.

(** X4.  [decodePCM] on a fresh array with an even number of bytes, for
    any number of channels that leaves at least one frame and a sample
    rate the platform takes: the buffer has that many channels of
    [bytes / 2 / numChannels] frames each, and sample [i] of channel [c]
    is the 16-bit value at position [i * numChannels + c] over 32768:
    the interleaved input is taken apart channel by channel. *)
Theorem decodePCM_deinterleaves (bytes : list byte) (rate : Q) (numChannels : nat) :
  (length bytes mod 2 = 0)%nat ->
  (1 <= numChannels <= 32)%nat -> (numChannels <= length bytes / 2)%nat ->
  (8000 <= rate)%Q -> (rate <= 96000)%Q ->
  exists b,
    decodePCM (newUint8Array bytes) rate numChannels = Normal b /\
    AudioBuffer.numberOfChannels b = numChannels /\
    AudioBuffer.length b = (length bytes / 2 / numChannels)%nat /\
    AudioBuffer.sampleRate b = rate /\
    wellFormed b /\
    forall channel i,
      (channel < numChannels)%nat -> (i < length bytes / 2 / numChannels)%nat ->
      exists v samples,
        int16s bytes !! (i * numChannels + channel)%nat = Some v /\
        AudioBuffer.channelData b !! channel = Some samples /\
        samples !! i = Some (inject_Z v / 32768)%Q.
Proof.
  intros Heven [Hc _] Hn Hlo Hhi. eexists. split; [apply decodePCM_frames; assumption|].
  cbn [AudioBuffer.numberOfChannels AudioBuffer.length AudioBuffer.sampleRate
       AudioBuffer.channelData].
  do 3 (split; [reflexivity|]). split.
  - split; cbn [AudioBuffer.numberOfChannels AudioBuffer.length AudioBuffer.channelData].
    + rewrite length_map, length_seq. reflexivity.
    + apply Forall_forall. intros samples Hin. apply list_elem_of_fmap in Hin as (ch & -> & _).
      rewrite length_map, length_seq. reflexivity.
  - intros channel i Hch Hi.
    assert (Hidx : (i * numChannels + channel < length (int16s bytes))%nat).
    { rewrite int16s_length.
      pose proof (Nat.Div0.mul_div_le (length bytes / 2) numChannels). nia. }
    destruct (lookup_lt_is_Some_2 _ _ Hidx) as [v Hv].
    exists v. eexists. split; [exact Hv|]. split.
    + rewrite list_lookup_fmap, lookup_seq_lt by exact Hch. reflexivity.
    + rewrite list_lookup_fmap, lookup_seq_lt by exact Hi. cbn.
      unfold pcmSample. do 3 f_equal. apply nth_lookup_Some with (d := 0%Z) in Hv.
      exact Hv.
Qed.

(** Too few samples for one frame: [createBuffer] is asked for a buffer of
    length 0 and refuses. *)
Lemma decodePCM_no_frame (bytes : list byte) (rate : Q) (numChannels : nat) :
  (length bytes mod 2 = 0)%nat -> (length bytes / 2 < numChannels)%nat ->
  decodePCM (newUint8Array bytes) rate numChannels = Throw NotSupportedError.
Proof.
  intros Heven Hfew. unfold decodePCM, newUint8Array. cbn [byteLength buffer].
  rewrite Heven. cbn [Nat.eqb negb buffer]. unfold newInt16Array. rewrite Heven.
  cbn [Nat.eqb bind]. rewrite int16s_length, (Nat.div_small _ _ Hfew).
  unfold createBuffer. cbn [Nat.eqb]. rewrite orb_true_r. reflexivity.
Qed.

Lemma mod2_cases (n : nat) : (n mod 2 = 0 \/ n mod 2 = 1)%nat.
Proof. pose proof (Nat.mod_upper_bound n 2). lia. Qed.

(** X1.  The four outcomes of decoding one segment's audio payload
    ([decodeBase64], then [decodePCM] at 24 kHz, one channel): text that
    [atob] refuses throws an InvalidCharacterError; a payload with an odd
    number of bytes throws a RangeError; the empty payload throws a
    NotSupportedError, [createBuffer] being asked for no frame; a payload
    with an even, positive number of bytes gives a buffer of one channel
    at 24000 Hz with one frame, and one sample, for every two bytes. *)
Theorem decodeAudio_outcome (audioData : string) :
  (atob audioData = None -> decodeAudio audioData = Throw InvalidCharacterError) /\
  (forall binaryString,
     atob audioData = Some binaryString ->
     (String.length binaryString mod 2 = 1)%nat ->
     decodeAudio audioData = Throw RangeError) /\
  (atob audioData = Some EmptyString -> decodeAudio audioData = Throw NotSupportedError) /\
  (forall binaryString,
     atob audioData = Some binaryString ->
     (String.length binaryString mod 2 = 0)%nat -> (0 < String.length binaryString)%nat ->
     exists b samples,
       decodeAudio audioData = Normal b /\
       AudioBuffer.numberOfChannels b = 1%nat /\
       AudioBuffer.sampleRate b = 24000%Q /\
       AudioBuffer.length b = (String.length binaryString / 2)%nat /\
       AudioBuffer.channelData b = [samples] /\
       length samples = (String.length binaryString / 2)%nat).
Proof.
  unfold decodeAudio, decodeBase64. repeat split.
  - intros ->. reflexivity.
  - intros s -> Hodd. cbn [bind]. apply decodePCM_odd. rewrite bytes_length. exact Hodd.
  - intros ->. cbn [bind]. apply decodePCM_no_frame; cbn; lia.
  - intros s -> Heven Hpos. cbn [bind].
    assert (Hn : (1 <= String.length s / 2)%nat).
    { destruct (String.length s) as [|[|n]] eqn:E; try lia; [discriminate|].
      change (S (S n)) with (2 + n)%nat. replace (2 + n)%nat with (n + 1 * 2)%nat by lia.
      rewrite Nat.div_add by lia. lia. }
    rewrite decodePCM_frames; rewrite ?bytes_length; try assumption; try lia;
      try (unfold Qle; cbn; lia).
    eexists. eexists. split; [reflexivity|].
    cbn [AudioBuffer.numberOfChannels AudioBuffer.length AudioBuffer.sampleRate
         AudioBuffer.channelData seq map].
    rewrite Nat.div_1_r. repeat split. rewrite length_map, length_seq. reflexivity.
Qed.

(** A successful decode read backwards. *)
Lemma decodeAudio_Normal (audioData : string) (b : AudioBuffer.t) :
  decodeAudio audioData = Normal b ->
  exists binaryString,
    atob audioData = Some binaryString /\
    let bytes := map byte_of_ascii (list_ascii_of_string binaryString) in
    (length bytes mod 2 = 0)%nat /\ (1 <= length bytes / 2)%nat /\
    b = {| AudioBuffer.numberOfChannels := 1;
           AudioBuffer.length := (length bytes / 2)%nat;
           AudioBuffer.sampleRate := 24000;
           AudioBuffer.channelData :=
             [map (fun i => pcmSample (int16s bytes) 1 0 i) (seq 0 (length bytes / 2))] |}.
Proof.
  unfold decodeAudio, decodeBase64.
  destruct (atob audioData) as [s|]; [|discriminate]. cbn [bind]. intros Hdec.
  exists s. split; [reflexivity|]. cbv zeta.
  set (bytes := map byte_of_ascii (list_ascii_of_string s)) in *.
  destruct (mod2_cases (length bytes)) as [Heven|Hodd];
    [|rewrite (decodePCM_odd bytes _ _ Hodd) in Hdec; discriminate].
  destruct (Nat.lt_ge_cases (length bytes / 2) 1) as [Hfew|Hn];
    [rewrite (decodePCM_no_frame bytes _ _ Heven Hfew) in Hdec; discriminate|].
  rewrite decodePCM_frames in Hdec; try assumption; try lia; try (unfold Qle; cbn; lia).
  rewrite Nat.div_1_r in Hdec. injection Hdec as <-. repeat split; assumption.
Qed.

(** X2.  Sample [i] of a decoded payload is made of its bytes [2i] and
    [2i+1]: the 16-bit number with the low byte first, read as signed
    (so congruent to [lo + 256 hi] modulo 65536 and between -32768 and
    32767), divided by 32768. *)
Theorem sample_of_byte_pair (audioData binaryString : string) (i : nat) (lo hi : byte) :
  atob audioData = Some binaryString ->
  (String.length binaryString mod 2 = 0)%nat ->
  map byte_of_ascii (list_ascii_of_string binaryString) !! (2 * i)%nat = Some lo ->
  map byte_of_ascii (list_ascii_of_string binaryString) !! (2 * i + 1)%nat = Some hi ->
  exists b samples v,
    decodeAudio audioData = Normal b /\
    AudioBuffer.channelData b = [samples] /\
    samples !! i = Some (inject_Z v / 32768)%Q /\
    (-32768 <= v <= 32767)%Z /\
    ((v - (byteVal lo + 256 * byteVal hi)) mod 65536 = 0)%Z.
Proof.
  intros Hatob Heven Hlo Hhi.
  set (bytes := map byte_of_ascii (list_ascii_of_string binaryString)) in *.
  assert (Hlen : (2 * i + 1 < length bytes)%nat) by (eapply lookup_lt_Some; eauto).
  assert (Hbytes : length bytes = String.length binaryString) by apply bytes_length.
  assert (Hn : (i < length bytes / 2)%nat).
  { pose proof (Nat.div_mod_eq (length bytes) 2) as Hdm.
    rewrite <- Hbytes in Heven. rewrite Heven in Hdm. lia. }
  pose proof (int16s_lookup bytes i lo hi Hlo Hhi) as Hv.
  eexists. eexists. exists (toInt16 (byteVal lo + 256 * byteVal hi)).
  split.
  { unfold decodeAudio, decodeBase64. rewrite Hatob. cbn [bind]. fold bytes.
    rewrite decodePCM_frames; try (rewrite Hbytes; exact Heven); try lia;
      try (unfold Qle; cbn; lia); reflexivity. }
  cbn [AudioBuffer.channelData seq map]. split; [reflexivity|]. split.
  { rewrite Nat.div_1_r, list_lookup_fmap, lookup_seq_lt by exact Hn. cbn.
    unfold pcmSample. do 3 f_equal. rewrite Nat.mul_1_r, Nat.add_0_r.
    apply nth_lookup_Some with (d := 0%Z) in Hv. exact Hv. }
  split; [apply toInt16_range|].
  unfold toInt16. destruct (Z.ltb_spec (byteVal lo + 256 * byteVal hi) 32768).
  - rewrite Z.sub_diag. reflexivity.
  - replace (byteVal lo + 256 * byteVal hi - 65536 - (byteVal lo + 256 * byteVal hi))%Z
      with ((-1) * 65536)%Z by lia.
    apply Z.mod_mul. lia.
Qed.

Lemma pcmSample_range (dataInt16 : list Z) (numChannels channel i : nat) :
  Forall (fun v => (-32768 <= v <= 32767)%Z) dataInt16 ->
  exists v, pcmSample dataInt16 numChannels channel i = (inject_Z v / 32768)%Q /\
            (-32768 <= v <= 32767)%Z.
Proof.
  intros Hall. unfold pcmSample. eexists. split; [reflexivity|].
  destruct (nth_in_or_default (i * numChannels + channel) dataInt16 0%Z) as [Hin|Heq];
    [|rewrite Heq; lia].
  rewrite List.Forall_forall in Hall. apply Hall, Hin.
Qed.

(** X3.  Every sample of every buffer the decode phase stores, decoded or
    silent, is a 16-bit integer over 32768: at least -1 and strictly
    below 1. *)
Theorem stored_samples_are_normalized (video : GeneratedVideo.t) (b : AudioBuffer.t)
    (channel : list Q) (x : Q) :
  b ∈ decodedAudio video -> channel ∈ AudioBuffer.channelData b -> x ∈ channel ->
  (exists v, (x == inject_Z v / 32768)%Q /\ (-32768 <= v <= 32767)%Z) /\
  (-1 <= x)%Q /\ (x < 1)%Q.
Proof.
  intros Hb Hch Hx. rewrite decodedAudio_entries in Hb.
  apply list_elem_of_fmap in Hb as (segment & -> & _).
  assert (Hv : exists v, (x == inject_Z v / 32768)%Q /\ (-32768 <= v <= 32767)%Z).
  { unfold audioEntry in Hch.
    destruct (decodeAudio (VideoSegment.audioData segment)) as [b|e] eqn:E.
    - apply decodeAudio_Normal in E as (s & _ & _ & _ & ->).
      cbn [AudioBuffer.channelData] in Hch. apply list_elem_of_singleton in Hch. subst channel.
      apply list_elem_of_fmap in Hx as (i & -> & _).
      destruct (pcmSample_range (int16s (map byte_of_ascii (list_ascii_of_string s))) 1 0 i
                  (int16s_range _)) as (v & -> & Hr).
      exists v. split; [reflexivity|exact Hr].
    - rewrite (silentBuffer_zero channel x Hch Hx). exists 0%Z. split; [reflexivity|lia]. }
  split; [exact Hv|]. destruct Hv as (v & -> & Hlo & Hhi).
  split.
  - apply Qle_shift_div_l; [reflexivity|]. unfold Qle. cbn. lia.
  - apply Qlt_shift_div_r; [reflexivity|]. unfold Qlt. cbn. lia.
Qed.

(** X5.  Every buffer the decode phase stores, decoded or silent, has one
    channel at 24000 Hz, at least one frame, exactly one sample per
    frame, and lasts its number of frames over 24000 seconds. *)
Theorem stored_buffers_are_mono (video : GeneratedVideo.t) (b : AudioBuffer.t) :
  b ∈ decodedAudio video ->
  AudioBuffer.numberOfChannels b = 1%nat /\ AudioBuffer.sampleRate b = 24000%Q /\
  (1 <= AudioBuffer.length b)%nat /\ wellFormed b /\
  (AudioBuffer.duration b == inject_Z (Z.of_nat (AudioBuffer.length b)) / 24000)%Q.
Proof.
  intros Hb. rewrite decodedAudio_entries in Hb.
  apply list_elem_of_fmap in Hb as (segment & -> & _). unfold audioEntry.
  destruct (decodeAudio (VideoSegment.audioData segment)) as [b|e] eqn:E.
  - apply decodeAudio_Normal in E as (s & _ & _ & Hn & ->). unfold wellFormed, AudioBuffer.duration.
    cbn [AudioBuffer.numberOfChannels AudioBuffer.length AudioBuffer.sampleRate
         AudioBuffer.channelData].
    split; [reflexivity|]. split; [reflexivity|]. split; [exact Hn|]. split; [|reflexivity].
    split; [reflexivity|].
    constructor; [rewrite length_map, length_seq; reflexivity|constructor].
  - unfold wellFormed, AudioBuffer.duration.
    cbn [silentBuffer AudioBuffer.numberOfChannels AudioBuffer.length AudioBuffer.sampleRate
         AudioBuffer.channelData].
    split; [reflexivity|]. split; [reflexivity|].
    split; [apply Nat.leb_le; vm_compute; reflexivity|]. split; [|reflexivity].
    split; [reflexivity|]. constructor; [apply length_replicate|constructor].
Qed.
End DecoderMore.

(* ================================================================== *)
(** ** Caption lines *)

Section WrapFacts.
Context `{B : Browser}.

Lemma lineOf_snoc (group : list string) (word : string) :
  lineOf (group ++ [word]) = (lineOf group ++ word ++ " ")%string.
Proof.
  unfold lineOf. rewrite map_app, joinLines_app. cbn [map joinLines fold_right].
  rewrite append_empty_r. reflexivity.
Qed.

Lemma breaksLate_snoc_word size maxWidth done cur word :
  cur <> [] ->
  breaksLate size maxWidth (done ++ [cur]) ->
  breaksLate size maxWidth (done ++ [cur ++ [word]]).
Proof.
  intros Hcur Hlate i group w rest Hi Hsi.
  destruct (decide (S i < length done)%nat) as [Hlt|Hge].
  - rewrite lookup_app_l in Hi by lia. rewrite lookup_app_l in Hsi by lia.
    apply (Hlate i group w rest); rewrite lookup_app_l by lia; assumption.
  - destruct (decide (S i = length done)) as [Heq|Hne].
    + rewrite lookup_app_l in Hi by lia.
      rewrite lookup_app_r, Heq, Nat.sub_diag in Hsi by lia. cbn in Hsi.
      destruct cur as [|c cur']; [congruence|]. cbn in Hsi. injection Hsi as <- <-.
      apply (Hlate i group c cur'); [rewrite lookup_app_l by lia; exact Hi|].
      rewrite lookup_app_r, Heq, Nat.sub_diag by lia. reflexivity.
    + apply lookup_lt_Some in Hsi. rewrite length_app in Hsi. cbn in Hsi. lia.
Qed.

Lemma breaksLate_snoc_group size maxWidth done cur word :
  (maxWidth < measureText size (lineOf (cur ++ [word])))%Q ->
  breaksLate size maxWidth (done ++ [cur]) ->
  breaksLate size maxWidth ((done ++ [cur]) ++ [[word]]).
Proof.
  intros Hwide Hlate i group w rest Hi Hsi.
  destruct (decide (S i < length (done ++ [cur]))%nat) as [Hlt|Hge].
  - rewrite lookup_app_l in Hi by lia. rewrite lookup_app_l in Hsi by lia.
    apply (Hlate i group w rest); assumption.
  - destruct (decide (S i = length (done ++ [cur]))) as [Heq|Hne].
    + rewrite lookup_app_l in Hi by lia.
      rewrite lookup_app_r, Heq, Nat.sub_diag in Hsi by lia. cbn in Hsi.
      injection Hsi as <- <-.
      rewrite length_app in Heq. cbn in Heq.
      rewrite lookup_app_r in Hi by lia.
      replace (i - length done)%nat with 0%nat in Hi by lia. cbn in Hi.
      injection Hi as <-. exact Hwide.
    + apply lookup_lt_Some in Hsi. rewrite !length_app in Hsi. cbn in Hsi.
      rewrite length_app in Hge, Hne. cbn in Hge, Hne. lia.
Qed.

(** The loop from its second word on: [cur] is the run of the current
    line, [done] the runs of the lines pushed so far. *)
Lemma wrapLoop_runs (size maxWidth : Q) (words : list string) :
  forall (n : nat) (done : list (list string)) (cur : list string),
    (0 < n)%nat -> Wrapped size maxWidth (done ++ [cur]) ->
    exists groups,
      (let '(lines, line) :=
         wrapLoop size maxWidth words n (lineOf cur) (map lineOf done) in
       lines ++ [line]) = map lineOf groups /\
      concat groups = concat (done ++ [cur]) ++ words /\
      Wrapped size maxWidth groups.
Proof.
  induction words as [|word rest IH]; intros n done cur Hn Hw.
  - exists (done ++ [cur]). cbn [wrapLoop]. rewrite map_app, app_nil_r. auto.
  - cbn [wrapLoop]. rewrite <- lineOf_snoc.
    assert (Hcur : cur <> []).
    { destruct Hw as [Hne _ _]. rewrite Forall_app, Forall_singleton in Hne.
      apply Hne. }
    replace (0 <? n)%nat with true by (symmetry; apply Nat.ltb_lt; exact Hn).
    rewrite andb_true_r.
    destruct (Qltb maxWidth (measureText size (lineOf (cur ++ [word])))) eqn:Ewide.
    + apply Qltb_lt in Ewide.
      change (word ++ " ")%string with (lineOf [] ++ word ++ " ")%string.
      rewrite <- (lineOf_snoc [] word). cbn [app].
      replace (map lineOf done ++ [lineOf cur]) with (map lineOf (done ++ [cur]))
        by (rewrite map_app; reflexivity).
      destruct (IH (S n) (done ++ [cur]) [word]) as (groups & Hlines & Hconcat & Hwrapped).
      * lia.
      * destruct Hw as [Hne Hfit Hlate]. constructor.
        -- apply Forall_app. split; [exact Hne|]. constructor; [discriminate|constructor].
        -- apply Forall_app. split; [exact Hfit|].
           constructor; [left; reflexivity|constructor].
        -- apply breaksLate_snoc_group; assumption.
      * exists groups. split; [exact Hlines|]. split; [|exact Hwrapped].
        rewrite Hconcat, !concat_app. cbn [concat]. rewrite !app_nil_r, <- !app_assoc.
        reflexivity.
    + apply Qltb_ge in Ewide.
      destruct (IH (S n) done (cur ++ [word])) as (groups & Hlines & Hconcat & Hwrapped).
      * lia.
      * destruct Hw as [Hne Hfit Hlate].
        rewrite Forall_app in Hne, Hfit. destruct Hne as [Hne _], Hfit as [Hfit _].
        constructor.
        -- apply Forall_app. split; [exact Hne|]. constructor; [|constructor].
           intros E. apply app_eq_nil in E as [_ E]. discriminate.
        -- apply Forall_app. split; [exact Hfit|].
           constructor; [right; exact Ewide|constructor].
        -- apply breaksLate_snoc_word; assumption.
      * exists groups. split; [exact Hlines|]. split; [|exact Hwrapped].
        rewrite Hconcat, !concat_app. cbn [concat]. rewrite !app_nil_r, <- !app_assoc.
        reflexivity.
Qed.

(** The lines of a caption are runs of its words. *)
Lemma wordWrap_runs (size maxWidth : Q) (text : string) :
  exists groups,
    wordWrap size maxWidth text = map lineOf groups /\
    concat groups = split text /\
    Wrapped size maxWidth groups.
Proof.
  unfold wordWrap. destruct (split text) as [|word rest] eqn:E;
    [exfalso; exact (split_nonempty text E)|].
  cbn [wrapLoop Nat.ltb Nat.leb]. rewrite andb_false_r. cbn [String.append].
  destruct (wrapLoop_runs size maxWidth rest 1 [] [word]) as (groups & Hlines & Hconcat & Hw).
  - lia.
  - constructor.
    + constructor; [discriminate|constructor].
    + constructor; [left; reflexivity|constructor].
    + intros i group w r Hi Hsi. destruct i; cbn in Hsi; discriminate.
  - exists groups. split; [|split; [exact Hconcat|exact Hw]].
    cbn [map] in Hlines. unfold lineOf at 1 in Hlines. cbn [map joinLines fold_right] in Hlines.
    rewrite append_empty_r in Hlines.
    destruct (wrapLoop size maxWidth rest 1 (word ++ " ") []) as [lines line]. exact Hlines.
Qed.

(** X7.  The caption's lines are runs of its words: cutting the list of
    words [text.split(' ')] into non-empty consecutive runs and writing
    each word of a run followed by a space gives exactly the lines.  No
    word is split between two lines, and no line is empty. *)
Theorem wrap_keeps_words_whole (size maxWidth : Q) (text : string) :
  exists groups,
    wordWrap size maxWidth text = map lineOf groups /\
    concat groups = split text /\
    Forall (fun group => group <> []) groups.
Proof.
  destruct (wordWrap_runs size maxWidth text) as (groups & Hl & Hc & [Hne _ _]). eauto.
Qed.

(** X8.  Every line of a wrapped caption measures at most the maximum
    width, unless it consists of a single word (which is then kept whole,
    however wide). *)
Theorem wrapped_lines_fit (size maxWidth : Q) (text line : string) :
  line ∈ wordWrap size maxWidth text ->
  (exists word, word ∈ split text /\ line = (word ++ " ")%string) \/
  (measureText size line <= maxWidth)%Q.
Proof.
  intros Hin. destruct (wordWrap_runs size maxWidth text) as (groups & Hl & Hc & [_ Hfit _]).
  rewrite Hl in Hin. apply list_elem_of_fmap in Hin as (group & -> & Hg).
  rewrite Forall_forall in Hfit. destruct (Hfit group Hg) as [Hone|Hle]; [left|right; exact Hle].
  destruct group as [|word [|]]; try discriminate. exists word. split.
  - rewrite <- Hc. apply list_elem_of_In, in_concat. exists [word].
    split; [apply list_elem_of_In; exact Hg|left; reflexivity].
  - unfold lineOf. cbn. rewrite append_empty_r. reflexivity.
Qed.

(** No word holds a space. *)
Lemma split_words_no_space (text word : string) :
  In word (split text) -> ~ In " "%char (list_ascii_of_string word).
Proof.
  revert word. induction text as [|c rest IH]; intros word Hin.
  - cbn in Hin. destruct Hin as [<-|[]]. cbn. auto.
  - cbn [split] in Hin. destruct (Ascii.eqb_spec c " ") as [->|Hc].
    + destruct Hin as [<-|Hin]; [cbn; auto|apply IH, Hin].
    + destruct (split rest) as [|w ws] eqn:E; [exfalso; exact (split_nonempty rest E)|].
      destruct Hin as [<-|Hin]; [|apply IH; right; exact Hin].
      cbn [list_ascii_of_string In]. intros [Heq|Hw]; [congruence|].
      apply (IH w); [left; reflexivity|exact Hw].
Qed.

(** X9.  The wrap is greedy: wherever a line is followed by another, the
    first word of the following line did not fit, that is, the line with
    that word and a space appended measures more than the maximum
    width. *)
Theorem wrap_breaks_only_when_needed (size maxWidth : Q) (text : string) (i : nat)
    (line next : string) :
  wordWrap size maxWidth text !! i = Some line ->
  wordWrap size maxWidth text !! S i = Some next ->
  exists word tail,
    next = (word ++ " " ++ tail)%string /\
    ~ In " "%char (list_ascii_of_string word) /\
    (maxWidth < measureText size (line ++ word ++ " "))%Q.
Proof.
  intros Hi Hsi.
  destruct (wordWrap_runs size maxWidth text) as (groups & Hl & Hc & [Hne _ Hlate]).
  rewrite Hl, list_lookup_fmap in Hi, Hsi.
  destruct (groups !! i) as [group|] eqn:Ei; [|discriminate].
  destruct (groups !! S i) as [[|word rest]|] eqn:Esi; try discriminate.
  { rewrite Forall_forall in Hne. exfalso. apply (Hne []); [|reflexivity].
    eapply list_elem_of_lookup_2, Esi. }
  cbn in Hi, Hsi. injection Hi as <-. injection Hsi as <-.
  exists word, (lineOf rest). split; [|split].
  - unfold lineOf. cbn [map joinLines fold_right]. rewrite <- append_assoc. reflexivity.
  - apply (split_words_no_space text). rewrite <- Hc. apply in_concat.
    exists (word :: rest). split; [|left; reflexivity].
    apply list_elem_of_In. eapply list_elem_of_lookup_2, Esi.
  - rewrite <- lineOf_snoc. exact (Hlate i group word rest Ei Esi).
Qed.
End WrapFacts.

(* ================================================================== *)
(** ** Loading progress, image placement, progress bar *)

Ltac halves := unfold Qdiv in *; change (/ 2)%Q with (1 # 2)%Q in *.

Section PlacementFacts.
Context `{B : Browser}.

Lemma progressLoop_lookup (segments : list VideoSegment.t) (loadedCount total k : nat) :
  (k < 2 * length segments)%nat ->
  progressLoop segments loadedCount total !! k
  = Some (loadingProgress (loadedCount + k + 1) total).
Proof.
  revert loadedCount k. induction segments as [|segment rest IH]; intros c k Hk;
    [cbn in Hk; lia|].
  cbn [progressLoop]. destruct k as [|[|k]].
  - cbn. do 2 f_equal. lia.
  - cbn. do 2 f_equal. lia.
  - cbn [length] in Hk. change ((?a :: ?b :: ?l) !! S (S k)) with (l !! k).
    rewrite IH by lia. do 2 f_equal. lia.
Qed.

Lemma progressLoop_length (segments : list VideoSegment.t) (loadedCount total : nat) :
  length (progressLoop segments loadedCount total) = (2 * length segments)%nat.
Proof.
  revert loadedCount. induction segments as [|segment rest IH]; intros c; [reflexivity|].
  cbn [progressLoop length]. rewrite IH. lia.
Qed.

Lemma loadingProgress_mono (j k total : nat) :
  (0 < total)%nat -> (j <= k)%nat -> (loadingProgress j total <= loadingProgress k total)%Z.
Proof.
  intros Ht Hjk. unfold loadingProgress, mathRound. apply Qfloor_resp_le.
  apply Qplus_le_l, Qmult_le_r; [reflexivity|].
  apply Qmult_le_r; [apply Qinv_lt_0_compat; unfold Qlt; cbn; lia|].
  unfold Qle. cbn. lia.
Qed.

Lemma loadingProgress_zero (total : nat) : loadingProgress 0 total = 0%Z.
Proof.
  unfold loadingProgress, mathRound. cbn [Z.of_nat].
  assert (E : (inject_Z 0 / inject_Z (Z.of_nat total) * 100 + (1 # 2) == 1 # 2)%Q).
  { unfold Qdiv. rewrite Qmult_0_l, Qmult_0_l. reflexivity. }
  rewrite E. reflexivity.
Qed.

Lemma loadingProgress_full (total : nat) :
  (0 < total)%nat -> loadingProgress total total = 100%Z.
Proof.
  intros Ht. unfold loadingProgress, mathRound.
  assert (E : (inject_Z (Z.of_nat total) / inject_Z (Z.of_nat total) * 100 + (1 # 2)
               == 201 # 2)%Q).
  { unfold Qdiv. rewrite Qmult_inv_r; [reflexivity|]. unfold Qeq. cbn. lia. }
  rewrite E. reflexivity.
Qed.

(** X6.  The percentages [updateProgress] hands to [setLoadingProgress]
    while the assets load: two per segment, as many as the count the loop
    ends with; each between 0 and 100; never decreasing; the last one
    100 when there is a segment. *)
Theorem loading_progress_reaches_100 (video : GeneratedVideo.t) :
  length (progressReports video) = (2 * length (GeneratedVideo.segments video))%nat /\
  (forall k pct, progressReports video !! k = Some pct -> (0 <= pct <= 100)%Z) /\
  (forall j k a b, (j <= k)%nat -> progressReports video !! j = Some a ->
                   progressReports video !! k = Some b -> (a <= b)%Z) /\
  (GeneratedVideo.segments video <> [] -> last (progressReports video) = Some 100%Z) /\
  (forall assets, decodeAssets video = Normal assets ->
                  loadedCount assets = length (progressReports video)).
Proof.
  unfold progressReports. set (segments := GeneratedVideo.segments video).
  rewrite progressLoop_length.
  assert (Hat : forall k pct,
             progressLoop segments 0 (length segments * 2) !! k = Some pct ->
             (k < 2 * length segments)%nat /\
             pct = loadingProgress (k + 1) (length segments * 2)).
  { intros k pct Hk. assert (Hlt : (k < 2 * length segments)%nat).
    { apply lookup_lt_Some in Hk. rewrite progressLoop_length in Hk. exact Hk. }
    rewrite progressLoop_lookup in Hk by exact Hlt. injection Hk as <-. auto. }
  split; [reflexivity|]. split; [|split; [|split]].
  - intros k pct Hk. destruct (Hat k pct Hk) as [Hlt ->]. split.
    + rewrite <- (loadingProgress_zero (length segments * 2)).
      apply loadingProgress_mono; lia.
    + rewrite <- (loadingProgress_full (length segments * 2)) by lia.
      apply loadingProgress_mono; lia.
  - intros j k a b Hjk Hj Hk. destruct (Hat j a Hj) as [_ ->], (Hat k b Hk) as [Hlt ->].
    apply loadingProgress_mono; lia.
  - intros Hne. assert (Hpos : (0 < length segments)%nat)
      by (destruct segments; [congruence|cbn; lia]).
    rewrite last_lookup, progressLoop_length.
    rewrite progressLoop_lookup by lia.
    replace (0 + pred (2 * length segments) + 1)%nat with (length segments * 2)%nat by lia.
    rewrite loadingProgress_full by lia. reflexivity.
  - intros assets Hdec. rewrite decodeAssets_entries in Hdec. injection Hdec as <-.
    reflexivity.
Qed.

(** *** Image placement *)

Lemma Qdiv_pos (x y : Q) : (0 < x)%Q -> (0 < y)%Q -> (0 < x / y)%Q.
Proof. intros Hx Hy. apply Qlt_shift_div_l; [exact Hy|]. lra. Qed.

Lemma coverFit_placement (img : ImageBitmap) (canvasWidth canvasHeight : Q) :
  (0 < width img)%nat -> (0 < height img)%nat ->
  (0 < canvasWidth)%Q -> (0 < canvasHeight)%Q ->
  let r := coverFit img canvasWidth canvasHeight in
  covers canvasWidth canvasHeight r /\
  (offsetX r + renderW r / 2 == canvasWidth / 2)%Q /\
  (offsetY r + renderH r / 2 == canvasHeight / 2)%Q.
Proof.
  intros Hw Hh HW HH. cbv zeta. unfold coverFit, covers.
  set (w := inject_Z (Z.of_nat (width img))). set (h := inject_Z (Z.of_nat (height img))).
  assert (Hwq : (0 < w)%Q) by (unfold w, Qlt; cbn; lia).
  assert (Hhq : (0 < h)%Q) by (unfold h, Qlt; cbn; lia).
  assert (Hratio : (0 < w / h)%Q) by (apply Qdiv_pos; assumption).
  assert (HWH : (canvasWidth == canvasWidth / canvasHeight * canvasHeight)%Q)
    by (field; lra).
  destruct (Qltb (canvasWidth / canvasHeight) (w / h)) eqn:E;
    cbn [offsetX offsetY renderW renderH].
  - apply Qltb_lt in E.
    assert (Hwide : (canvasWidth < canvasHeight * (w / h))%Q).
    { rewrite HWH at 1. rewrite (Qmult_comm canvasHeight).
      apply Qmult_lt_compat_r; assumption. }
    set (P := (canvasHeight * (w / h))%Q) in *. clearbody P.
    split; [repeat split; halves; lra|]. split; field.
  - apply Qltb_ge in E.
    assert (Htall : (canvasHeight <= canvasWidth / (w / h))%Q).
    { apply Qle_shift_div_l; [exact Hratio|]. rewrite HWH, Qmult_comm.
      apply Qmult_le_compat_r; lra. }
    set (P := (canvasWidth / (w / h))%Q) in *. clearbody P.
    split; [repeat split; halves; lra|]. split; field.
Qed.

(** X10.  Cover fit, for an image and a canvas of positive size: the
    rectangle the image is drawn in reaches or passes every edge of the
    canvas, has the image's proportions, is centred on the canvas on both
    axes, and matches the canvas exactly in width or in height. *)
Theorem coverFit_covers (img : ImageBitmap) (canvasWidth canvasHeight : Q) :
  (0 < width img)%nat -> (0 < height img)%nat ->
  (0 < canvasWidth)%Q -> (0 < canvasHeight)%Q ->
  let r := coverFit img canvasWidth canvasHeight in
  covers canvasWidth canvasHeight r /\
  (renderW r * inject_Z (Z.of_nat (height img))
   == renderH r * inject_Z (Z.of_nat (width img)))%Q /\
  (offsetX r + renderW r / 2 == canvasWidth / 2)%Q /\
  (offsetY r + renderH r / 2 == canvasHeight / 2)%Q /\
  (renderW r == canvasWidth \/ renderH r == canvasHeight)%Q.
Proof.
  intros Hw Hh HW HH. cbv zeta.
  destruct (coverFit_placement img canvasWidth canvasHeight Hw Hh HW HH)
    as (Hcover & Hcx & Hcy).
  split; [exact Hcover|]. split; [|split; [exact Hcx|split; [exact Hcy|]]].
  - unfold coverFit.
    assert (Hwq : (0 < inject_Z (Z.of_nat (width img)))%Q) by (unfold Qlt; cbn; lia).
    assert (Hhq : (0 < inject_Z (Z.of_nat (height img)))%Q) by (unfold Qlt; cbn; lia).
    destruct (Qltb _ _); cbn [renderW renderH]; field; lra.
  - unfold coverFit. destruct (Qltb _ _); cbn [renderW renderH];
      [right|left]; reflexivity.
Qed.

(** X11.  The zoom of a frame is between 1 and 1.15 whatever the elapsed
    time and duration, and the cover-fit rectangle scaled by it about the
    canvas centre (the transform around [drawImage]) still reaches every
    edge of the canvas and stays centred: the zoom never uncovers the
    background. *)
Theorem zoomed_image_covers (img : ImageBitmap) (canvasWidth canvasHeight : Q)
    (elapsed segmentDuration : Q) :
  (0 < width img)%nat -> (0 < height img)%nat ->
  (0 < canvasWidth)%Q -> (0 < canvasHeight)%Q ->
  let scale := kenBurnsScale (progress elapsed segmentDuration) in
  let r := zoomed scale canvasWidth canvasHeight (coverFit img canvasWidth canvasHeight) in
  (1 <= scale <= 1.15)%Q /\
  covers canvasWidth canvasHeight r /\
  (offsetX r + renderW r / 2 == canvasWidth / 2)%Q /\
  (offsetY r + renderH r / 2 == canvasHeight / 2)%Q.
Proof.
  intros Hw Hh HW HH. cbv zeta.
  destruct (coverFit_placement img canvasWidth canvasHeight Hw Hh HW HH)
    as ((Hx0 & Hx1 & Hy0 & Hy1) & Hcx & Hcy).
  set (r := coverFit img canvasWidth canvasHeight) in *.
  assert (Hp : (0 <= progress elapsed segmentDuration <= 1)%Q).
  { unfold progress. split; [|apply Q.le_min_r].
    apply Q.min_glb; [apply Q.le_max_r|lra]. }
  set (p := progress elapsed segmentDuration) in *.
  clearbody p.
  assert (Hs : (1 <= kenBurnsScale p <= 1.15)%Q) by (unfold kenBurnsScale; lra).
  set (s := kenBurnsScale p) in *.
  split; [exact Hs|]. unfold covers, zoomed. cbn [offsetX offsetY renderW renderH].
  clearbody r.
  assert (Hex : (offsetX r == canvasWidth / 2 - renderW r / 2)%Q) by (halves; lra).
  assert (Hey : (offsetY r == canvasHeight / 2 - renderH r / 2)%Q) by (halves; lra).
  assert (HrW : (canvasWidth <= renderW r)%Q) by (halves; lra).
  assert (HrH : (canvasHeight <= renderH r)%Q) by (halves; lra).
  assert (HsW : (renderW r <= s * renderW r)%Q).
  { rewrite <- (Qmult_1_l (renderW r)) at 1. apply Qmult_le_compat_r; lra. }
  assert (HsH : (renderH r <= s * renderH r)%Q).
  { rewrite <- (Qmult_1_l (renderH r)) at 1. apply Qmult_le_compat_r; lra. }
  rewrite Hex, Hey.
  set (sw := (s * renderW r)%Q) in *. set (sh := (s * renderH r)%Q) in *.
  assert (Ex : (s * (canvasWidth / 2 - renderW r / 2 - canvasWidth / 2) == - (sw / 2))%Q)
    by (unfold sw; field).
  assert (Ey : (s * (canvasHeight / 2 - renderH r / 2 - canvasHeight / 2) == - (sh / 2))%Q)
    by (unfold sh; field).
  rewrite Ex, Ey. clearbody sw sh. repeat split; halves; lra.
Qed.

(** *** The progress bar over a playback *)

Lemma sumDurations_snoc (l : list AudioBuffer.t) (b : AudioBuffer.t) :
  (sumDurations (l ++ [b]) == sumDurations l + AudioBuffer.duration b)%Q.
Proof.
  rewrite sumDurations_app. unfold sumDurations at 2. cbn [fold_left]. lra.
Qed.

(** X12.  The progress bar over a playback, for buffers of positive
    duration: it is empty when the first segment starts; within a segment
    it never moves back as time passes; it stands at the same place at
    the end of one segment (its duration elapsed) and the start of the
    next; it is full when the last segment's duration has elapsed. *)
Theorem progress_bar_advances (audioBuffers : list AudioBuffer.t) :
  Forall positive audioBuffers -> audioBuffers <> [] ->
  (totalProgressPct audioBuffers 0 0 == 0)%Q /\
  (forall segmentIdx e1 e2,
     (e1 <= e2)%Q ->
     (totalProgressPct audioBuffers segmentIdx e1
      <= totalProgressPct audioBuffers segmentIdx e2)%Q) /\
  (forall segmentIdx buffer,
     audioBuffers !! segmentIdx = Some buffer ->
     (totalProgressPct audioBuffers segmentIdx (AudioBuffer.duration buffer * 1000)
      == totalProgressPct audioBuffers (S segmentIdx) 0)%Q) /\
  (forall buffer,
     last audioBuffers = Some buffer ->
     (totalProgressPct audioBuffers (length audioBuffers - 1)
                       (AudioBuffer.duration buffer * 1000) == 1)%Q).
Proof.
  intros Hall Hne. pose proof (sumDurations_pos audioBuffers Hall Hne) as Htot.
  assert (Hstep : forall segmentIdx buffer,
             audioBuffers !! segmentIdx = Some buffer ->
             (sumDurations (take segmentIdx audioBuffers)
              + AudioBuffer.duration buffer * 1000 / 1000
              == sumDurations (take (S segmentIdx) audioBuffers) + 0 / 1000)%Q).
  { intros k b Hk. rewrite (take_S_r _ _ _ Hk), sumDurations_snoc. field. }
  unfold totalProgressPct. split; [|split; [|split]].
  - cbn [take]. unfold sumDurations at 1. cbn [fold_left].
    assert (E : ((0 + 0 / 1000) / sumDurations audioBuffers == 0)%Q) by (field; lra).
    rewrite E. reflexivity.
  - intros k e1 e2 He. apply Q.min_le_compat_r.
    apply Qmult_le_compat_r; [|apply Qlt_le_weak, Qinv_lt_0_compat, Htot].
    apply Qplus_le_r. apply Qmult_le_compat_r; [exact He|]. unfold Qle. cbn. lia.
  - intros k b Hk. rewrite (Hstep k b Hk). reflexivity.
  - intros b Hlast. rewrite last_lookup in Hlast.
    replace (pred (length audioBuffers)) with (length audioBuffers - 1)%nat in Hlast by lia.
    rewrite (Hstep _ b Hlast).
    replace (S (length audioBuffers - 1)) with (length audioBuffers)
      by (destruct audioBuffers; [congruence|cbn; lia]).
    rewrite firstn_all.
    assert (E : ((sumDurations audioBuffers + 0 / 1000) / sumDurations audioBuffers == 1)%Q)
      by (field; lra).
    rewrite E. apply Q.min_id.
Qed.
End PlacementFacts.

(* ================================================================== *)
(** ** The transport invariant *)

Section TransportFacts.
Context `{B : Browser}.
Variable video : GeneratedVideo.t.

Lemma renderLoop_transport r env p : sameTransport p (renderLoop video r env p).
Proof. unfold renderLoop, sameTransport. case_ifs; simp_player; auto 10. Qed.

Lemma commit_transport env p : sameTransport p (commit video env p).
Proof.
  unfold commit, playingEffect.
  destruct (_ && _); [unfold sameTransport; simp_player; auto 10|].
  destruct (isPlaying (st p)).
  - destruct (renderLoop_transport (st p) env (withRendered (st p) p))
      as (E1 & E2 & E3 & E4 & E5 & E6 & E7).
    unfold sameTransport. simp_player. auto 10.
  - case_ifs; unfold sameTransport; simp_player; auto 10.
Qed.

Lemma commit_rendered env p : rendered (commit video env p) = st (commit video env p).
Proof.
  unfold commit, playingEffect.
  destruct (_ && _); [reflexivity|].
  destruct (isPlaying (st p)).
  - unfold renderLoop. case_ifs; simp_player; reflexivity.
  - case_ifs; simp_player; reflexivity.
Qed.

Lemma renderLoop_steady r env p :
  Steady video p -> audioContextRef p = Some running ->
  Steady video (renderLoop video r env p).
Proof.
  intros HS Hrun. unfold renderLoop.
  destruct (isLoaded (rendered p)); cbn [negb]; [|exact HS].
  assert (Hsusp : contextIs suspended p = false) by (unfold contextIs; rewrite Hrun; reflexivity).
  rewrite Hsusp, andb_false_r.
  destruct (Nat.leb_spec (segmentCount video) (currentSegmentIndex r)) as [Hge|Hlt];
    [exact HS|].
  destruct (isPlaying r) eqn:Er.
  - destruct HS as [Hb Ho Hn Hi Hs Hr Hl Hq He]. constructor; simp_player; try assumption.
    + intros _. exact Hrun.
    + apply Forall_app. split; [exact Hq|]. constructor; [split; assumption|constructor].
  - destruct HS as [Hb Ho Hn Hi Hs Hr Hl Hq He]. constructor; simp_player; try assumption.
    intros _. exact Hrun.
Qed.

Lemma playSegment_end r env index p :
  (segmentCount video <= index)%nat ->
  playSegment video r env index p = setIsPlaying false p.
Proof.
  intros Hge. unfold playSegment.
  destruct (Nat.leb_spec (segmentCount video) index); [reflexivity|lia].
Qed.

Lemma quiet_lookup p j node :
  quiet p -> sources p !! j = Some node -> sourceState node = Ended.
Proof. intros Hq Hj. exact (Forall_lookup_1 _ _ _ _ Hq Hj). Qed.

Lemma setIsPlaying_false_steady p :
  Steady video p -> quiet p -> Steady video (setIsPlaying false p).
Proof.
  intros [Hb Ho Hn Hi Hs Hr Hl Hq He] Hquiet. constructor; simp_player; try assumption.
  - intros j node Hj. left. eapply quiet_lookup; eauto.
  - intros [H|[H|[H|H]]]; [auto|discriminate|auto|auto].
  - reflexivity.
Qed.

Lemma stopNode_ended node : sourceState node = Ended -> stopNode node = node.
Proof. destruct node as [i s r]. cbn. intros ->. reflexivity. Qed.

(** [stop()] on a source that has ended changes nothing. *)
Lemma stopCurrent_quiet p : quiet p -> stopCurrent p = p.
Proof.
  intros Hq. unfold stopCurrent. destruct (currentSourceRef p) as [c|] eqn:Ec; [|reflexivity].
  destruct (sources p !! c) as [node|] eqn:En; [|reflexivity].
  rewrite stopNode_ended by (eapply quiet_lookup; eauto).
  rewrite list_insert_id by exact En.
  destruct p. unfold withSources. cbn in *. rewrite Ec. reflexivity.
Qed.

(** What [playSegment] does below the segment count once every earlier
    source has ended. *)
Lemma playSegment_start r env index p :
  (index < segmentCount video)%nat -> audioContextRef p = Some running -> quiet p ->
  exists q,
    playSegment video r env index p = q /\
    sources q = sources p ++ [{| sourceIndex := index; sourceState := Playing;
                                 sourceRender := r |}] /\
    currentSourceRef q = Some (length (sources p)) /\
    st q = {| isPlaying := true; currentSegmentIndex := index;
              isLoaded := isLoaded (st p) |} /\
    segmentStartTimeRef q = now env /\
    audioContextRef q = Some running /\
    rendered q = rendered p /\
    audioBuffersRef q = audioBuffersRef p /\ imageBitmapsRef q = imageBitmapsRef p.
Proof.
  intros Hlt Hrun Hquiet. eexists. split; [reflexivity|].
  unfold playSegment. destruct (Nat.leb_spec (segmentCount video) index); [lia|].
  rewrite Hrun, (stopCurrent_quiet p Hquiet).
  set (q := setIsPlaying true _).
  assert (Hq : sources q = sources p ++ [{| sourceIndex := index; sourceState := Playing;
                                            sourceRender := r |}] /\
               currentSourceRef q = Some (length (sources p)) /\
               st q = {| isPlaying := true; currentSegmentIndex := index;
                         isLoaded := isLoaded (st p) |} /\
               segmentStartTimeRef q = now env /\
               audioContextRef q = Some running /\
               rendered q = rendered p /\
               audioBuffersRef q = audioBuffersRef p /\ imageBitmapsRef q = imageBitmapsRef p).
  { subst q. simp_player. auto 10. }
  destruct (animationFrameRef q =? 0)%nat; [|exact Hq].
  destruct (renderLoop_transport r env q) as (E1 & E2 & E3 & E4 & E5 & E6 & E7).
  destruct Hq as (H1 & H2 & H3 & H4 & H5 & H6 & H7 & H8).
  rewrite E1, E2, E3, E4, E5, E6, E7.
  repeat (split; [assumption|]).
  split; [|split; assumption].
  rewrite <- H6. unfold renderLoop. case_ifs; simp_player; reflexivity.
Qed.

Lemma playSegment_steady r env index p :
  Steady video p -> audioContextRef p = Some running -> quiet p ->
  ((index < segmentCount video)%nat -> index = length (sources p)) ->
  Steady video (playSegment video r env index p).
Proof.
  intros HS Hrun Hquiet Hnext. unfold playSegment.
  destruct (Nat.leb_spec (segmentCount video) index) as [Hge|Hlt];
    [apply setIsPlaying_false_steady; assumption|].
  specialize (Hnext Hlt). rewrite Hrun, (stopCurrent_quiet p Hquiet).
  set (q := setIsPlaying true _).
  assert (Hq : Steady video q /\ audioContextRef q = Some running).
  { subst q. destruct HS as [Hb Ho Hn Hi Hs Hr Hl Hq He]. split; [|simp_player; congruence].
    constructor; simp_player.
    - rewrite length_app. cbn [length].
      destruct (sources p ++ _) eqn:E;
        [apply app_eq_nil in E as [_ E]; discriminate|].
      f_equal. lia.
    - intros j node Hj. apply lookup_app_Some in Hj as [Hj|[Hge Hj]]; [eauto|].
      destruct (j - length (sources p))%nat eqn:Ej; [|discriminate].
      injection Hj as <-. cbn. lia.
    - rewrite length_app. cbn [length]. lia.
    - rewrite length_app. cbn [length]. lia.
    - intros j node Hj. rewrite length_app. cbn [length].
      apply lookup_app_Some in Hj as [Hj|[Hge Hj]].
      + left. eapply quiet_lookup; eauto.
      + destruct (j - length (sources p))%nat eqn:Ej; [|discriminate].
        injection Hj as <-. right. cbn. repeat split. lia.
    - intros _. exact Hrun.
    - rewrite <- Hl. split; auto.
    - exact Hq.
    - lia. }
  destruct Hq as [Hq Hqrun].
  destruct (animationFrameRef q =? 0)%nat; [apply renderLoop_steady|]; assumption.
Qed.

(** A source whose [ended] event can come is the newest one, and plays. *)
Lemma enabled_ended p j :
  Steady video p -> enabled (SourceEnded j) p ->
  exists node, sources p !! j = Some node /\ sourceState node = Playing /\
               S j = length (sources p) /\ sourceIndex node = j /\
               audioContextRef p = Some running /\ isPlaying (st p) = true.
Proof.
  intros HS (node & Hj & Hst). exists node.
  assert (Hrun : audioContextRef p = Some running).
  { apply (steady_running video _ HS). left. intros E. rewrite E in Hj. discriminate. }
  pose proof (steady_order video _ HS _ _ Hj) as Hidx.
  destruct (steady_states video _ HS _ _ Hj) as [Hended|(Hplay & Hlast & Hflag)].
  - exfalso. destruct Hst as [[Hst _]|Hst]; congruence.
  - auto 10.
Qed.

(** The state in which [onended] calls [playSegment]. *)
Lemma ended_steady p j node :
  Steady video p -> sources p !! j = Some node -> S j = length (sources p) ->
  let q := withSources (<[j := endNode node]> (sources p)) (currentSourceRef p) p in
  Steady video q /\ quiet q.
Proof.
  intros HS Hj Hlast q. subst q.
  assert (Hquiet : quiet (withSources (<[j := endNode node]> (sources p))
                                      (currentSourceRef p) p)).
  { unfold quiet. simp_player. apply Forall_lookup. intros k nd Hk.
    destruct (decide (k = j)) as [->|Hne].
    - rewrite list_lookup_insert_eq in Hk by (eapply lookup_lt_Some; eauto).
      injection Hk as <-. reflexivity.
    - rewrite list_lookup_insert_ne in Hk by auto.
      destruct (steady_states video _ HS _ _ Hk) as [Hended|(_ & Hlast' & _)];
        [exact Hended|lia]. }
  split; [|exact Hquiet].
  destruct HS as [Hb Ho Hn Hi Hs Hr Hl Hq He]. constructor; simp_player;
    rewrite ?length_insert; try assumption.
  - rewrite Hb. destruct (sources p) as [|a l] eqn:E; [discriminate|].
    destruct (<[j:=endNode node]> (a :: l)) eqn:E'; [|reflexivity].
    apply (f_equal length) in E'. rewrite length_insert in E'. discriminate.
  - intros k nd Hk. destruct (decide (k = j)) as [->|Hne].
    + rewrite list_lookup_insert_eq in Hk by (eapply lookup_lt_Some; eauto).
      injection Hk as <-. cbn. eauto.
    + rewrite list_lookup_insert_ne in Hk by auto. eauto.
  - intros k nd Hk. left. eapply quiet_lookup; [exact Hquiet|exact Hk].
  - intros _. apply Hr. left. intros E. rewrite E in Hj. discriminate.
Qed.

Lemma onended_steady j env p :
  Steady video p -> enabled (SourceEnded j) p -> Steady video (onended video j env p).
Proof.
  intros HS Hen.
  destruct (enabled_ended p j HS Hen) as (node & Hj & Hplay & Hlast & Hidx & Hrun & _).
  unfold onended. rewrite Hj.
  destruct (ended_steady p j node HS Hj Hlast) as [HS' Hquiet].
  apply playSegment_steady; [exact HS'|exact Hrun|exact Hquiet|].
  intros _. simp_player. rewrite length_insert. lia.
Qed.

(** Unless the context is running nothing has been started, requested or
    painted. *)
Lemma idle_unless_running p :
  Steady video p -> audioContextRef p <> Some running ->
  sources p = [] /\ isPlaying (st p) = false /\ frameRequests p = [] /\ painted p = [].
Proof.
  intros HS Hnot. pose proof (steady_running video _ HS) as Hr.
  repeat split.
  - destruct (sources p) eqn:E; [reflexivity|]. exfalso. apply Hnot, Hr. left. discriminate.
  - destruct (isPlaying (st p)) eqn:E; [|reflexivity]. exfalso. apply Hnot, Hr. auto.
  - destruct (frameRequests p) eqn:E; [reflexivity|]. exfalso. apply Hnot, Hr.
    right. right. left. discriminate.
  - destruct (painted p) eqn:E; [reflexivity|]. exfalso. apply Hnot, Hr.
    right. right. right. discriminate.
Qed.

Lemma decodeAssets_Normal : exists assets, decodeAssets video = Normal assets.
Proof. eexists. apply decodeAssets_entries. Qed.

Lemma quiet_nil p : sources p = [] -> quiet p.
Proof. unfold quiet. intros ->. constructor. Qed.

(** With the playing flag down every source has ended. *)
Lemma steady_quiet p : Steady video p -> isPlaying (st p) = false -> quiet p.
Proof.
  intros HS Hidle. apply Forall_lookup. intros j node Hj.
  destruct (steady_states video _ HS _ _ Hj) as [H|(_ & _ & H)]; [exact H|congruence].
Qed.

Lemma loadAssets_steady c env p :
  Steady video p -> audioContextRef p = None ->
  Steady video (loadAssets video c env p).
Proof.
  intros HS Hnone. unfold loadAssets. destruct decodeAssets_Normal as [assets ->].
  destruct (idle_unless_running p HS) as (Hsrc & Hplay & Hreq & Hpaint);
    [rewrite Hnone; discriminate|].
  set (q := setIsLoaded true _).
  assert (Hq : Steady video q).
  { subst q. destruct HS as [Hb Ho Hn Hi Hs Hr Hl Hq He]. constructor; simp_player;
      try assumption.
    - rewrite Hsrc, Hplay, Hreq, Hpaint. intros [H|[H|[H|H]]]; congruence.
    - split; eauto. }
  destruct c; [exact Hq|].
  apply playSegment_steady; [exact Hq|reflexivity| |].
  - apply quiet_nil. subst q. simp_player. exact Hsrc.
  - intros _. subst q. simp_player. rewrite Hsrc. reflexivity.
Qed.

Lemma withContext_running_steady p :
  Steady video p -> is_Some (audioContextRef p) ->
  Steady video (withContext (Some running) p).
Proof.
  intros [Hb Ho Hn Hi Hs Hr Hl Hq He] Hctx. constructor; simp_player; try assumption.
  - reflexivity.
  - rewrite Hl. split; eauto.
Qed.

(** The restart test of [togglePlay] (line 194) holds in a settled state
    only if nothing was ever played and there is at most one segment. *)
Lemma restart_test p :
  Steady video p ->
  (segmentCount video <=? currentSegmentIndex (st p))%nat
  || ((segmentCount video - 1 <=? currentSegmentIndex (st p))%nat
      && negb (bool_decide (is_Some (currentSourceRef p))))
  = bool_decide (sources p = [] /\ (segmentCount video <= 1)%nat).
Proof.
  intros HS.
  pose proof (steady_index video _ HS) as Hi. pose proof (steady_count video _ HS) as Hn.
  rewrite (steady_bound video _ HS), Hi.
  destruct (sources p) as [|a l] eqn:E; cbn [length] in *.
  - rewrite bool_decide_eq_false_2 by (intros [x Hx]; discriminate). cbn [negb].
    rewrite andb_true_r.
    destruct (Nat.leb_spec (segmentCount video) (0 - 1)),
             (Nat.leb_spec (segmentCount video - 1) (0 - 1)); cbn [orb];
      symmetry; (apply bool_decide_eq_true_2 || apply bool_decide_eq_false_2); lia || (split; [reflexivity|lia]) || (intros [_ H']; lia).
  - rewrite bool_decide_eq_true_2 by eauto. cbn [negb]. rewrite andb_false_r, orb_false_r.
    destruct (Nat.leb_spec (segmentCount video) (S (length l) - 1)); [lia|].
    symmetry. apply bool_decide_eq_false_2. intros [H' _]. discriminate.
Qed.

Lemma togglePlay_steady env p :
  Steady video p -> rendered p = st p -> isPlaying (rendered p) = false ->
  Steady video (togglePlay video env p).
Proof.
  intros HS Hsync Hidle. unfold togglePlay.
  destruct (audioContextRef p) as [c|] eqn:Ectx; [|exact HS].
  rewrite Hidle.
  pose proof (steady_quiet p HS ltac:(congruence)) as Hquiet.
  set (q := if contextIs suspended p then _ else _).
  assert (Hq : Steady video q /\ audioContextRef q = Some running /\
               sources q = sources p /\ currentSourceRef q = currentSourceRef p /\
               st q = st p).
  { subst q. unfold contextIs. rewrite Ectx. destruct c.
    - split; [apply withContext_running_steady; [exact HS|rewrite Ectx; eauto]|].
      simp_player. auto.
    - split; [exact HS|]. auto. }
  clearbody q. destruct Hq as (Hq & Hrun & Hsrc & Hcur & Hst).
  assert (Hsusp : contextIs suspended q = false) by (unfold contextIs; rewrite Hrun; reflexivity).
  rewrite Hsusp, Hsync, <- Hst, (restart_test q Hq).
  assert (Hquiet' : quiet q) by (unfold quiet; rewrite Hsrc; exact Hquiet).
  destruct (bool_decide_reflect (sources q = [] /\ (segmentCount video <= 1)%nat))
    as [[Hnil Hone]|Hnot].
  - apply playSegment_steady; [exact Hq|exact Hrun|exact Hquiet'|].
    intros _. rewrite Hnil. reflexivity.
  - apply renderLoop_steady; [|simp_player; exact Hrun].
    pose proof (steady_count video _ Hq) as Hn.
    destruct Hq as [Hb Ho Hnn Hi Hs Hr Hl Hqq He]. constructor; simp_player; try assumption.
    + intros j node Hj. left. eapply quiet_lookup; eauto.
    + intros _. exact Hrun.
    + intros E. exfalso. apply Hnot. split; [|lia].
      destruct (sources q); [reflexivity|cbn in Hn; lia].
Qed.

Lemma runFrames_steady env p : Steady video p -> Steady video (runFrames video env p).
Proof.
  intros HS. unfold runFrames.
  destruct (frameRequests p) as [|req reqs] eqn:E.
  - cbn [fold_left]. destruct HS as [Hb Ho Hn Hi Hs Hr Hl Hq He].
    constructor; simp_player; try assumption.
    + intros [H|[H|[H|H]]]; [auto|auto|congruence|auto].
    + constructor.
  - assert (Hrun : audioContextRef p = Some running).
    { apply (steady_running video _ HS). right. right. left. rewrite E. discriminate. }
    set (q := withFrames _ _ _ _).
    assert (Hq : Steady video q /\ audioContextRef q = Some running).
    { subst q. split; [|exact Hrun]. destruct HS as [Hb Ho Hn Hi Hs Hr Hl Hq He].
      constructor; simp_player; try assumption.
      + intros _. exact Hrun.
      + constructor. }
    clearbody q. revert q Hq. generalize (req :: reqs).
    induction l as [|x l IH]; intros q [Hq Hqrun]; [exact Hq|].
    cbn [fold_left]. apply IH. split; [apply renderLoop_steady; assumption|].
    destruct (renderLoop_transport (snd x) env q) as (_ & -> & _). exact Hqrun.
Qed.

Lemma withRendered_steady r p : Steady video p -> Steady video (withRendered r p).
Proof. intros [Hb Ho Hn Hi Hs Hr Hl Hq He]. constructor; simp_player; assumption. Qed.

Lemma cancelAnimationFrame_steady id p :
  Steady video p -> Steady video (cancelAnimationFrame id p).
Proof.
  intros [Hb Ho Hn Hi Hs Hr Hl Hq He]. constructor; simp_player; try assumption.
  - intros [H|[H|[H|H]]]; [auto|auto| |auto]. apply Hr. right. right. left.
    intros E. rewrite E in H. apply H. reflexivity.
  - apply Forall_forall. intros req Hin. apply list_elem_of_filter in Hin as [_ Hin].
    rewrite Forall_forall in Hq. apply Hq, Hin.
Qed.

Lemma commit_steady env p : Steady video p -> Steady video (commit video env p).
Proof.
  intros HS. unfold commit, playingEffect.
  pose proof (withRendered_steady (st p) p HS) as HS'.
  destruct (_ && _); [exact HS'|]. simp_player.
  destruct (isPlaying (st p)) eqn:Eplay.
  - apply renderLoop_steady; [exact HS'|]. simp_player.
    apply (steady_running video _ HS). auto.
  - destruct (negb _); [apply cancelAnimationFrame_steady|]; exact HS'.
Qed.

Lemma withClock_steady t p : Steady video p -> Steady video (withClock t p).
Proof. intros [Hb Ho Hn Hi Hs Hr Hl Hq He]. constructor; simp_player; assumption. Qed.

Lemma step_settled ev env p :
  Settled video p -> enabled ev p -> Settled video (step video ev env p).
Proof.
  intros [HS Hsync] Hen. unfold step. split; [|apply commit_rendered].
  apply commit_steady. pose proof (withClock_steady (now env) p HS) as HS'.
  destruct ev as [c|j| |]; cbn [handle enabled] in *.
  - apply loadAssets_steady; [exact HS'|exact Hen].
  - apply onended_steady; [exact HS'|exact Hen].
  - apply togglePlay_steady; [exact HS'|exact Hsync|apply Hen].
  - apply runFrames_steady, HS'.
Qed.

Lemma initial_settled : Settled video initialPlayer.
Proof.
  split; [|reflexivity]. constructor.
  - reflexivity.
  - intros j node Hj. cbn in Hj. rewrite lookup_nil in Hj. discriminate.
  - cbn. lia.
  - reflexivity.
  - intros j node Hj. cbn in Hj. rewrite lookup_nil in Hj. discriminate.
  - cbn. intros [H|[H|[H|H]]]; congruence.
  - cbn. split; [discriminate|intros [x Hx]; discriminate].
  - constructor.
  - reflexivity.
Qed.

Lemma reachable_settled p : reachable video p -> Settled video p.
Proof.
  induction 1 as [|p ev env _ IH Hen _]; [apply initial_settled|].
  apply step_settled; assumption.
Qed.
End TransportFacts.

(* ================================================================== *)
(** ** The transport in the reachable states *)

Section PlayerMore.
Context `{B : Browser}.
Variable video : GeneratedVideo.t.

Lemma sameTransport_refl p : sameTransport p p.
Proof. unfold sameTransport. auto 10. Qed.

Lemma sameTransport_trans p q s :
  sameTransport p q -> sameTransport q s -> sameTransport p s.
Proof.
  unfold sameTransport.
  intros (A1 & A2 & A3 & A4 & A5 & A6 & A7) (C1 & C2 & C3 & C4 & C5 & C6 & C7).
  repeat split; congruence.
Qed.

Lemma runFrames_transport env p : sameTransport p (runFrames video env p).
Proof.
  unfold runFrames.
  set (q := withFrames _ _ _ _).
  assert (Hq : sameTransport p q) by (subst q; unfold sameTransport; simp_player; auto 10).
  clearbody q. revert q Hq. induction (frameRequests p) as [|x l IH]; intros q Hq;
    [exact Hq|].
  cbn [fold_left]. apply IH. eapply sameTransport_trans; [exact Hq|].
  apply renderLoop_transport.
Qed.

Lemma withClock_transport t p : sameTransport p (withClock t p).
Proof. unfold sameTransport. simp_player. auto 10. Qed.

(** The handler's result and the committed state agree on everything but
    the frames. *)
Lemma step_transport ev env p :
  sameTransport (handle video ev env (withClock (now env) p)) (step video ev env p).
Proof. unfold step. apply commit_transport. Qed.

Lemma reachable_loaded p :
  reachable video p -> is_Some (audioContextRef p) ->
  audioBuffersRef p = decodedAudio video /\ imageBitmapsRef p = decodedImages video.
Proof.
  intros Hreach Hctx. destruct (reachable_settled video p Hreach) as [HS _].
  apply (inv_assets video _ (reachable_inv video p Hreach)).
  apply (steady_loaded video _ HS), Hctx.
Qed.

(** X13.  In every reachable state the audio sources created so far are
    the segments in order: source [j] plays segment [j], which exists and
    whose decoded buffer is in place.  A source has either played to its
    end or is playing; none was ever cut off by [stop()].  A playing
    source is the newest one, it is the bound one, the index shown is
    its segment, [isPlaying] is set and the context is running. *)
Theorem narration_runs_in_order (p : Player) (j : nat) (node : SourceNode) :
  reachable video p -> sources p !! j = Some node ->
  sourceIndex node = j /\ (j < segmentCount video)%nat /\
  (exists segment, GeneratedVideo.segments video !! j = Some segment /\
                   audioBuffersRef p !! j = Some (audioEntry segment)) /\
  (sourceState node = Ended \/
   (sourceState node = Playing /\ S j = length (sources p) /\
    currentSourceRef p = Some j /\ currentSegmentIndex (st p) = j /\
    isPlaying (st p) = true /\ audioContextRef p = Some running)).
Proof.
  intros Hreach Hj. destruct (reachable_settled video p Hreach) as [HS _].
  assert (Hrun : audioContextRef p = Some running).
  { apply (steady_running video _ HS). left. intros E. rewrite E in Hj. discriminate. }
  assert (Hlt : (j < segmentCount video)%nat).
  { pose proof (steady_count video _ HS). apply lookup_lt_Some in Hj. lia. }
  split; [exact (steady_order video _ HS _ _ Hj)|]. split; [exact Hlt|]. split.
  - destruct (reachable_loaded p Hreach) as [-> _]; [rewrite Hrun; eauto|].
    destruct (lookup_lt_is_Some_2 (GeneratedVideo.segments video) j Hlt) as [segment Hseg].
    exists segment. split; [exact Hseg|].
    rewrite decodedAudio_entries, list_lookup_fmap, Hseg. reflexivity.
  - destruct (steady_states video _ HS _ _ Hj) as [H|(Hplay & Hlast & Hflag)]; [left; exact H|].
    right. split; [exact Hplay|]. split; [exact Hlast|].
    rewrite (steady_bound video _ HS), (steady_index video _ HS).
    destruct (sources p) eqn:E; [discriminate|]. rewrite <- Hlast.
    repeat split; try assumption; f_equal; lia.
Qed.

(** X14.  After the [ended] event of source [j], in a reachable state in
    which that event can come, the source has ended.  If segment [j+1]
    exists, a new source, the one after [j], plays it: it is bound,
    the index is [j+1], [isPlaying] is set and the segment's start time
    is the time of the event.  If [j] was the last segment, no source is
    created, every source has ended, [isPlaying] is cleared and the index
    stays [j]. *)
Theorem ended_source_advances (p : Player) (j : nat) (env : Env) :
  reachable video p -> enabled (SourceEnded j) p ->
  (exists node, sources (step video (SourceEnded j) env p) !! j = Some node /\
                sourceState node = Ended) /\
  ((S j < segmentCount video)%nat ->
     length (sources (step video (SourceEnded j) env p)) = S (S j) /\
     (exists r, sources (step video (SourceEnded j) env p) !! S j
                = Some {| sourceIndex := S j; sourceState := Playing; sourceRender := r |}) /\
     currentSourceRef (step video (SourceEnded j) env p) = Some (S j) /\
     currentSegmentIndex (st (step video (SourceEnded j) env p)) = S j /\
     isPlaying (st (step video (SourceEnded j) env p)) = true /\
     segmentStartTimeRef (step video (SourceEnded j) env p) = now env) /\
  ((segmentCount video <= S j)%nat ->
     length (sources (step video (SourceEnded j) env p)) = S j /\
     quiet (step video (SourceEnded j) env p) /\
     currentSegmentIndex (st (step video (SourceEnded j) env p)) = j /\
     isPlaying (st (step video (SourceEnded j) env p)) = false).
Proof.
  intros Hreach Hen. destruct (reachable_settled video p Hreach) as [HS _].
  pose proof (withClock_steady video (now env) p HS) as HS'.
  destruct (enabled_ended video _ j HS' Hen) as (node & Hj & Hplay & Hlast & Hidx & Hrun & _).
  destruct (step_transport (SourceEnded j) env p) as (Est & _ & Ecur & Esrc & Estart & _).
  unfold quiet. rewrite Est, Ecur, Esrc, Estart. cbn [handle]. unfold onended. rewrite Hj.
  destruct (ended_steady video _ j node HS' Hj Hlast) as [HSq Hquiet].
  set (q := withSources _ _ _) in *.
  assert (Hlen : length (sources q) = S j).
  { subst q. simp_player. rewrite length_insert. lia. }
  assert (Hqj : sources q !! j = Some (endNode node)).
  { subst q. simp_player. apply list_lookup_insert_eq. eapply lookup_lt_Some; eauto. }
  assert (Hqi : currentSegmentIndex (st q) = j).
  { rewrite (steady_index video _ HSq), Hlen. lia. }
  rewrite Hidx. replace (j + 1)%nat with (S j) by lia.
  destruct (Nat.le_gt_cases (segmentCount video) (S j)) as [Hge|Hlt].
  - rewrite (playSegment_end video _ env (S j) q Hge). simp_player.
    split; [exists (endNode node); split; [exact Hqj|reflexivity]|].
    split; [lia|]. intros _. auto.
  - destruct (playSegment_start video (sourceRender node) env (S j) q Hlt)
      as (s & -> & Hsrc & Hcur & Hst & Hstart & _); [subst q; exact Hrun|exact Hquiet|].
    rewrite Hsrc, Hcur, Hst, Hstart, Hlen, length_app, Hlen. cbn [length].
    split; [exists (endNode node); split; [|reflexivity];
            rewrite lookup_app_l by lia; exact Hqj|].
    split; [|lia]. intros _. split; [lia|]. split; [|simp_player; auto].
    exists (sourceRender node). rewrite lookup_app_r by lia.
    rewrite Hlen, Nat.sub_diag. reflexivity.
Qed.

Lemma enabled_click p :
  reachable video p -> enabled Click p ->
  isPlaying (st p) = false /\ rendered p = st p /\ quiet p /\
  exists c, audioContextRef p = Some c.
Proof.
  intros Hreach [Hloaded Hidle]. destruct (reachable_settled video p Hreach) as [HS Hsync].
  rewrite Hsync in *. split; [exact Hidle|]. split; [reflexivity|].
  split; [apply (steady_quiet video); assumption|].
  apply (steady_loaded video _ HS) in Hloaded as [c Hc]. eauto.
Qed.

(** X15.  A click on the play overlay leaves the context running.  It
    starts a source (of segment 0, at the time of the click) only in a
    project of exactly one segment in which nothing was played yet.  In
    every other case no source is created and none is playing afterwards,
    yet [isPlaying] is set unless the project is empty: neither a
    project of several segments whose autoplay was blocked nor a finished
    playback is started by the play button. *)
Theorem play_button_starts_only_a_fresh_single_segment (p : Player) (env : Env) :
  reachable video p -> enabled Click p ->
  audioContextRef (step video Click env p) = Some running /\
  (sources p = [] /\ segmentCount video = 1%nat ->
     sources (step video Click env p)
     = [{| sourceIndex := 0; sourceState := Playing; sourceRender := rendered p |}] /\
     isPlaying (st (step video Click env p)) = true /\
     segmentStartTimeRef (step video Click env p) = now env) /\
  (~ (sources p = [] /\ segmentCount video = 1%nat) ->
     sources (step video Click env p) = sources p /\
     quiet (step video Click env p) /\
     (segmentCount video <> 0%nat -> isPlaying (st (step video Click env p)) = true)).
Proof.
  intros Hreach Hen.
  destruct (enabled_click p Hreach Hen) as (Hidle & Hsync & Hquiet & c & Hctx).
  destruct (reachable_settled video p Hreach) as [HS _].
  destruct (step_transport Click env p) as (Est & Ectx & _ & Esrc & Estart & _).
  unfold quiet. rewrite Est, Ectx, Esrc, Estart. cbn [handle].
  set (w := withClock (now env) p).
  assert (Hw : Steady video w /\ audioContextRef w = Some c /\ rendered w = st p /\
               sources w = sources p /\ st w = st p).
  { subst w. split; [apply withClock_steady, HS|]. simp_player. auto. }
  clearbody w. destruct Hw as (HSw & Hwctx & Hwren & Hwsrc & Hwst).
  unfold togglePlay. rewrite Hwctx, Hwren, Hidle.
  set (q := if contextIs suspended w then withContext (Some running) w else w).
  assert (Hq : Steady video q /\ audioContextRef q = Some running /\
               sources q = sources p /\ st q = st p).
  { subst q. unfold contextIs. rewrite Hwctx. destruct c.
    - split; [apply withContext_running_steady; [exact HSw|rewrite Hwctx; eauto]|].
      simp_player. auto.
    - split; [exact HSw|]. auto. }
  clearbody q. destruct Hq as (Hq & Hrun & Hsrc & Hst).
  assert (Hsusp : contextIs suspended q = false) by (unfold contextIs; rewrite Hrun; reflexivity).
  assert (Hquiet' : quiet q) by (unfold quiet; rewrite Hsrc; exact Hquiet).
  rewrite Hsusp, <- Hst, (restart_test video q Hq), Hsrc.
  destruct (bool_decide_reflect (sources p = [] /\ (segmentCount video <= 1)%nat))
    as [[Hnil Hone]|Hnot].
  - destruct (Nat.eq_dec (segmentCount video) 0) as [Hzero|Hpos].
    + rewrite (playSegment_end video _ env 0%nat q) by lia. simp_player.
      split; [exact Hrun|]. split; [intros [_ H1]; lia|].
      intros _. rewrite Hsrc. split; [reflexivity|]. split; [exact Hquiet|]. intros H0. lia.
    + destruct (playSegment_start video (st q) env 0%nat q)
        as (s & -> & Hs & _ & Hss & Hstart & Hsrun & _); [lia|exact Hrun|exact Hquiet'|].
      rewrite Hs, Hss, Hstart, Hsrun, Hsrc, Hnil, Hsync, Hst. simp_player.
      split; [reflexivity|]. split; [auto|]. intros Hn. exfalso. apply Hn. split; [reflexivity|lia].
  - destruct (renderLoop_transport video (st q) env (setIsPlaying true q))
      as (E1 & E2 & _ & E4 & _).
    rewrite E1, E2, E4. simp_player. split; [exact Hrun|].
    split; [intros [Hnil H1]; exfalso; apply Hnot; split; [exact Hnil|lia]|].
    intros _. rewrite Hsrc. auto.
Qed.

Lemma silent_step p ev env :
  Settled video p -> isPlaying (st p) = true -> quiet p -> enabledb ev p = true ->
  ev = AnimationFrame /\ sources (step video ev env p) = sources p /\
  st (step video ev env p) = st p.
Proof.
  intros [HS Hsync] Hplay Hquiet Hen.
  assert (Hrun : audioContextRef p = Some running) by (apply (steady_running video _ HS); auto).
  destruct ev as [c|j| |]; cbn [enabledb] in Hen.
  - rewrite Hrun, bool_decide_eq_true_2 in Hen by eauto. discriminate.
  - destruct (sources p !! j) as [node|] eqn:Ej; [|discriminate].
    rewrite (quiet_lookup _ _ _ Hquiet Ej) in Hen. discriminate.
  - rewrite Hsync, Hplay, andb_false_r in Hen. discriminate.
  - split; [reflexivity|].
    destruct (step_transport AnimationFrame env p) as (Est & _ & _ & Esrc & _).
    rewrite Est, Esrc. cbn [handle].
    destruct (runFrames_transport env (withClock (now env) p)) as (E1 & _ & _ & E4 & _).
    rewrite E1, E4. simp_player. auto.
Qed.

(** X16.  Once [isPlaying] is set while every source has ended (or none
    exists), the player stays so: the only events that can come are
    animation frames, and they change neither the sources nor the
    state.  The play overlay is not shown and no [ended] event is due, so
    nothing starts a narration again. *)
Theorem silent_playback_is_permanent (p : Player) (evs : list (Event * Env)) :
  reachable video p -> isPlaying (st p) = true -> quiet p ->
  allowedb video evs p = true ->
  Forall (fun e : Event * Env => fst e = AnimationFrame) evs /\
  sources (run video evs p) = sources p /\
  st (run video evs p) = st p.
Proof.
  revert p. induction evs as [|[ev env] rest IH]; intros p Hreach Hplay Hquiet Hall;
    [split; [constructor|auto]|].
  cbn [allowedb] in Hall. apply andb_true_iff in Hall as [Hall Hrest].
  apply andb_true_iff in Hall as [Hen Hle].
  destruct (silent_step p ev env (reachable_settled video p Hreach) Hplay Hquiet Hen)
    as (-> & Hsrc & Hst).
  cbn [run]. destruct (IH (step video AnimationFrame env p)) as (Hevs & Hsrc' & Hst').
  - apply reachable_step; [exact Hreach|exact I|apply Qle_bool_iff, Hle].
  - rewrite Hst. exact Hplay.
  - unfold quiet. rewrite Hsrc. exact Hquiet.
  - exact Hrest.
  - split; [constructor; [reflexivity|exact Hevs]|]. split; congruence.
Qed.

Lemma playSegment_context r env index p :
  audioContextRef (playSegment video r env index p) = audioContextRef p.
Proof.
  unfold playSegment. destruct (_ <=? _)%nat; [reflexivity|].
  destruct (audioContextRef p) eqn:E; [|exact E].
  set (q := setIsPlaying true _).
  assert (Hq : audioContextRef q = audioContextRef p).
  { subst q. simp_player. unfold stopCurrent. case_ifs; reflexivity. }
  rewrite E in Hq.
  destruct (_ =? _)%nat; [|exact Hq].
  destruct (renderLoop_transport video r env q) as (_ & -> & _). exact Hq.
Qed.

Lemma togglePlay_context env p :
  audioContextRef p = Some running -> isPlaying (rendered p) = false ->
  audioContextRef (togglePlay video env p) = Some running.
Proof.
  intros Hrun Hidle. unfold togglePlay. rewrite Hrun, Hidle.
  assert (Hsusp : contextIs suspended p = false) by (unfold contextIs; rewrite Hrun; reflexivity).
  rewrite Hsusp. cbv iota. rewrite Hsusp. destruct (_ || _).
  - rewrite playSegment_context. exact Hrun.
  - destruct (renderLoop_transport video (rendered p) env (setIsPlaying true p))
      as (_ & -> & _). exact Hrun.
Qed.

(** X17.  The audio context: as long as it is not running nothing has been
    played, requested or painted, [isPlaying] is clear and the index is
    0; once it is running it stays running through every event that can
    come.  The [suspend()] of [togglePlay] is never reached: the overlay
    that calls [togglePlay] is shown only while [isPlaying] is clear. *)
Theorem context_is_never_suspended_again (p : Player) (ev : Event) (env : Env) :
  reachable video p -> enabled ev p ->
  (audioContextRef p <> Some running ->
     sources p = [] /\ isPlaying (st p) = false /\ frameRequests p = [] /\
     painted p = [] /\ currentSegmentIndex (st p) = 0%nat) /\
  (audioContextRef p = Some running ->
     audioContextRef (step video ev env p) = Some running).
Proof.
  intros Hreach Hen. destruct (reachable_settled video p Hreach) as [HS Hsync]. split.
  - intros Hnot. destruct (idle_unless_running video p HS Hnot) as (H1 & H2 & H3 & H4).
    repeat split; try assumption. rewrite (steady_index video _ HS), H1. reflexivity.
  - intros Hrun. destruct (step_transport ev env p) as (_ & -> & _).
    destruct ev as [c|j| |]; cbn [handle enabled] in *.
    + congruence.
    + unfold onended. simp_player. destruct (sources p !! j); [|exact Hrun].
      rewrite playSegment_context. exact Hrun.
    + destruct Hen as [_ Hidle]. apply togglePlay_context; assumption.
    + destruct (runFrames_transport env (withClock (now env) p)) as (_ & -> & _).
      exact Hrun.
Qed.

(** X18.  A project without segments: in every reachable state no source
    exists, nothing was painted, no animation frame is requested,
    [isPlaying] is clear and the index is 0. *)
Theorem empty_project_is_inert (p : Player) :
  segmentCount video = 0%nat -> reachable video p ->
  sources p = [] /\ painted p = [] /\ frameRequests p = [] /\
  isPlaying (st p) = false /\ currentSegmentIndex (st p) = 0%nat.
Proof.
  intros Hzero Hreach. destruct (reachable_settled video p Hreach) as [HS _].
  pose proof (reachable_inv video p Hreach) as HI.
  assert (Hsrc : sources p = []).
  { pose proof (steady_count video _ HS) as Hn. destruct (sources p); [reflexivity|].
    cbn in Hn. lia. }
  split; [exact Hsrc|]. split.
  - destruct (painted p) as [|f l] eqn:E; [reflexivity|]. exfalso.
    destruct (inv_painted video _ HI f) as (i & _ & _ & Hlt & _); [rewrite E; left|lia].
  - split.
    + pose proof (steady_requests video _ HS) as Hq.
      destruct (frameRequests p) as [|req l]; [reflexivity|]. exfalso.
      apply Forall_cons in Hq as [[_ Hlt] _]. lia.
    + split; [exact (steady_empty video _ HS Hzero)|].
      rewrite (steady_index video _ HS), Hsrc. reflexivity.
Qed.

(** X19.  What the end of loading does to a project with a segment.  On a
    running context: the decoded assets are stored, the source of segment
    0 plays and is bound, the segment's start time is the time of
    loading, and the effect has painted the first frame, at elapsed time
    [now - now], and requested one animation frame.  On a suspended
    context: the assets are stored and nothing else happens; no source,
    no frame, no request. *)
Theorem load_outcome (env : Env) :
  (1 <= segmentCount video)%nat ->
  (let p := step video (AssetsLoaded running) env initialPlayer in
   sources p = [{| sourceIndex := 0; sourceState := Playing;
                   sourceRender := initialRender |}] /\
   currentSourceRef p = Some 0%nat /\
   st p = {| isPlaying := true; currentSegmentIndex := 0; isLoaded := true |} /\
   rendered p = st p /\
   segmentStartTimeRef p = now env /\
   audioBuffersRef p = decodedAudio video /\ imageBitmapsRef p = decodedImages video /\
   painted p = [renderFrame video (decodedAudio video) (decodedImages video) 0
                            (now env - now env) (clientWidth env)] /\
   frameRequests p = [(1%nat, st p)]) /\
  (let p := step video (AssetsLoaded suspended) env initialPlayer in
   sources p = [] /\ currentSourceRef p = None /\
   st p = {| isPlaying := false; currentSegmentIndex := 0; isLoaded := true |} /\
   rendered p = st p /\
   audioBuffersRef p = decodedAudio video /\ imageBitmapsRef p = decodedImages video /\
   painted p = [] /\ frameRequests p = []).
Proof.
  intros Hpos.
  assert (E : (segmentCount video <=? 0)%nat = false) by (apply Nat.leb_gt; lia).
  unfold step, handle, loadAssets.
  rewrite decodedAudio_entries, decodedImages_entries, (decodeAssets_entries video).
  repeat (progress (cbv -[renderFrame audioEntry imageEntry segmentCount Qminus Nat.leb
                           map now clientWidth];
                    rewrite ?E)).
  auto 20.
Qed.

End PlayerMore.

(* ================================================================== *)
(** ** The pending render loops *)

Section LoopFacts.
Context `{B : Browser}.
Variable video : GeneratedVideo.t.

Lemma sameFrames_refl p : sameFrames p p.
Proof. unfold sameFrames. auto. Qed.

Lemma sameFrames_trans p q s : sameFrames p q -> sameFrames q s -> sameFrames p s.
Proof.
  unfold sameFrames. intros (A1 & A2 & A3 & A4) (C1 & C2 & C3 & C4).
  repeat split; congruence.
Qed.

Lemma renderLoop_paints r env p :
  isPlaying r = true -> (currentSegmentIndex r < segmentCount video)%nat ->
  isLoaded (rendered p) = true ->
  renderLoop video r env p
  = requestAnimationFrame r
      (withPainted
         (painted p ++ [renderFrame video (audioBuffersRef p) (imageBitmapsRef p)
                                    (currentSegmentIndex r)
                                    (now env - segmentStartTimeRef p) (clientWidth env)])
         p).
Proof.
  intros Hplay Hidx Hloaded. unfold renderLoop. rewrite Hloaded, Hplay. cbn [negb andb].
  destruct (Nat.leb_spec (segmentCount video) (currentSegmentIndex r)); [lia|]. reflexivity.
Qed.

(** The loop of a render in which [isPlaying] is clear asks for no frame
    unless the context is suspended. *)
Lemma renderLoop_idle r env p :
  isPlaying r = false -> contextIs suspended p = false ->
  sameFrames p (renderLoop video r env p).
Proof.
  intros Hidle Hsusp. unfold renderLoop. rewrite Hidle, Hsusp. cbn [negb andb].
  case_ifs; unfold sameFrames; simp_player; auto.
Qed.

Lemma stopCurrent_frames p : sameFrames p (stopCurrent p).
Proof. unfold stopCurrent. case_ifs; unfold sameFrames; simp_player; auto. Qed.

Lemma playSegment_frames r env index p :
  isPlaying r = false -> contextIs suspended p = false ->
  sameFrames p (playSegment video r env index p).
Proof.
  intros Hidle Hsusp. unfold playSegment.
  destruct (_ <=? _)%nat; [unfold sameFrames; simp_player; auto|].
  destruct (audioContextRef p) as [c|] eqn:Ectx; [|apply sameFrames_refl].
  set (q := setIsPlaying true _).
  assert (Hq : sameFrames p q /\ contextIs suspended q = false).
  { subst q. destruct (stopCurrent_frames p) as (E1 & E2 & E3 & E4).
    split; [unfold sameFrames; simp_player; auto|].
    unfold contextIs in *. simp_player.
    replace (audioContextRef (stopCurrent p)) with (audioContextRef p);
      [exact Hsusp|unfold stopCurrent; case_ifs; reflexivity]. }
  destruct Hq as [Hq Hqs].
  destruct (_ =? _)%nat; [|exact Hq].
  eapply sameFrames_trans; [exact Hq|apply renderLoop_idle; assumption].
Qed.

Lemma onended_frames j env p :
  (forall node, sources p !! j = Some node -> isPlaying (sourceRender node) = false) ->
  contextIs suspended p = false ->
  sameFrames p (onended video j env p).
Proof.
  intros Hclosure Hsusp. unfold onended.
  destruct (sources p !! j) as [node|] eqn:Ej; [|apply sameFrames_refl].
  eapply sameFrames_trans; [|apply playSegment_frames; [apply Hclosure; reflexivity|exact Hsusp]].
  unfold sameFrames. simp_player. auto.
Qed.

Lemma togglePlay_frames env p :
  isPlaying (rendered p) = false -> sameFrames p (togglePlay video env p).
Proof.
  intros Hidle. unfold togglePlay.
  destruct (audioContextRef p) as [c|] eqn:Ectx; [|apply sameFrames_refl].
  rewrite Hidle.
  set (q := if contextIs suspended p then withContext (Some running) p else p).
  assert (Hq : sameFrames p q /\ contextIs suspended q = false).
  { subst q. unfold contextIs. rewrite Ectx. destruct c.
    - split; [unfold sameFrames; simp_player; auto|reflexivity].
    - split; [apply sameFrames_refl|rewrite Ectx; reflexivity]. }
  clearbody q. destruct Hq as [Hq Hqs]. rewrite Hqs.
  assert (Hr : isPlaying (rendered p) = false) by exact Hidle.
  destruct (_ || _).
  - eapply sameFrames_trans; [exact Hq|apply playSegment_frames; assumption].
  - eapply sameFrames_trans; [exact Hq|].
    eapply sameFrames_trans; [|apply renderLoop_idle; [exact Hr|exact Hqs]].
    unfold sameFrames. simp_player. auto.
Qed.

Lemma loadAssets_frames c env p :
  isPlaying (rendered p) = false -> sameFrames p (loadAssets video c env p).
Proof.
  intros Hidle. unfold loadAssets. destruct (decodeAssets video) as [assets|e];
    [|unfold sameFrames; simp_player; auto].
  destruct c; [unfold sameFrames; simp_player; auto|].
  eapply sameFrames_trans; [|apply playSegment_frames; [exact Hidle|reflexivity]].
  unfold sameFrames. simp_player. auto.
Qed.

Lemma requestAnimationFrame_fresh r p :
  freshIds p -> freshIds (requestAnimationFrame r p) /\ latestPending (requestAnimationFrame r p).
Proof.
  intros (Hlt & Hnd & Hpos). split; [split; [|split]|].
  - simp_player. apply Forall_app. split.
    + eapply Forall_impl; [exact Hlt|]. cbn. intros req Hreq. lia.
    + constructor; [cbn; lia|constructor].
  - simp_player. rewrite map_app. cbn [map fst]. apply NoDup_app. split; [exact Hnd|].
    split; [|apply NoDup_singleton].
    intros id Hin Hin'. apply list_elem_of_singleton in Hin'. subst id.
    apply list_elem_of_fmap in Hin as (req & Hid & Hreq).
    rewrite Forall_forall in Hlt. specialize (Hlt req Hreq). lia.
  - simp_player. lia.
  - exists (frameRequests p), r. simp_player. reflexivity.
Qed.

(** The browser runs the pending loops: each paints one frame and asks
    for the next. *)
Lemma fold_loops env (reqs : list (nat * Render)) :
  Forall (fun req : nat * Render =>
            isPlaying (snd req) = true /\
            (currentSegmentIndex (snd req) < segmentCount video)%nat) reqs ->
  forall p,
    isLoaded (rendered p) = true -> freshIds p ->
    let q := fold_left (fun q (req : nat * Render) => renderLoop video (snd req) env q) reqs p in
    freshIds q /\
    map snd (frameRequests q) = map snd (frameRequests p) ++ map snd reqs /\
    painted q
    = painted p
      ++ map (fun req : nat * Render =>
                renderFrame video (audioBuffersRef p) (imageBitmapsRef p)
                            (currentSegmentIndex (snd req))
                            (now env - segmentStartTimeRef p) (clientWidth env)) reqs /\
    rendered q = rendered p /\
    (reqs <> [] -> latestPending q) /\
    (reqs = [] -> q = p).
Proof.
  induction 1 as [|req reqs [Hplay Hidx] _ IH]; intros p Hloaded Hfresh; cbv zeta;
    cbn [fold_left map].
  - rewrite !app_nil_r. split; [exact Hfresh|]. do 3 (split; [reflexivity|]).
    split; [intros Hne; congruence|reflexivity].
  - rewrite (renderLoop_paints (snd req) env p Hplay Hidx Hloaded).
    set (frame := renderFrame video (audioBuffersRef p) (imageBitmapsRef p)
                              (currentSegmentIndex (snd req))
                              (now env - segmentStartTimeRef p) (clientWidth env)).
    set (p1 := requestAnimationFrame _ _).
    assert (Hfresh0 : freshIds (withPainted (painted p ++ [frame]) p)) by exact Hfresh.
    destruct (requestAnimationFrame_fresh (snd req) _ Hfresh0) as [Hfresh1 Hlatest1].
    fold p1 in Hfresh1, Hlatest1.
    assert (Hloaded1 : isLoaded (rendered p1) = true) by exact Hloaded.
    destruct (IH p1 Hloaded1 Hfresh1) as (Hf & Hsnd & Hpaint & Hren & Hlast & Hnil).
    split; [exact Hf|]. split; [|split; [|split; [|split]]].
    + rewrite Hsnd. subst p1. simp_player. rewrite map_app, <- app_assoc. reflexivity.
    + rewrite Hpaint. subst p1. simp_player. rewrite <- app_assoc. reflexivity.
    + rewrite Hren. reflexivity.
    + intros _. destruct reqs as [|req' reqs'].
      * rewrite (Hnil eq_refl). exact Hlatest1.
      * apply Hlast. discriminate.
    + discriminate.
Qed.

Lemma fold_loops_transport env (reqs : list (nat * Render)) p :
  sameTransport p (fold_left (fun q (req : nat * Render) => renderLoop video (snd req) env q)
                             reqs p).
Proof.
  revert p. induction reqs as [|req reqs IH]; intros p; [apply sameTransport_refl|].
  cbn [fold_left]. eapply sameTransport_trans; [apply renderLoop_transport|apply IH].
Qed.

Lemma filter_all {A : Type} (P : A -> Prop) `{!forall x, Decision (P x)} (l : list A) :
  Forall P l -> filter P l = l.
Proof.
  induction 1 as [|x l Hx _ IH]; [reflexivity|].
  rewrite filter_cons_True by exact Hx. rewrite IH. reflexivity.
Qed.

Lemma NoDup_fst_filter {A C : Type} (P : A * C -> Prop) `{!forall x, Decision (P x)}
    (l : list (A * C)) :
  NoDup (map fst l) -> NoDup (map fst (filter P l)).
Proof.
  induction l as [|x l IH]; [intros _; constructor|].
  cbn [map]. intros Hnd. apply NoDup_cons in Hnd as [Hx Hnd].
  destruct (decide (P x)) as [HP|HP].
  - rewrite filter_cons_True by exact HP. cbn [map]. apply NoDup_cons. split; [|auto].
    intros Hin. apply Hx. apply list_elem_of_fmap in Hin as (y & Hy & Hin).
    apply list_elem_of_filter in Hin as [_ Hin]. apply list_elem_of_fmap. eauto.
  - rewrite filter_cons_False by exact HP. auto.
Qed.

(** Cancelling the latest request removes it and nothing else. *)
Lemma cancel_latest p :
  freshIds p -> latestPending p ->
  freshIds (cancelAnimationFrame (animationFrameRef p) p) /\
  exists r,
    frameRequests p
    = frameRequests (cancelAnimationFrame (animationFrameRef p) p)
      ++ [(animationFrameRef p, r)].
Proof.
  intros (Hlt & Hnd & Hpos) (front & r & Hreq). unfold cancelAnimationFrame, freshIds.
  simp_player.
  rewrite Hreq in *. rewrite map_app in Hnd. cbn [map fst] in Hnd.
  apply NoDup_app in Hnd as (Hnd & Hnot & _).
  assert (Hfilter : filter (fun req : nat * Render => fst req ≠ animationFrameRef p)
                           (front ++ [(animationFrameRef p, r)]) = front).
  { rewrite filter_app. cbn [filter list_filter]. rewrite decide_False by (cbn; auto).
    rewrite app_nil_r. apply filter_all, Forall_forall. intros req Hin Heq.
    apply (Hnot (fst req)); [apply list_elem_of_fmap; eauto|].
    rewrite Heq. apply list_elem_of_here. }
  rewrite Hfilter. split; [split; [|split]|].
  - apply Forall_app in Hlt as [Hlt _]. exact Hlt.
  - exact Hnd.
  - exact Hpos.
  - exists r. reflexivity.
Qed.

(** A pending latest request is not request 0. *)
Lemma latest_nonzero p : freshIds p -> latestPending p -> animationFrameRef p <> 0%nat.
Proof.
  intros (Hlt & _) (front & r & Hreq) Hzero. rewrite Hreq, Forall_app, Forall_singleton in Hlt.
  destruct Hlt as [_ [Hpos _]]. cbn in Hpos. lia.
Qed.

(** What React's commit does to the pending loops: nothing when neither
    [isPlaying] nor the index changed; one more, of the new render, when
    the effect runs with [isPlaying] set; the latest one cancelled when
    [isPlaying] was cleared. *)
Lemma commit_loops env h :
  Steady video h -> freshIds h ->
  (isPlaying (rendered h) = true -> latestPending h) ->
  freshIds (commit video env h) /\
  (isPlaying (st h) = true -> latestPending (commit video env h)) /\
  (isPlaying (rendered h) = isPlaying (st h) ->
   currentSegmentIndex (rendered h) = currentSegmentIndex (st h) ->
   frameRequests (commit video env h) = frameRequests h) /\
  (isPlaying (st h) = true ->
   isPlaying (rendered h) = false \/
   currentSegmentIndex (rendered h) <> currentSegmentIndex (st h) ->
   frameRequests (commit video env h) = frameRequests h ++ [(nextFrameId h, st h)]) /\
  (isPlaying (st h) = false -> isPlaying (rendered h) = true ->
   exists r,
     frameRequests h = frameRequests (commit video env h) ++ [(animationFrameRef h, r)]).
Proof.
  intros HS Hfresh Hlatest. unfold commit.
  destruct (Bool.eqb (isPlaying (rendered h)) (isPlaying (st h))
            && (currentSegmentIndex (rendered h) =? currentSegmentIndex (st h))%nat) eqn:Edeps.
  - apply andb_true_iff in Edeps as [Eplay Eidx].
    apply Bool.eqb_prop in Eplay. apply Nat.eqb_eq in Eidx.
    split; [exact Hfresh|]. split; [intros Hp; apply Hlatest; congruence|].
    split; [reflexivity|]. split; [intros Hp [Hr|Hr]; congruence|].
    intros Hp Hr. congruence.
  - assert (Hchanged : isPlaying (rendered h) <> isPlaying (st h) \/
                       currentSegmentIndex (rendered h) <> currentSegmentIndex (st h)).
    { apply andb_false_iff in Edeps as [E|E].
      - left. intros Heq. rewrite Heq, Bool.eqb_reflx in E. discriminate.
      - right. apply Nat.eqb_neq, E. }
    unfold playingEffect. destruct (isPlaying (st h)) eqn:Eplay.
    + assert (Hrun : audioContextRef h = Some running)
        by (apply (steady_running video _ HS); auto).
      assert (Hloaded : isLoaded (st h) = true)
        by (apply (steady_loaded video _ HS); rewrite Hrun; eauto).
      assert (Hidx : (currentSegmentIndex (st h) < segmentCount video)%nat).
      { pose proof (steady_count video _ HS). pose proof (steady_index video _ HS).
        pose proof (steady_empty video _ HS).
        destruct (segmentCount video); [rewrite H1 in Eplay by reflexivity; discriminate|lia]. }
      rewrite (renderLoop_paints (st h) env (withRendered (st h) h) Eplay Hidx Hloaded).
      destruct (requestAnimationFrame_fresh (st h)
                  (withPainted
                     (painted (withRendered (st h) h)
                      ++ [renderFrame video (audioBuffersRef (withRendered (st h) h))
                            (imageBitmapsRef (withRendered (st h) h))
                            (currentSegmentIndex (st h))
                            (now env - segmentStartTimeRef (withRendered (st h) h))
                            (clientWidth env)])
                     (withRendered (st h) h)) Hfresh) as [Hf Hl].
      split; [exact Hf|]. split; [intros _; exact Hl|].
      split; [intros E1 E2; destruct Hchanged; congruence|].
      split; [|discriminate].
      intros _ _. simp_player. reflexivity.
    + assert (Hwas : isPlaying (rendered h) = true \/ isPlaying (rendered h) = false)
        by (destruct (isPlaying (rendered h)); auto).
      destruct Hwas as [Hwas|Hwas].
      * specialize (Hlatest Hwas).
        pose proof (latest_nonzero h Hfresh Hlatest) as Hnz.
        replace (animationFrameRef (withRendered (st h) h) =? 0)%nat with false
          by (symmetry; apply Nat.eqb_neq; exact Hnz).
        cbn [negb].
        destruct (cancel_latest h Hfresh Hlatest) as [Hf Hleft].
        split; [exact Hf|]. split; [discriminate|].
        split; [intros E1 E2; congruence|]. split; [discriminate|].
        intros _ _. exact Hleft.
      * (* the index changed while nothing plays *)
        split.
        { destruct (negb _); [|exact Hfresh].
          destruct Hfresh as (Hlt & Hnd & Hpos). unfold freshIds, cancelAnimationFrame.
          simp_player. split; [|split; [|exact Hpos]].
          - apply Forall_forall. intros req Hin. apply list_elem_of_filter in Hin as [_ Hin].
            rewrite Forall_forall in Hlt. apply Hlt, Hin.
          - apply NoDup_fst_filter, Hnd. }
        split; [discriminate|].
        split; [intros E1 E2; destruct Hchanged; congruence|]. split; [discriminate|].
        intros _ Hr. congruence.
Qed.

End LoopFacts.

Section LoopTheorems.
Context `{B : Browser}.
Variable video : GeneratedVideo.t.

Lemma running_not_suspended p :
  audioContextRef p = Some running -> contextIs suspended p = false.
Proof. unfold contextIs. intros ->. reflexivity. Qed.

Lemma ended_closures (l : list SourceNode) j node :
  l !! j = Some node -> Forall idleClosure l -> Forall idleClosure (<[j := endNode node]> l).
Proof.
  intros Hj Hall. apply Forall_lookup. intros k nd Hk.
  destruct (decide (k = j)) as [->|Hne].
  - rewrite list_lookup_insert_eq in Hk by (eapply lookup_lt_Some; eauto).
    injection Hk as <-. cbn. exact (Forall_lookup_1 _ _ _ _ Hall Hj).
  - rewrite list_lookup_insert_ne in Hk by auto. exact (Forall_lookup_1 _ _ _ _ Hall Hk).
Qed.

(** What a handler other than the animation frame does to the sources
    and to [isPlaying]: nothing; or it starts a source, the first one or
    the successor of the one that ended; or it clears [isPlaying] after
    the last source; or it sets [isPlaying] and starts nothing. *)
Lemma handle_change ev env p :
  Settled video p -> Looping p -> enabled ev p -> ev <> AnimationFrame ->
  sameFrames p (handle video ev env (withClock (now env) p)) /\
  Steady video (handle video ev env (withClock (now env) p)) /\
  Forall idleClosure (sources (handle video ev env (withClock (now env) p))) /\
  ((length (sources (handle video ev env (withClock (now env) p))) = length (sources p) /\
    isPlaying (st (handle video ev env (withClock (now env) p))) = isPlaying (st p) /\
    currentSegmentIndex (st (handle video ev env (withClock (now env) p)))
    = currentSegmentIndex (st p)) \/
   (length (sources (handle video ev env (withClock (now env) p))) = S (length (sources p)) /\
    isPlaying (st (handle video ev env (withClock (now env) p))) = true /\
    ((isPlaying (st p) = false /\ sources p = []) \/
     (isPlaying (st p) = true /\ sources p <> [] /\
      currentSegmentIndex (st (handle video ev env (withClock (now env) p)))
      <> currentSegmentIndex (st p)))) \/
   (length (sources (handle video ev env (withClock (now env) p))) = length (sources p) /\
    sources p <> [] /\ isPlaying (st p) = true /\
    isPlaying (st (handle video ev env (withClock (now env) p))) = false) \/
   (length (sources (handle video ev env (withClock (now env) p))) = length (sources p) /\
    isPlaying (st p) = false /\
    isPlaying (st (handle video ev env (withClock (now env) p))) = true)).
Proof.
  intros [HS Hsync] HL Hen Hnot.
  pose proof (withClock_steady video (now env) p HS) as HSw.
  set (w := withClock (now env) p) in *.
  assert (Hw : sources w = sources p /\ st w = st p /\ rendered w = rendered p /\
               audioContextRef w = audioContextRef p /\ sameFrames p w).
  { subst w. unfold sameFrames. simp_player. auto 10. }
  destruct Hw as (Hwsrc & Hwst & Hwren & Hwctx & Hwf). clearbody w.
  pose proof (loop_closures _ HL) as Hcl.
  destruct ev as [c|j| |]; [| | |congruence]; cbn [handle enabled] in *.
  - (* the assets are loaded *)
    destruct (idle_unless_running video p HS) as (Hsrc & Hplay & _);
      [rewrite Hen; discriminate|].
    assert (Hidle : isPlaying (rendered w) = false) by congruence.
    split; [eapply sameFrames_trans; [exact Hwf|apply loadAssets_frames, Hidle]|].
    split; [apply loadAssets_steady; [exact HSw|congruence]|].
    unfold loadAssets. destruct (decodeAssets_Normal video) as [assets ->].
    set (q := setIsLoaded true _).
    assert (Hq : sources q = [] /\ isPlaying (st q) = false /\
                 currentSegmentIndex (st q) = currentSegmentIndex (st p) /\
                 audioContextRef q = Some c /\ rendered q = rendered p).
    { subst q. simp_player. rewrite Hwsrc, Hwst, Hwren, Hsrc, Hplay. auto 10. }
    destruct Hq as (Hqsrc & Hqplay & Hqidx & Hqctx & Hqren).
    destruct c.
    { rewrite Hqsrc, Hsrc, Hqplay, Hplay, Hqidx. split; [constructor|]. left. auto. }
    destruct (Nat.le_gt_cases (segmentCount video) 0) as [Hzero|Hpos].
    + rewrite (playSegment_end video _ env 0%nat q Hzero). simp_player.
      rewrite Hqsrc, Hsrc, Hplay, Hqidx. split; [constructor|]. left. auto.
    + destruct (playSegment_start video (rendered w) env 0%nat q Hpos Hqctx)
        as (s & -> & Hs & _ & Hst & _); [apply quiet_nil, Hqsrc|].
      rewrite Hs, Hst, Hqsrc, Hsrc. cbn [app length isPlaying currentSegmentIndex].
      split; [constructor; [exact Hidle|constructor]|]. right. left. auto.
  - (* a source has ended *)
    assert (Hen' : enabled (SourceEnded j) w)
      by (cbn [enabled]; rewrite Hwsrc, Hwctx; exact Hen).
    destruct (enabled_ended video w j HSw Hen')
      as (node & Hj & Hstate & Hlast & Hidx & Hrun & Hplay).
    assert (Hnode : isPlaying (sourceRender node) = false).
    { rewrite Hwsrc in Hj. exact (Forall_lookup_1 _ _ _ _ Hcl Hj). }
    split.
    { eapply sameFrames_trans; [exact Hwf|]. apply onended_frames.
      - intros nd Hnd. rewrite Hj in Hnd. injection Hnd as <-. exact Hnode.
      - apply running_not_suspended, Hrun. }
    split; [apply onended_steady; [exact HSw|exact Hen']|].
    unfold onended. rewrite Hj.
    destruct (ended_steady video w j node HSw Hj Hlast) as [HSq Hquiet].
    set (q := withSources _ _ _) in *.
    assert (Hq : length (sources q) = length (sources p) /\ st q = st p /\
                 audioContextRef q = Some running /\ Forall idleClosure (sources q)).
    { subst q. simp_player. split; [rewrite length_insert, Hwsrc; reflexivity|].
      split; [exact Hwst|]. split; [exact Hrun|].
      apply ended_closures; [exact Hj|]. rewrite Hwsrc. exact Hcl. }
    destruct Hq as (Hqlen & Hqst & Hqctx & Hqcl).
    assert (Hne : sources p <> []).
    { intros E. rewrite Hwsrc, E in Hj. discriminate. }
    assert (Hpidx : currentSegmentIndex (st p) = j).
    { rewrite (steady_index video _ HS). rewrite Hwsrc in Hlast. lia. }
    rewrite Hwst in Hplay. rewrite Hidx. replace (j + 1)%nat with (S j) by lia.
    destruct (Nat.le_gt_cases (segmentCount video) (S j)) as [Hge|Hlt].
    + rewrite (playSegment_end video _ env (S j) q Hge). simp_player.
      split; [exact Hqcl|]. right. right. left. auto.
    + destruct (playSegment_start video (sourceRender node) env (S j) q Hlt Hqctx Hquiet)
        as (s & -> & Hs & _ & Hst & _).
      rewrite Hs, Hst, length_app, Hqlen. cbn [length isPlaying currentSegmentIndex].
      split; [apply Forall_app; split; [exact Hqcl|constructor; [exact Hnode|constructor]]|].
      right. left. split; [lia|]. split; [reflexivity|]. right. split; [exact Hplay|].
      split; [exact Hne|]. lia.
  - (* the play overlay is clicked *)
    destruct Hen as [Hloaded Hidle].
    assert (Hplay : isPlaying (st p) = false) by congruence.
    assert (Hwidle : isPlaying (rendered w) = false) by congruence.
    split; [eapply sameFrames_trans; [exact Hwf|apply togglePlay_frames, Hwidle]|].
    split; [apply togglePlay_steady; [exact HSw|congruence|exact Hwidle]|].
    assert (Hctx : exists c, audioContextRef w = Some c).
    { rewrite Hwctx. rewrite Hsync in Hloaded.
      apply (steady_loaded video _ HS) in Hloaded as [c Hc]. eauto. }
    destruct Hctx as [c Hctx].
    pose proof (steady_quiet video p HS Hplay) as Hquiet.
    unfold togglePlay. rewrite Hctx, Hwidle.
    set (q := if contextIs suspended w then withContext (Some running) w else w).
    assert (Hq : Steady video q /\ audioContextRef q = Some running /\
                 sources q = sources p /\ st q = st p).
    { subst q. unfold contextIs. rewrite Hctx. destruct c.
      - split; [apply withContext_running_steady; [exact HSw|rewrite Hctx; eauto]|].
        simp_player. auto.
      - split; [exact HSw|]. auto. }
    clearbody q. destruct Hq as (Hq & Hrun & Hsrc & Hst).
    rewrite (running_not_suspended q Hrun), Hwren, Hsync, <- Hst, (restart_test video q Hq).
    assert (Hquiet' : quiet q) by (unfold quiet; rewrite Hsrc; exact Hquiet).
    destruct (bool_decide_reflect (sources q = [] /\ (segmentCount video <= 1)%nat))
      as [[Hnil Hone]|Hno].
    + destruct (Nat.eq_dec (segmentCount video) 0) as [Hzero|Hpos].
      * rewrite (playSegment_end video _ env 0%nat q) by lia. simp_player.
        rewrite Hsrc, Hst. split; [exact Hcl|]. left. auto.
      * destruct (playSegment_start video (st q) env 0%nat q)
          as (s & -> & Hs & _ & Hss & _); [lia|exact Hrun|exact Hquiet'|].
        rewrite Hs, Hss, Hnil. cbn [app length isPlaying].
        rewrite Hsrc in Hnil. rewrite Hnil.
        assert (Hqplay : isPlaying (st q) = false) by congruence.
        split; [constructor; [exact Hqplay|constructor]|]. right. left. auto.
    + destruct (renderLoop_transport video (st q) env (setIsPlaying true q))
        as (E1 & _ & _ & E4 & _).
      rewrite E1, E4. simp_player. rewrite Hsrc.
      split; [exact Hcl|]. right. right. right.
      split; [reflexivity|]. split; [congruence|reflexivity].
Qed.

Lemma loopCount_eq p q :
  length (sources q) = length (sources p) -> isPlaying (st q) = isPlaying (st p) ->
  loopCount q = loopCount p.
Proof. unfold loopCount. intros -> ->. reflexivity. Qed.

(** An animation frame runs every pending loop, the oldest first: each
    paints the frame of its own segment at the time elapsed in the
    current one, and is pending again. *)
Lemma runFrames_loops env p :
  Settled video p -> freshIds p ->
  freshIds (runFrames video env p) /\
  map snd (frameRequests (runFrames video env p)) = map snd (frameRequests p) /\
  painted (runFrames video env p)
  = painted p
    ++ map (fun req : nat * Render =>
              renderFrame video (audioBuffersRef p) (imageBitmapsRef p)
                          (currentSegmentIndex (snd req))
                          (now env - segmentStartTimeRef p) (clientWidth env))
           (frameRequests p) /\
  rendered (runFrames video env p) = rendered p /\
  (frameRequests p <> [] -> latestPending (runFrames video env p)).
Proof.
  intros [HS Hsync] Hfresh. unfold runFrames.
  destruct (frameRequests p) as [|req reqs] eqn:Ereq.
  - cbn [fold_left map]. unfold freshIds, latestPending. simp_player.
    destruct Hfresh as (_ & _ & Hpos). rewrite app_nil_r.
    split; [split; [constructor|split; [constructor|exact Hpos]]|].
    do 3 (split; [reflexivity|]). congruence.
  - assert (Hloaded : isLoaded (rendered p) = true).
    { rewrite Hsync. apply (steady_loaded video _ HS).
      rewrite (steady_running video _ HS); [eauto|].
      right. right. left. rewrite Ereq. discriminate. }
    pose proof (steady_requests video _ HS) as Hok. rewrite Ereq in Hok.
    destruct (fold_loops video env (req :: reqs) Hok
                (withFrames (animationFrameRef p) [] (nextFrameId p) p))
      as (Hf & Hsnd & Hpaint & Hren & Hlast & _).
    + exact Hloaded.
    + destruct Hfresh as (_ & _ & Hpos). unfold freshIds. simp_player.
      split; [constructor|split; [constructor|exact Hpos]].
    + split; [exact Hf|]. split; [exact Hsnd|]. split; [exact Hpaint|].
      split; [exact Hren|]. intros _. apply Hlast. discriminate.
Qed.

Lemma map_snd_length (p q : Player) :
  map snd (frameRequests q) = map snd (frameRequests p) ->
  length (frameRequests q) = length (frameRequests p).
Proof. intros E. apply (f_equal length) in E. rewrite !length_map in E. exact E. Qed.

(** One more loop after the loops of segments [0 .. n-1] is the loop of
    segment [n]. *)
Lemma renders_more (l : list (nat * Render)) (id : nat) (r : Render) :
  map snd l = map playingAt (seq 0 (length l)) ->
  r = playingAt (length l) ->
  map snd (l ++ [(id, r)]) = map playingAt (seq 0 (length (l ++ [(id, r)]))).
Proof.
  intros E ->. rewrite map_app, length_app. cbn [length map snd].
  rewrite Nat.add_1_r, seq_S, map_app, E. reflexivity.
Qed.

Lemma renders_less (l front : list (nat * Render)) (x : nat * Render) :
  map snd l = map playingAt (seq 0 (length l)) -> l = front ++ [x] ->
  map snd front = map playingAt (seq 0 (length front)).
Proof.
  intros E ->. rewrite map_app, length_app in E. cbn [length map] in E.
  rewrite Nat.add_1_r, seq_S, map_app in E. cbn [map] in E.
  apply app_inj_tail in E as [E _]. exact E.
Qed.

Lemma playingAt_eta (r : Render) :
  isPlaying r = true -> isLoaded r = true -> r = playingAt (currentSegmentIndex r).
Proof. destruct r. cbn. intros -> ->. reflexivity. Qed.

Lemma step_looping ev env p :
  Settled video p -> Looping p -> enabled ev p -> Looping (step video ev env p).
Proof.
  intros HSet HL Hen. destruct HSet as [HS Hsync].
  assert (Hframe : ev = AnimationFrame \/ ev <> AnimationFrame)
    by (destruct ev; auto; right; discriminate).
  destruct Hframe as [->|Hother].
  - (* an animation frame *)
    unfold step. cbn [handle].
    set (w := withClock (now env) p).
    assert (HSw : Settled video w) by (split; [apply withClock_steady, HS|exact Hsync]).
    assert (Hfw : freshIds w) by exact (loop_fresh _ HL).
    destruct (runFrames_loops env w HSw Hfw) as (Hf & Hsnd & _ & Hren & Hlast).
    pose proof (map_snd_length _ _ Hsnd) as Hlen.
    destruct (runFrames_transport video env w) as (Est & _ & _ & Esrc & _).
    set (h := runFrames video env w) in *.
    assert (HSh : Steady video h) by (apply runFrames_steady, HSw).
    assert (Hh : rendered h = st h) by (rewrite Hren, Est; exact Hsync).
    destruct (commit_loops video env h HSh Hf) as (Hcf & Hcl & Hsame & _).
    { intros Hp. apply Hlast. rewrite Hh, Est in Hp.
      pose proof (loop_count _ HL) as Hc. unfold loopCount in Hc.
      change (isPlaying (st w)) with (isPlaying (st p)) in Hp. rewrite Hp in Hc.
      change (frameRequests w) with (frameRequests p).
      intros E. rewrite E in Hc. cbn in Hc. lia. }
    destruct (commit_transport video env h) as (Cst & _ & _ & Csrc & _).
    constructor.
    + rewrite Hsame by (rewrite Hh; reflexivity). rewrite Hlen.
      change (frameRequests w) with (frameRequests p). rewrite (loop_count _ HL).
      symmetry. apply loopCount_eq; [rewrite Csrc, Esrc|rewrite Cst, Est]; reflexivity.
    + rewrite Hsame by (rewrite Hh; reflexivity). rewrite Hsnd, Hlen.
      exact (loop_renders _ HL).
    + exact Hcf.
    + rewrite Cst. exact Hcl.
    + rewrite Csrc, Esrc. exact (loop_closures _ HL).
  - (* any other event *)
    unfold step.
    destruct (handle_change ev env p (conj HS Hsync) HL Hen Hother)
      as ((Ef & Eref & Enext & Eren) & HSh & Hclosures & Hchange).
    set (h := handle video ev env (withClock (now env) p)) in *.
    assert (Hfh : freshIds h).
    { destruct (loop_fresh _ HL) as (H1 & H2 & H3). unfold freshIds.
      rewrite Ef, Enext. auto. }
    assert (Hlh : isPlaying (rendered h) = true -> latestPending h).
    { intros Hp. rewrite Eren, Hsync in Hp. destruct (loop_latest _ HL Hp) as (front & r & E).
      exists front, r. rewrite Ef, Eref. exact E. }
    destruct (commit_loops video env h HSh Hfh Hlh) as (Hcf & Hcl & Hsame & Hmore & Hless).
    destruct (commit_transport video env h) as (Cst & _ & _ & Csrc & _).
    pose proof (loop_count _ HL) as Hcount. rewrite <- Ef in Hcount.
    pose proof (loop_renders _ HL) as Hrenders. rewrite <- Ef in Hrenders.
    rewrite Eren, Hsync in Hsame, Hmore, Hless.
    assert (Hnew : isPlaying (st h) = true ->
                   st h = playingAt (length (sources h) - 1)).
    { intros Hp. rewrite <- (steady_index video _ HSh). apply playingAt_eta; [exact Hp|].
      apply (steady_loaded video _ HSh). rewrite (steady_running video _ HSh); eauto. }
    assert (Hboth :
      length (frameRequests (commit video env h)) = loopCount (commit video env h) /\
      map snd (frameRequests (commit video env h))
      = map playingAt (seq 0 (length (frameRequests (commit video env h))))).
    { unfold loopCount in *. rewrite Cst, Csrc.
      destruct Hchange as [(Hlen & Hp & Hi)|[(Hlen & Hp & Hwhy)|[(Hlen & Hne & Hp & Hp')
                                                                 |(Hlen & Hp & Hp')]]].
      + rewrite Hsame by congruence. split; [|exact Hrenders].
        rewrite Hcount, Hlen, Hp. reflexivity.
      + rewrite Hmore; [|exact Hp|destruct Hwhy as [[E _]|(_ & _ & E)]; auto].
        assert (Hn : length (frameRequests h) = (length (sources h) - 1)%nat).
        { rewrite Hcount, Hlen.
          destruct Hwhy as [[E Hnil]|(E & Hne & _)]; rewrite E.
          - rewrite Hnil. reflexivity.
          - destruct (sources p); [congruence|cbn; lia]. }
        split.
        * rewrite length_app, Hn, Hp, Hlen. cbn [length]. lia.
        * apply renders_more; [exact Hrenders|]. rewrite Hn. apply Hnew, Hp.
      + destruct (Hless Hp' Hp) as [r Hr]. split.
        * apply (f_equal length) in Hr. rewrite length_app in Hr. cbn [length] in Hr.
          rewrite Hp'. rewrite Hp in Hcount.
          destruct (sources p) eqn:E; [congruence|]. cbn [length] in *. lia.
        * eapply renders_less; [exact Hrenders|exact Hr].
      + rewrite Hmore; [|exact Hp'|auto].
        assert (Hn : length (frameRequests h) = (length (sources h) - 1)%nat)
          by (rewrite Hcount, Hp, Hlen; reflexivity).
        split.
        * rewrite length_app, Hn, Hp'. cbn [length]. lia.
        * apply renders_more; [exact Hrenders|]. rewrite Hn. apply Hnew, Hp'. }
    destruct Hboth as [H1 H2].
    constructor; [exact H1|exact H2|exact Hcf|rewrite Cst; exact Hcl|rewrite Csrc; exact Hclosures].
Qed.

Lemma initial_looping : Looping initialPlayer.
Proof.
  constructor.
  - reflexivity.
  - reflexivity.
  - unfold freshIds. cbn. split; [constructor|split; [constructor|lia]].
  - discriminate.
  - constructor.
Qed.

Lemma reachable_looping p : reachable video p -> Looping p.
Proof.
  induction 1 as [|p ev env Hreach IH Hen _]; [apply initial_looping|].
  apply step_looping; [apply reachable_settled, Hreach|exact IH|exact Hen].
Qed.

(** What an animation frame paints. *)
Lemma animation_frame_paints env p :
  Settled video p -> Looping p ->
  painted (step video AnimationFrame env p)
  = painted p
    ++ map (fun i => renderFrame video (audioBuffersRef p) (imageBitmapsRef p) i
                                 (now env - segmentStartTimeRef p) (clientWidth env))
           (seq 0 (loopCount p)).
Proof.
  intros [HS Hsync] HL. unfold step. cbn [handle].
  set (w := withClock (now env) p).
  assert (HSw : Settled video w) by (split; [apply withClock_steady, HS|exact Hsync]).
  destruct (runFrames_loops env w HSw (loop_fresh _ HL)) as (_ & _ & Hpaint & Hren & _).
  destruct (runFrames_transport video env w) as (Est & _).
  unfold commit.
  replace (Bool.eqb _ _ && (_ =? _)%nat) with true.
  - simp_player. rewrite Hpaint. subst w. simp_player. f_equal.
    rewrite <- (loop_count _ HL).
    rewrite <- (map_map snd (fun r : Render =>
                   renderFrame video (audioBuffersRef p) (imageBitmapsRef p)
                               (currentSegmentIndex r)
                               (now env - segmentStartTimeRef p) (clientWidth env))).
    rewrite (loop_renders _ HL), map_map. reflexivity.
  - rewrite Hren, Est. change (rendered w) with (rendered p). change (st w) with (st p).
    rewrite Hsync, Bool.eqb_reflx, Nat.eqb_refl. reflexivity.
Qed.

(** X25.  The render loops pile up.  In every reachable state the number
    of pending animation-frame requests is the number of sources created
    so far (one at least) while [isPlaying] is set, and one less once it
    was cleared: every start of a segment makes the effect start one more
    loop, and only the latest is ever cancelled.  An animation frame runs
    them all: as many frames are painted as requests were pending, and as
    many requests are pending afterwards.  So while the source of segment
    [k] plays, every animation frame paints [k + 1] frames. *)
Theorem render_loops_pile_up (p : Player) (env : Env) :
  reachable video p ->
  length (frameRequests p) = loopCount p /\
  length (frameRequests (step video AnimationFrame env p)) = length (frameRequests p) /\
  length (painted (step video AnimationFrame env p))
  = (length (painted p) + length (frameRequests p))%nat /\
  (forall k node,
     sources p !! k = Some node -> sourceState node = Playing ->
     length (painted (step video AnimationFrame env p)) = (length (painted p) + S k)%nat).
Proof.
  intros Hreach. pose proof (reachable_looping p Hreach) as HL.
  pose proof (reachable_settled video p Hreach) as [HS Hsync].
  split; [exact (loop_count _ HL)|].
  pose proof (step_looping AnimationFrame env p (conj HS Hsync) HL I) as HL'.
  assert (Hpainted : length (painted (step video AnimationFrame env p))
                     = (length (painted p) + length (frameRequests p))%nat).
  { rewrite (animation_frame_paints env p (conj HS Hsync) HL).
    rewrite length_app, length_map, length_seq, (loop_count _ HL). reflexivity. }
  split; [|split; [exact Hpainted|]].
  - rewrite (loop_count _ HL'), (loop_count _ HL).
    destruct (step_transport video AnimationFrame env p) as (Est & _ & _ & Esrc & _).
    cbn [handle] in Est, Esrc.
    destruct (runFrames_transport video env (withClock (now env) p)) as (E1 & _ & _ & E4 & _).
    apply loopCount_eq; [rewrite Esrc, E4|rewrite Est, E1]; reflexivity.
  - intros k node Hk Hplaying.
    destruct (steady_states video _ HS _ _ Hk) as [Hended|(_ & Hlast & Hflag)]; [congruence|].
    rewrite Hpainted, (loop_count _ HL). unfold loopCount. rewrite Hflag, <- Hlast. lia.
Qed.

(** X26.  What an animation frame leaves on the canvas.  In every
    reachable state the pending render loops are those of the segments
    [0], [1], ... in the order they were started, each with the segment
    index of the render it was made in.  An animation frame runs them in
    that order, and each paints the image and caption of its own segment
    at the time elapsed since the start of the current one.  The frame
    painted last is the one that stays: while [isPlaying] is set it is
    the frame of the current segment; once the last of two or more
    segments has ended, the loop of the last segment is the one cancelled
    and the canvas shows the segment before it. *)
Theorem newest_loop_paints_last (p : Player) (env : Env) :
  reachable video p ->
  painted (step video AnimationFrame env p)
  = painted p ++ map (frameOf video env p) (seq 0 (loopCount p)) /\
  (isPlaying (st p) = true ->
   last (painted (step video AnimationFrame env p))
   = Some (frameOf video env p (currentSegmentIndex (st p)))) /\
  (isPlaying (st p) = false -> (2 <= length (sources p))%nat ->
   last (painted (step video AnimationFrame env p))
   = Some (frameOf video env p (currentSegmentIndex (st p) - 1))).
Proof.
  intros Hreach. pose proof (reachable_looping p Hreach) as HL.
  pose proof (reachable_settled video p Hreach) as [HS Hsync].
  pose proof (animation_frame_paints env p (conj HS Hsync) HL) as Hpaint.
  fold (frameOf video env p) in Hpaint.
  pose proof (steady_index video _ HS) as Hidx.
  split; [exact Hpaint|]. split.
  - intros Hplay. rewrite Hpaint. unfold loopCount. rewrite Hplay.
    replace (Nat.max 1 (length (sources p))) with (S (currentSegmentIndex (st p))) by lia.
    rewrite seq_S, map_app, app_assoc. cbn [map]. apply last_snoc.
  - intros Hplay Hlen. rewrite Hpaint. unfold loopCount. rewrite Hplay.
    replace (length (sources p) - 1)%nat with (S (currentSegmentIndex (st p) - 1)) by lia.
    rewrite seq_S, map_app, app_assoc. cbn [map]. apply last_snoc.
Qed.

End LoopTheorems.

(* ================================================================== *)
(** ** Closed instances, on the demo browser *)

Lemma cases_atob : atob (Browser := Demo.browser) "AEAAwA==" = Some Cases.binaryString.
Proof. vm_compute. reflexivity. Qed.

Lemma cases_firstBuffer_stored :
  Cases.firstBuffer ∈ decodedAudio (B := Demo.browser) Demo.oneSegment.
Proof.
  rewrite decodedAudio_entries. cbn [Demo.oneSegment Demo.project GeneratedVideo.segments map].
  apply list_elem_of_singleton. reflexivity.
Qed.

Lemma sample_of_byte_pair_witness :
  atob (Browser := Demo.browser) "AEAAwA==" = Some Cases.binaryString /\
  exists b samples v,
    decodeAudio (B := Demo.browser) "AEAAwA==" = Normal b /\
    AudioBuffer.channelData b = [samples] /\
    samples !! 1%nat = Some (inject_Z v / 32768)%Q /\
    (-32768 <= v <= 32767)%Z /\
    ((v - (byteVal x00 + 256 * byteVal xc0)) mod 65536 = 0)%Z.
Proof.
  split; [exact cases_atob|].
  apply (sample_of_byte_pair (B := Demo.browser) "AEAAwA==" Cases.binaryString 1 x00 xc0
           cases_atob); reflexivity.
Defined.

Lemma stored_samples_are_normalized_witness :
  Cases.firstBuffer ∈ decodedAudio (B := Demo.browser) Demo.oneSegment /\
  (-1 <= 16384 # 32768)%Q /\ (16384 # 32768 < 1)%Q.
Proof.
  split; [exact cases_firstBuffer_stored|].
  assert (Hch : [(16384 # 32768)%Q; (-16384 # 32768)%Q]
                ∈ AudioBuffer.channelData Cases.firstBuffer)
    by (apply list_elem_of_singleton; vm_compute; reflexivity).
  assert (Hx : (16384 # 32768)%Q ∈ [(16384 # 32768)%Q; (-16384 # 32768)%Q])
    by (apply list_elem_of_here).
  exact (proj2 (stored_samples_are_normalized (B := Demo.browser) Demo.oneSegment
                  Cases.firstBuffer _ _ cases_firstBuffer_stored Hch Hx)).
Defined.

Lemma decodePCM_deinterleaves_witness :
  exists b,
    decodePCM (newUint8Array Cases.fourBytes) 24000 2 = Normal b /\
    AudioBuffer.numberOfChannels b = 2%nat /\
    AudioBuffer.length b = 1%nat /\
    wellFormed b.
Proof.
  assert (Heven : (length Cases.fourBytes mod 2 = 0)%nat) by reflexivity.
  assert (Hc : (1 <= 2 <= 32)%nat) by lia.
  assert (Hn : (2 <= length Cases.fourBytes / 2)%nat) by (cbn; lia).
  assert (Hlo : (8000 <= 24000)%Q) by (unfold Qle; cbn; lia).
  assert (Hhi : (24000 <= 96000)%Q) by (unfold Qle; cbn; lia).
  destruct (decodePCM_deinterleaves Cases.fourBytes 24000 2 Heven Hc Hn Hlo Hhi)
    as (b & Hb & Hch & Hlen & _ & Hwf & _).
  exists b. auto.
Defined.

Lemma stored_buffers_are_mono_witness :
  Cases.firstBuffer ∈ decodedAudio (B := Demo.browser) Demo.oneSegment /\
  AudioBuffer.numberOfChannels Cases.firstBuffer = 1%nat /\
  AudioBuffer.sampleRate Cases.firstBuffer = 24000%Q /\
  wellFormed Cases.firstBuffer.
Proof.
  split; [exact cases_firstBuffer_stored|].
  destruct (stored_buffers_are_mono (B := Demo.browser) Demo.oneSegment Cases.firstBuffer
              cases_firstBuffer_stored) as (H1 & H2 & _ & H4 & _).
  auto.
Defined.

Lemma cases_wrap :
  wordWrap (B := Demo.browser) 2 10 "hello big world" = ["hello big "; "world "]%string.
Proof. vm_compute. reflexivity. Qed.

Lemma wrapped_lines_fit_witness :
  "hello big "%string ∈ wordWrap (B := Demo.browser) 2 10 "hello big world" /\
  ((exists word, word ∈ split "hello big world" /\ "hello big "%string = (word ++ " ")%string) \/
   (measureText (Browser := Demo.browser) 2 "hello big " <= 10)%Q).
Proof.
  assert (Hin : "hello big "%string ∈ wordWrap (B := Demo.browser) 2 10 "hello big world")
    by (rewrite cases_wrap; apply list_elem_of_here).
  split; [exact Hin|].
  exact (wrapped_lines_fit (B := Demo.browser) 2 10 "hello big world" "hello big " Hin).
Defined.

Lemma wrap_breaks_only_when_needed_witness :
  exists word tail,
    "world "%string = (word ++ " " ++ tail)%string /\
    ~ In " "%char (list_ascii_of_string word) /\
    (10 < measureText (Browser := Demo.browser) 2 ("hello big " ++ word ++ " "))%Q.
Proof.
  apply (wrap_breaks_only_when_needed (B := Demo.browser) 2 10 "hello big world" 0
           "hello big " "world "); rewrite cases_wrap; reflexivity.
Defined.

Lemma coverFit_covers_witness :
  covers 640 360 (coverFit Cases.image 640 360).
Proof.
  assert (Hw : (0 < width Cases.image)%nat) by (cbn; lia).
  assert (Hh : (0 < height Cases.image)%nat) by (cbn; lia).
  assert (HW : (0 < 640)%Q) by reflexivity.
  assert (HH : (0 < 360)%Q) by reflexivity.
  exact (proj1 (coverFit_covers Cases.image 640 360 Hw Hh HW HH)).
Defined.

Lemma zoomed_image_covers_witness :
  covers 640 360
         (zoomed (kenBurnsScale (progress 1 2)) 640 360 (coverFit Cases.image 640 360)).
Proof.
  assert (Hw : (0 < width Cases.image)%nat) by (cbn; lia).
  assert (Hh : (0 < height Cases.image)%nat) by (cbn; lia).
  assert (HW : (0 < 640)%Q) by reflexivity.
  assert (HH : (0 < 360)%Q) by reflexivity.
  exact (proj1 (proj2 (zoomed_image_covers Cases.image 640 360 1 2 Hw Hh HW HH))).
Defined.

Lemma progress_bar_advances_witness :
  (totalProgressPct (decodedAudio (B := Demo.browser) Demo.twoSegments) 0 0 == 0)%Q.
Proof.
  assert (Hne : decodedAudio (B := Demo.browser) Demo.twoSegments <> [])
    by (rewrite decodedAudio_entries; discriminate).
  exact (proj1 (progress_bar_advances (decodedAudio (B := Demo.browser) Demo.twoSegments)
                  (decodedAudio_positive (B := Demo.browser) Demo.twoSegments) Hne)).
Defined.

Lemma cases_loaded_source : sources Demo.loadedOne !! 0%nat = Some Cases.playingNode.
Proof. vm_compute. reflexivity. Qed.

Lemma narration_runs_in_order_witness :
  reachable (B := Demo.browser) Demo.oneSegment Demo.loadedOne /\
  sources Demo.loadedOne !! 0%nat = Some Cases.playingNode /\
  sourceIndex Cases.playingNode = 0%nat /\
  (0 < segmentCount Demo.oneSegment)%nat.
Proof.
  split; [exact demo_loaded_reachable|]. split; [exact cases_loaded_source|].
  destruct (narration_runs_in_order (B := Demo.browser) Demo.oneSegment Demo.loadedOne 0
              Cases.playingNode demo_loaded_reachable cases_loaded_source) as (H1 & H2 & _).
  auto.
Defined.

Lemma cases_loaded_can_end : enabled (SourceEnded 0) Demo.loadedOne.
Proof. apply enabledb_sound. vm_compute. reflexivity. Qed.

Lemma ended_source_advances_witness :
  reachable (B := Demo.browser) Demo.oneSegment Demo.loadedOne /\
  enabled (SourceEnded 0) Demo.loadedOne /\
  ((segmentCount Demo.oneSegment <= 1)%nat ->
   length (sources (step (B := Demo.browser) Demo.oneSegment (SourceEnded 0) (Demo.at_ 1)
                         Demo.loadedOne)) = 1%nat /\
   quiet (step (B := Demo.browser) Demo.oneSegment (SourceEnded 0) (Demo.at_ 1)
               Demo.loadedOne) /\
   currentSegmentIndex (st (step (B := Demo.browser) Demo.oneSegment (SourceEnded 0)
                                 (Demo.at_ 1) Demo.loadedOne)) = 0%nat /\
   isPlaying (st (step (B := Demo.browser) Demo.oneSegment (SourceEnded 0) (Demo.at_ 1)
                       Demo.loadedOne)) = false).
Proof.
  split; [exact demo_loaded_reachable|]. split; [exact cases_loaded_can_end|].
  exact (proj2 (proj2 (ended_source_advances (B := Demo.browser) Demo.oneSegment
                         Demo.loadedOne 0 (Demo.at_ 1) demo_loaded_reachable
                         cases_loaded_can_end))).
Defined.

Lemma cases_finished_can_click : enabled Click Demo.finishedOne.
Proof. apply enabledb_sound. vm_compute. reflexivity. Qed.

Lemma play_button_starts_only_a_fresh_single_segment_witness :
  reachable (B := Demo.browser) Demo.oneSegment Demo.finishedOne /\
  enabled Click Demo.finishedOne /\
  audioContextRef (step (B := Demo.browser) Demo.oneSegment Click (Demo.at_ 2)
                        Demo.finishedOne) = Some running.
Proof.
  split; [exact demo_finishedOne_reachable|]. split; [exact cases_finished_can_click|].
  exact (proj1 (play_button_starts_only_a_fresh_single_segment (B := Demo.browser)
                  Demo.oneSegment Demo.finishedOne (Demo.at_ 2) demo_finishedOne_reachable
                  cases_finished_can_click)).
Defined.

Lemma cases_replayed_reachable :
  reachable (B := Demo.browser) Demo.oneSegment Cases.replayedOne.
Proof.
  apply (allowedb_reachable (B := Demo.browser)); [apply reachable_init|].
  vm_compute. reflexivity.
Qed.

Lemma cases_replayed_quiet : quiet Cases.replayedOne.
Proof. unfold quiet. vm_compute. constructor; [reflexivity|constructor]. Qed.

Lemma silent_playback_is_permanent_witness :
  reachable (B := Demo.browser) Demo.oneSegment Cases.replayedOne /\
  isPlaying (st Cases.replayedOne) = true /\ quiet Cases.replayedOne /\
  sources (run (B := Demo.browser) Demo.oneSegment
               [(AnimationFrame, Demo.at_ 3); (AnimationFrame, Demo.at_ 4)]
               Cases.replayedOne)
  = sources Cases.replayedOne.
Proof.
  assert (Hplay : isPlaying (st Cases.replayedOne) = true) by (vm_compute; reflexivity).
  assert (Hall : allowedb (B := Demo.browser) Demo.oneSegment
                          [(AnimationFrame, Demo.at_ 3); (AnimationFrame, Demo.at_ 4)]
                          Cases.replayedOne = true) by (vm_compute; reflexivity).
  split; [exact cases_replayed_reachable|]. split; [exact Hplay|].
  split; [exact cases_replayed_quiet|].
  exact (proj1 (proj2 (silent_playback_is_permanent (B := Demo.browser) Demo.oneSegment
                         Cases.replayedOne _ cases_replayed_reachable Hplay
                         cases_replayed_quiet Hall))).
Defined.

Lemma context_is_never_suspended_again_witness :
  reachable (B := Demo.browser) Demo.oneSegment Demo.loadedOne /\
  audioContextRef (step (B := Demo.browser) Demo.oneSegment AnimationFrame (Demo.at_ 1)
                        Demo.loadedOne) = Some running.
Proof.
  split; [exact demo_loaded_reachable|].
  apply (context_is_never_suspended_again (B := Demo.browser) Demo.oneSegment
           Demo.loadedOne AnimationFrame (Demo.at_ 1) demo_loaded_reachable I).
  vm_compute. reflexivity.
Defined.

Lemma cases_clickedEmpty_reachable :
  reachable (B := Demo.browser) Cases.emptyProject Cases.clickedEmpty.
Proof.
  apply (allowedb_reachable (B := Demo.browser)); [apply reachable_init|].
  vm_compute. reflexivity.
Qed.

Lemma empty_project_is_inert_witness :
  segmentCount Cases.emptyProject = 0%nat /\
  reachable (B := Demo.browser) Cases.emptyProject Cases.clickedEmpty /\
  sources Cases.clickedEmpty = [] /\ painted Cases.clickedEmpty = [] /\
  isPlaying (st Cases.clickedEmpty) = false.
Proof.
  split; [reflexivity|]. split; [exact cases_clickedEmpty_reachable|].
  destruct (empty_project_is_inert (B := Demo.browser) Cases.emptyProject Cases.clickedEmpty
              eq_refl cases_clickedEmpty_reachable) as (H1 & H2 & _ & H4 & _).
  auto.
Defined.

Lemma load_outcome_witness :
  (1 <= segmentCount Demo.oneSegment)%nat /\
  sources (step (B := Demo.browser) Demo.oneSegment (AssetsLoaded running) (Demo.at_ 0)
                initialPlayer) = [Cases.playingNode] /\
  sources (step (B := Demo.browser) Demo.oneSegment (AssetsLoaded suspended) (Demo.at_ 0)
                initialPlayer) = [].
Proof.
  assert (Hpos : (1 <= segmentCount Demo.oneSegment)%nat) by (cbn; lia).
  split; [exact Hpos|].
  destruct (load_outcome (B := Demo.browser) Demo.oneSegment (Demo.at_ 0) Hpos)
    as [(H1 & _) (H2 & _)].
  split; [exact H1|exact H2].
Defined.

Lemma cases_second_reachable :
  reachable (B := Demo.browser) Demo.twoSegments Cases.secondPlaying.
Proof.
  apply (allowedb_reachable (B := Demo.browser)); [apply reachable_init|].
  vm_compute. reflexivity.
Qed.

Lemma render_loops_pile_up_witness :
  reachable (B := Demo.browser) Demo.twoSegments Cases.secondPlaying /\
  sources Cases.secondPlaying !! 1%nat = Some Cases.secondNode /\
  length (painted (step (B := Demo.browser) Demo.twoSegments AnimationFrame (Demo.at_ 2)
                        Cases.secondPlaying))
  = (length (painted Cases.secondPlaying) + 2)%nat.
Proof.
  assert (Hnode : sources Cases.secondPlaying !! 1%nat = Some Cases.secondNode)
    by (vm_compute; reflexivity).
  split; [exact cases_second_reachable|]. split; [exact Hnode|].
  destruct (render_loops_pile_up (B := Demo.browser) Demo.twoSegments Cases.secondPlaying
              (Demo.at_ 2) cases_second_reachable) as (_ & _ & _ & Hk).
  exact (Hk 1%nat Cases.secondNode Hnode eq_refl).
Defined.

Lemma newest_loop_paints_last_witness :
  reachable (B := Demo.browser) Demo.twoSegments Demo.finishedTwo /\
  last (painted (step (B := Demo.browser) Demo.twoSegments AnimationFrame (Demo.at_ 3)
                      Demo.finishedTwo))
  = Some (frameOf (B := Demo.browser) Demo.twoSegments (Demo.at_ 3) Demo.finishedTwo 0).
Proof.
  split; [exact demo_finishedTwo_reachable|].
  destruct (newest_loop_paints_last (B := Demo.browser) Demo.twoSegments Demo.finishedTwo
              (Demo.at_ 3) demo_finishedTwo_reachable) as (_ & _ & Hfinished).
  apply Hfinished; vm_compute; [reflexivity|lia].
Defined.

(* ================================================================== *)
(** ** The generation workflow *)

Section WorkflowFacts.
Import Workflow.
Context `{G : Gemini}.
Context {Caller : Type}.
Variable onProgress : string -> Caller -> Caller.

Lemma getClient_run (w : World Caller) :
  getClient w = (if hasKey then Resolved tt else Rejected keyNotFound, w).
Proof. unfold getClient, hasKey. destruct API_KEY as [[|c s]|]; reflexivity. Qed.

Lemma generateImage_run (prompt : string) (aspectRatio : AspectRatio) (w : World Caller) :
  generateImage prompt aspectRatio w
  = if hasKey
    then (match generateContent (length (sent w)) (imageRequest prompt) with
          | Resolved response =>
              match firstInlineData (parts response) with
              | Some data => Resolved data
              | None => Rejected noImage
              end
          | Rejected reason => Rejected reason
          end, afterSend (imageRequest prompt) w)
    else (Rejected keyNotFound, w).
Proof.
  unfold generateImage, andThen. rewrite getClient_run.
  destruct hasKey; [|reflexivity]. unfold send, afterSend.
  destruct (generateContent _ _) as [response|reason]; [|reflexivity].
  destruct (firstInlineData _); reflexivity.
Qed.

Lemma generateAudio_run (text : string) (w : World Caller) :
  generateAudio text w
  = if hasKey
    then (match generateContent (length (sent w)) (audioRequest text) with
          | Resolved response =>
              match audioOf response with
              | Some audioData => Resolved audioData
              | None => Rejected noAudio
              end
          | Rejected reason => Rejected reason
          end, afterSend (audioRequest text) w)
    else (Rejected keyNotFound, w).
Proof.
  unfold generateAudio, andThen. rewrite getClient_run.
  destruct hasKey; [|reflexivity]. unfold send, afterSend.
  destruct (generateContent _ _) as [response|reason]; [|reflexivity].
  destruct (audioOf _); reflexivity.
Qed.

Lemma generateScript_run (topic style : string) (aspectRatio : AspectRatio)
    (w : World Caller) :
  generateScript topic style aspectRatio w
  = if hasKey
    then (match generateContent (length (sent w)) (scriptRequest topic style aspectRatio) with
          | Resolved response =>
              match parseScenes (textOrEmptyObject response) with
              | Resolved (Some scenes) => Resolved scenes
              | Resolved None => Resolved []
              | Rejected reason => Rejected reason
              end
          | Rejected reason => Rejected reason
          end, afterSend (scriptRequest topic style aspectRatio) w)
    else (Rejected keyNotFound, w).
Proof.
  unfold generateScript, andThen. rewrite getClient_run.
  destruct hasKey; [|reflexivity]. unfold send, afterSend.
  destruct (generateContent _ _) as [response|reason]; [|reflexivity].
  destruct (parseScenes _) as [[scenes|]|reason]; reflexivity.
Qed.

Lemma audioOf_nonempty (response : Response) (audioData : string) :
  audioOf response = Some audioData -> audioData <> EmptyString.
Proof.
  unfold audioOf. destruct (parts response) as [|part rest]; [discriminate|].
  destruct (inlineData part) as [[|c s]|]; try discriminate. intros [= <-]. discriminate.
Qed.

(** One pass of the loop body that succeeds. *)
Lemma sceneLoop_step style aspectRatio total scene rest i segments (w : World Caller) :
  sceneLoop onProgress style aspectRatio total (scene :: rest) i segments w
  = match generateImage (enhancedPrompt style scene) aspectRatio
            (snd (report onProgress (visualsMessage (S i) total) w)) with
    | (Resolved imageData, w1) =>
        match generateAudio (narration scene)
                (snd (report onProgress (voiceoverMessage (S i) total) w1)) with
        | (Resolved audioData, w2) =>
            sceneLoop onProgress style aspectRatio total rest (S i)
              (segments ++ [segmentOf scene (S i) (dateNow (clockReads w2))
                                      imageData audioData])
              (snd (now_ w2))
        | (Rejected reason, w2) => (Rejected reason, w2)
        end
    | (Rejected reason, w1) => (Rejected reason, w1)
    end.
Proof.
  cbn [sceneLoop]. unfold andThen at 1. cbn [report snd].
  unfold andThen at 1.
  destruct (generateImage _ _ _) as [[imageData|reason] w1]; [|reflexivity].
  unfold andThen at 1. cbn [report]. unfold andThen at 1.
  destruct (generateAudio _ _) as [[audioData|reason] w2]; [|reflexivity].
  unfold andThen at 1. cbn [now_ snd]. reflexivity.
Qed.

Lemma sceneLoop_resolved style aspectRatio total scenes :
  forall i segments (w w' : World Caller) result,
    sceneLoop onProgress style aspectRatio total scenes i segments w = (Resolved result, w') ->
    exists new,
      result = segments ++ new /\ length new = length scenes /\
      (forall k scene,
         scenes !! k = Some scene ->
         exists imageResponse audioResponse imageData audioData,
           generateContent (length (sent w) + 2 * k) (imageRequest (enhancedPrompt style scene))
           = Resolved imageResponse /\
           firstInlineData (parts imageResponse) = Some imageData /\
           generateContent (length (sent w) + 2 * k + 1) (audioRequest (narration scene))
           = Resolved audioResponse /\
           audioOf audioResponse = Some audioData /\
           new !! k = Some (segmentOf scene (S (i + k)) (dateNow (clockReads w + k))
                                      imageData audioData) /\
           audioData <> EmptyString) /\
      sent w' = sent w ++ flat_map (sceneRequests style) scenes /\
      caller w'
      = fold_left (fun s msg => onProgress msg s)
                  (flat_map (sceneMessages total) (seq (S i) (length scenes))) (caller w) /\
      clockReads w' = (clockReads w + length scenes)%nat.
Proof.
  induction scenes as [|scene rest IH]; intros i segments w w' result Hrun.
  - cbn in Hrun. injection Hrun as <- <-. exists []. rewrite app_nil_r, Nat.add_0_r.
    cbn [length flat_map seq fold_left]. rewrite app_nil_r.
    split; [reflexivity|]. split; [reflexivity|]. split; [|auto].
    intros k scene Hk. rewrite lookup_nil in Hk. discriminate.
  - rewrite sceneLoop_step, generateImage_run in Hrun.
    destruct hasKey eqn:Ekey; [|discriminate].
    cbn [report snd sent] in Hrun.
    destruct (generateContent _ (imageRequest _)) as [imageResponse|] eqn:Eimage;
      [|discriminate].
    destruct (firstInlineData _) as [imageData|] eqn:Edata; [|discriminate].
    rewrite generateAudio_run, Ekey in Hrun.
    cbn [report snd sent afterSend] in Hrun.
    destruct (generateContent _ (audioRequest _)) as [audioResponse|] eqn:Esound;
      [|discriminate].
    destruct (audioOf _) as [audioData|] eqn:Eaudio; [|discriminate].
    apply IH in Hrun as (new & -> & Hlen & Hat & Hsent & Hcaller & Hreads).
    cbn [report snd now_ afterSend sent clockReads caller] in *.
    rewrite !length_app in *. cbn [length] in *.
    eexists (_ :: new). split; [rewrite <- app_assoc; reflexivity|].
    split; [cbn; lia|]. split; [|split; [|split]].
    + intros [|k] scene' Hk.
      * cbn in Hk. injection Hk as <-. exists imageResponse, audioResponse, imageData, audioData.
        replace (length (sent w) + 2 * 0)%nat with (length (sent w)) by lia.
        rewrite !Nat.add_0_r.
        split; [exact Eimage|]. split; [exact Edata|]. split; [exact Esound|].
        split; [exact Eaudio|]. split; [reflexivity|].
        eapply audioOf_nonempty, Eaudio.
      * cbn in Hk.
        destruct (Hat k scene' Hk) as (imgR & audR & img & aud & H1 & H2 & H3 & H4 & Hnew & Hne).
        exists imgR, audR, img, aud.
        replace (length (sent w) + 2 * S k)%nat
          with (length (sent w) + 1 + 1 + 2 * k)%nat by lia.
        split; [exact H1|]. split; [exact H2|]. split; [exact H3|]. split; [exact H4|].
        split; [|exact Hne].
        change (new !! k = Some (segmentOf scene' (S (i + S k))
                                           (dateNow (clockReads w + S k)) img aud)).
        rewrite Hnew. replace (S (S i + k)) with (S (i + S k)) by lia.
        replace (S (clockReads w) + k)%nat with (clockReads w + S k)%nat by lia.
        reflexivity.
    + rewrite Hsent. cbn [flat_map sceneRequests]. rewrite <- !app_assoc. reflexivity.
    + rewrite Hcaller. reflexivity.
    + rewrite Hreads. cbn. lia.
Qed.

Lemma blames_refused (n : nat) (request : Request) (reason : Reason) :
  generateContent n request = Rejected reason -> blames n request reason.
Proof. unfold blames. intros ->. reflexivity. Qed.

Lemma sceneLoop_rejected style aspectRatio total scenes :
  forall i segments (w w' : World Caller) reason,
    sceneLoop onProgress style aspectRatio total scenes i segments w = (Rejected reason, w') ->
    (hasKey = false /\ reason = keyNotFound /\ sent w' = sent w) \/
    (hasKey = true /\
     exists earlier request,
       sent w' = sent w ++ earlier ++ [request] /\
       blames (length (sent w ++ earlier)) request reason).
Proof.
  induction scenes as [|scene rest IH]; intros i segments w w' reason Hrun;
    [discriminate|].
  rewrite sceneLoop_step, generateImage_run in Hrun.
  cbn [report snd afterSend sent clockReads caller] in Hrun.
  destruct hasKey eqn:Ekey; [right; split; [reflexivity|]|left].
  2:{ injection Hrun as <- <-. cbn. auto. }
  destruct (generateContent _ (imageRequest _)) as [imageResponse|refusal] eqn:Eimage.
  2:{ injection Hrun as <- <-. exists [], (imageRequest (enhancedPrompt style scene)).
      cbn [report snd afterSend sent app]. split; [reflexivity|].
      rewrite app_nil_r. apply blames_refused, Eimage. }
  destruct (firstInlineData _) as [imageData|] eqn:Edata.
  2:{ injection Hrun as <- <-. exists [], (imageRequest (enhancedPrompt style scene)).
      cbn [report snd afterSend sent app]. split; [reflexivity|].
      rewrite app_nil_r. unfold blames. rewrite Eimage. right. left. auto. }
  rewrite generateAudio_run, Ekey in Hrun.
  cbn [report snd afterSend sent clockReads caller] in Hrun.
  destruct (generateContent _ (audioRequest _)) as [audioResponse|refusal] eqn:Eaudio.
  2:{ injection Hrun as <- <-.
      exists [imageRequest (enhancedPrompt style scene)], (audioRequest (narration scene)).
      cbn [report snd afterSend sent app]. split; [rewrite <- app_assoc; reflexivity|].
      apply blames_refused, Eaudio. }
  destruct (audioOf _) as [audioData|] eqn:Enone.
  2:{ injection Hrun as <- <-.
      exists [imageRequest (enhancedPrompt style scene)], (audioRequest (narration scene)).
      cbn [report snd afterSend sent app]. split; [rewrite <- app_assoc; reflexivity|].
      unfold blames. rewrite Eaudio. right. right. auto. }
  apply IH in Hrun as [(Hno & _)|(_ & earlier & request & Hsent & Hblame)]; [congruence|].
  cbn [now_ snd sent afterSend] in Hsent, Hblame.
  exists (imageRequest (enhancedPrompt style scene) :: audioRequest (narration scene) :: earlier),
         request.
  split.
  - rewrite Hsent, <- !app_assoc. reflexivity.
  - rewrite <- !app_assoc in Hblame. exact Hblame.
Qed.

(** Whatever the outcome, the loop sends requests of its scenes only, and
    touches the caller's state through [onProgress] only. *)
Lemma sceneLoop_frame topic style aspectRatio total scenes :
  forall i segments (w w' : World Caller) outcome,
    sceneLoop onProgress style aspectRatio total scenes i segments w = (outcome, w') ->
    exists new msgs,
      sent w' = sent w ++ new /\ Forall (requestFor topic style) new /\
      caller w' = fold_left (fun s msg => onProgress msg s) msgs (caller w).
Proof.
  induction scenes as [|scene rest IH]; intros i segments w w' outcome Hrun.
  - injection Hrun as <- <-. exists [], []. rewrite app_nil_r. auto.
  - rewrite sceneLoop_step, generateImage_run in Hrun.
    cbn [report snd afterSend sent clockReads caller] in Hrun.
    assert (Himage : requestFor topic style (imageRequest (enhancedPrompt style scene))).
    { right. exists scene. apply list_elem_of_here. }
    assert (Haudio : requestFor topic style (audioRequest (narration scene))).
    { right. exists scene. apply list_elem_of_further, list_elem_of_here. }
    destruct hasKey eqn:Ekey.
    2:{ injection Hrun as <- <-. exists [], [visualsMessage (S i) total].
        rewrite app_nil_r. auto. }
    destruct (generateContent _ (imageRequest _)) as [imageResponse|refusal].
    2:{ injection Hrun as <- <-.
        exists [imageRequest (enhancedPrompt style scene)], [visualsMessage (S i) total].
        cbn [sent caller fold_left afterSend]. auto. }
    destruct (firstInlineData _) as [imageData|].
    2:{ injection Hrun as <- <-.
        exists [imageRequest (enhancedPrompt style scene)], [visualsMessage (S i) total].
        cbn [sent caller fold_left afterSend]. auto. }
    rewrite generateAudio_run, Ekey in Hrun.
    cbn [report snd afterSend sent clockReads caller] in Hrun.
    destruct (generateContent _ (audioRequest _)) as [audioResponse|refusal].
    2:{ injection Hrun as <- <-.
        exists [imageRequest (enhancedPrompt style scene); audioRequest (narration scene)],
               [visualsMessage (S i) total; voiceoverMessage (S i) total].
        cbn [sent caller fold_left afterSend]. rewrite <- app_assoc. auto. }
    destruct (audioOf _) as [audioData|].
    2:{ injection Hrun as <- <-.
        exists [imageRequest (enhancedPrompt style scene); audioRequest (narration scene)],
               [visualsMessage (S i) total; voiceoverMessage (S i) total].
        cbn [sent caller fold_left afterSend]. rewrite <- app_assoc. auto. }
    apply IH in Hrun as (new & msgs & Hsent & Hall & Hcaller).
    cbn [now_ snd sent caller afterSend] in Hsent, Hcaller.
    exists (imageRequest (enhancedPrompt style scene) :: audioRequest (narration scene) :: new),
           (visualsMessage (S i) total :: voiceoverMessage (S i) total :: msgs).
    split; [rewrite Hsent, <- !app_assoc; reflexivity|]. split; [auto|exact Hcaller].
Qed.

Lemma workflow_frame (topic style : string) (aspectRatio : AspectRatio)
    (w w' : World Caller) (outcome : Outcome GeneratedVideo.t) :
  generateVideoWorkflow onProgress topic style aspectRatio w = (outcome, w') ->
  exists new msgs,
    sent w' = sent w ++ new /\ Forall (requestFor topic style) new /\
    caller w' = fold_left (fun s msg => onProgress msg s) msgs (caller w).
Proof.
  intros Hrun. unfold generateVideoWorkflow in Hrun.
  unfold andThen at 1 in Hrun. cbn [report] in Hrun.
  unfold andThen at 1 in Hrun. rewrite generateScript_run in Hrun.
  cbn [afterSend sent clockReads caller] in Hrun.
  assert (Hscript : requestFor topic style (scriptRequest topic style aspectRatio))
    by (left; eauto).
  destruct hasKey.
  2:{ injection Hrun as <- <-. exists [], [planningMessage]. rewrite app_nil_r. auto. }
  set (parsed := match generateContent _ _ with
                 | Resolved response =>
                     match parseScenes (textOrEmptyObject response) with
                     | Resolved (Some scenes) => Resolved scenes
                     | Resolved None => Resolved []
                     | Rejected reason => Rejected reason
                     end
                 | Rejected reason => Rejected reason
                 end) in Hrun.
  destruct parsed as [scenes|reason].
  2:{ injection Hrun as <- <-.
      exists [scriptRequest topic style aspectRatio], [planningMessage].
      cbn [sent caller fold_left afterSend]. auto. }
  unfold andThen at 1 in Hrun.
  destruct (sceneLoop _ _ _ _ _ _ _ _) as [loop w1] eqn:Eloop.
  apply (sceneLoop_frame topic) in Eloop as (new & msgs & Hsent & Hall & Hcaller).
  cbn [sent caller afterSend] in Hsent, Hcaller.
  exists (scriptRequest topic style aspectRatio :: new), (planningMessage :: msgs).
  destruct loop as [segments|reason].
  - unfold andThen in Hrun. cbn [now_ ret] in Hrun. injection Hrun as <- <-.
    cbn [sent caller]. rewrite Hsent, <- app_assoc. auto.
  - injection Hrun as <- <-. rewrite Hsent, <- app_assoc. auto.
Qed.

(** X20.  A run of [generateVideoWorkflow] that resolves returns a video
    with the topic, style and aspect ratio it was given, the last two
    clock readings as id and timestamp, and one segment per scene of the
    script, in order.  The scenes are those parsed from the text of the
    answer to the script request, none if the JSON has no [scenes].
    Segment [k] has the narration of scene [k] as its text, its visual
    prompt as image prompt, the first inline data of the answer to the
    scene's image request as image data, the inline data of the first
    part of the answer to its audio request, which is not empty, as
    audio data, duration 5 and the id [seg-<time>-<k+1>].  The run has
    sent the script request and then, scene by scene, the image request
    (the visual prompt with the style keywords) and the audio request
    (the narration), nothing else; it has called [onProgress] with the
    planning message and the two messages of every scene, in order; it
    has read the clock once per scene and twice at the end. *)
Theorem workflow_builds_a_segment_per_scene (topic style : string)
    (aspectRatio : AspectRatio) (w w' : World Caller) (video : GeneratedVideo.t) :
  generateVideoWorkflow onProgress topic style aspectRatio w = (Resolved video, w') ->
  GeneratedVideo.topic video = topic /\ GeneratedVideo.style video = style /\
  GeneratedVideo.aspectRatio video = aspectRatio /\
  GeneratedVideo.id video = showZ (dateNow (clockReads w' - 2)) /\
  GeneratedVideo.timestamp video = inject_Z (dateNow (clockReads w' - 1)) /\
  exists script parsed scenes,
    generateContent (length (sent w)) (scriptRequest topic style aspectRatio)
    = Resolved script /\
    parseScenes (textOrEmptyObject script) = Resolved parsed /\
    scenes = default [] parsed /\
    length (GeneratedVideo.segments video) = length scenes /\
    (forall k scene,
       scenes !! k = Some scene ->
       exists imageResponse audioResponse segment,
         generateContent (length (sent w) + 1 + 2 * k)
                         (imageRequest (enhancedPrompt style scene))
         = Resolved imageResponse /\
         generateContent (length (sent w) + 1 + 2 * k + 1) (audioRequest (narration scene))
         = Resolved audioResponse /\
         GeneratedVideo.segments video !! k = Some segment /\
         VideoSegment.text segment = narration scene /\
         VideoSegment.imagePrompt segment = visual_prompt scene /\
         firstInlineData (parts imageResponse) = Some (VideoSegment.imageData segment) /\
         audioOf audioResponse = Some (VideoSegment.audioData segment) /\
         VideoSegment.audioData segment <> EmptyString /\
         VideoSegment.duration segment = 5%Q /\
         VideoSegment.id segment
         = ("seg-" ++ showZ (dateNow (clockReads w + k)) ++ "-" ++ showNat (S k))%string) /\
    sent w' = sent w ++ scriptRequest topic style aspectRatio
                     :: flat_map (sceneRequests style) scenes /\
    caller w' = fold_left (fun s msg => onProgress msg s) (runMessages scenes) (caller w) /\
    clockReads w' = (clockReads w + length scenes + 2)%nat.
Proof.
  intros Hrun. unfold generateVideoWorkflow in Hrun.
  unfold andThen at 1 in Hrun. cbn [report] in Hrun.
  unfold andThen at 1 in Hrun. rewrite generateScript_run in Hrun.
  destruct hasKey; [|discriminate]. cbn [sent] in Hrun.
  destruct (generateContent _ _) as [script|] eqn:Escript; [|discriminate].
  destruct (parseScenes _) as [parsed|] eqn:Eparse; [|discriminate].
  remember (default [] parsed) as scenes eqn:Hscenes.
  assert (Escenes : match parsed with
                    | Some scenes => Resolved scenes
                    | None => Resolved []
                    end = Resolved (A := list Scene) scenes)
    by (subst scenes; destruct parsed; reflexivity).
  rewrite Escenes in Hrun.
  unfold andThen at 1 in Hrun.
  destruct (sceneLoop _ _ _ _ _ _ _ _) as [[segments|reason] w1] eqn:Eloop; [|discriminate].
  unfold andThen in Hrun. cbn [now_ ret] in Hrun. injection Hrun as <- <-.
  apply sceneLoop_resolved in Eloop as (new & -> & Hlen & Hat & Hsent & Hcaller & Hreads).
  cbn [afterSend sent clockReads caller app] in *.
  cbn [GeneratedVideo.topic GeneratedVideo.style GeneratedVideo.aspectRatio
       GeneratedVideo.id GeneratedVideo.timestamp
       GeneratedVideo.segments sent clockReads caller].
  repeat (split; [reflexivity|]).
  split; [f_equal; f_equal; lia|]. split; [f_equal; f_equal; lia|].
  exists script, parsed, scenes. split; [reflexivity|]. split; [exact Eparse|].
  split; [exact Hscenes|]. split; [exact Hlen|]. split; [|split; [|split]].
  - intros k scene Hk.
    destruct (Hat k scene Hk) as (imgR & audR & img & aud & H1 & H2 & H3 & H4 & Hnew & Hne).
    rewrite length_app in H1, H3. cbn [length] in H1, H3.
    exists imgR, audR. eexists. split; [exact H1|]. split; [exact H3|].
    split; [exact Hnew|]. cbn. auto 10.
  - rewrite Hsent, <- app_assoc. reflexivity.
  - rewrite Hcaller. reflexivity.
  - rewrite Hreads. lia.
Qed.

(** X21.  A run of [generateVideoWorkflow] that rejects stops at the first
    failure.  Either there is no API key: the reason is the key error,
    nothing was sent and [onProgress] got the planning message only.  Or
    the last request sent is to blame, and the reason is its own: the API
    refused it, or the script it returned does not parse, or its answer
    holds no image, or no audio.  Nothing is sent after the request that
    failed. *)
Theorem rejection_comes_from_the_last_request (topic style : string)
    (aspectRatio : AspectRatio) (w w' : World Caller) (reason : Reason) :
  generateVideoWorkflow onProgress topic style aspectRatio w = (Rejected reason, w') ->
  (hasKey = false /\ reason = keyNotFound /\ sent w' = sent w /\
   caller w' = onProgress planningMessage (caller w)) \/
  (hasKey = true /\
   exists earlier request,
     sent w' = sent w ++ earlier ++ [request] /\
     blames (length (sent w ++ earlier)) request reason).
Proof.
  intros Hrun. unfold generateVideoWorkflow in Hrun.
  unfold andThen at 1 in Hrun. cbn [report] in Hrun.
  unfold andThen at 1 in Hrun. rewrite generateScript_run in Hrun.
  destruct hasKey eqn:Ekey; [right; split; [reflexivity|]|left].
  2:{ injection Hrun as <- <-. cbn. auto. }
  cbn [afterSend sent clockReads caller] in Hrun.
  destruct (generateContent _ _) as [response|refusal] eqn:Escript.
  2:{ injection Hrun as <- <-. exists [], (scriptRequest topic style aspectRatio).
      cbn [sent app]. split; [reflexivity|]. rewrite app_nil_r.
      apply blames_refused, Escript. }
  destruct (parseScenes _) as [parsed|failure] eqn:Eparse.
  2:{ injection Hrun as <- <-. exists [], (scriptRequest topic style aspectRatio).
      cbn [sent app]. split; [reflexivity|]. rewrite app_nil_r.
      unfold blames. rewrite Escript. left. auto. }
  set (scenes := match parsed with Some scenes => scenes | None => [] end).
  assert (Hrun' :
            andThen (sceneLoop onProgress style aspectRatio (length scenes) scenes 0 [])
              (fun segments =>
                 andThen now_ (fun id =>
                 andThen now_ (fun timestamp =>
                 ret {| GeneratedVideo.id := showZ id;
                        GeneratedVideo.topic := topic;
                        GeneratedVideo.style := style;
                        GeneratedVideo.aspectRatio := aspectRatio;
                        GeneratedVideo.segments := segments;
                        GeneratedVideo.timestamp := inject_Z timestamp |})))
              {| sent := sent w ++ [scriptRequest topic style aspectRatio];
                 clockReads := clockReads w;
                 caller := onProgress planningMessage (caller w) |}
            = (Rejected reason, w')).
  { subst scenes. destruct parsed; exact Hrun. }
  clear Hrun. unfold andThen at 1 in Hrun'.
  destruct (sceneLoop _ _ _ _ _ _ _ _) as [[segments|failure] w1] eqn:Eloop;
    [unfold andThen in Hrun'; cbn in Hrun'; discriminate|].
  injection Hrun' as <- <-.
  apply sceneLoop_rejected in Eloop
    as [(Hno & _)|(_ & earlier & request & Hsent & Hblame)]; [congruence|].
  cbn [sent] in Hsent, Hblame.
  exists (scriptRequest topic style aspectRatio :: earlier), request. split.
  - rewrite Hsent, <- !app_assoc. reflexivity.
  - rewrite <- !app_assoc in Hblame. exact Hblame.
Qed.

End WorkflowFacts.

(* ================================================================== *)
(** ** The application shell *)

Section ShellFacts.
Import Workflow Shell.
Context `{G : Gemini}.

(** Progress messages change the message only. *)
Lemma messages_keep_the_rest (msgs : list string) (a : App) :
  status (fold_left (fun s msg => setProgressMsg msg s) msgs a) = status a /\
  currentVideo (fold_left (fun s msg => setProgressMsg msg s) msgs a) = currentVideo a /\
  studio (fold_left (fun s msg => setProgressMsg msg s) msgs a) = studio a.
Proof.
  revert a. induction msgs as [|msg msgs IH]; intros a; [auto|].
  cbn [fold_left]. destruct (IH (setProgressMsg msg a)) as (-> & -> & ->). auto.
Qed.

(** What a click on the button leaves behind, whatever the outcome. *)
Lemma handleGenerate_outcome (topic style : string) (aspectRatio : AspectRatio)
    (w : World App) :
  exists new,
    sent (handleGenerate topic style aspectRatio w) = sent w ++ new /\
    Forall (requestFor topic style) new /\
    studio (caller (handleGenerate topic style aspectRatio w)) = studio (caller w) /\
    ((status (caller (handleGenerate topic style aspectRatio w)) = COMPLETED /\
      is_Some (currentVideo (caller (handleGenerate topic style aspectRatio w)))) \/
     (status (caller (handleGenerate topic style aspectRatio w)) = FAILED /\
      currentVideo (caller (handleGenerate topic style aspectRatio w))
      = currentVideo (caller w) /\
      exists reason,
        progressMsg (caller (handleGenerate topic style aspectRatio w))
        = ("Error: " ++ message reason)%string)).
Proof.
  unfold handleGenerate.
  set (w0 := withCaller _ w).
  destruct (generateVideoWorkflow setProgressMsg topic style aspectRatio w0)
    as [outcome w1] eqn:Erun.
  apply workflow_frame in Erun as (new & msgs & Hsent & Hall & Hcaller).
  destruct (messages_keep_the_rest msgs (caller w0)) as (Hstatus & Hvideo & Hstudio).
  rewrite <- Hcaller in Hstatus, Hvideo, Hstudio.
  exists new. destruct outcome as [result|error]; cbn [withCaller sent caller].
  - split; [exact Hsent|]. split; [exact Hall|]. cbn [setStatus setCurrentVideo studio status
                                                       currentVideo].
    split; [exact Hstudio|]. left. eauto.
  - split; [exact Hsent|]. split; [exact Hall|].
    cbn [setStatus setProgressMsg studio status currentVideo progressMsg].
    split; [exact Hstudio|]. right. split; [reflexivity|]. split; [exact Hvideo|eauto].
Qed.

Lemma initial_rest : Rest initialWorld.
Proof.
  constructor; cbn.
  - reflexivity.
  - split; [intros [v Hv]; discriminate|discriminate].
  - discriminate.
  - apply list_elem_of_further, list_elem_of_here.
  - intros request Hin. apply elem_of_nil in Hin. destruct Hin.
Qed.

Lemma step_rest (ev : Event) (w : World App) :
  Rest w -> enabled ev w -> Rest (step ev w).
Proof.
  intros [Hs Hv Hf Hst Hsent] Hen.
  destruct ev as [value|id|ar| |]; cbn [step enabled] in *.
  - constructor; cbn; assumption.
  - constructor; cbn; try assumption. apply Hen.
  - constructor; cbn; assumption.
  - destruct Hen as (Hnone & _ & Hblank). unfold studioHandleGenerate. rewrite Hblank.
    destruct (handleGenerate_outcome (topic (studio (caller w)))
                (selectedStyle (studio (caller w))) (aspectRatio (studio (caller w))) w)
      as (new & Hnew & Hall & Hstudio & Hout).
    set (w' := handleGenerate _ _ _ w) in *. clearbody w'.
    constructor.
    + destruct Hout as [[-> _]|[-> _]]; reflexivity.
    + destruct Hout as [[-> Hsome]|(-> & -> & _)].
      * split; auto.
      * rewrite Hnone. split; [intros [v Hv']; discriminate|discriminate].
    + intros Hfailed. destruct Hout as [[Hc _]|(_ & _ & Hmsg)]; [congruence|exact Hmsg].
    + rewrite Hstudio. exact Hst.
    + intros request Hin. rewrite Hnew in Hin. apply elem_of_app in Hin as [Hin|Hin];
        [apply Hsent, Hin|].
      exists (topic (studio (caller w))), (selectedStyle (studio (caller w))).
      split; [exact Hblank|]. split; [exact Hst|].
      rewrite Forall_forall in Hall. apply Hall, Hin.
  - constructor; cbn.
    + reflexivity.
    + split; [intros [v Hv']; discriminate|discriminate].
    + discriminate.
    + apply list_elem_of_further, list_elem_of_here.
    + exact Hsent.
Qed.

(** X24.  Between two events of the application: the status is IDLE,
    COMPLETED or FAILED, so the form is never left disabled, and
    GENERATING_ASSETS is never reached; there is a video, and the player
    is shown, exactly when the status is COMPLETED; with status FAILED
    the message shown starts with [Error: ]; the selected style is one of
    the four of [STYLES]; and every request ever sent belongs to a run
    for a topic that is not blank and one of these styles. *)
Theorem shell_is_at_rest_between_events (w : World App) :
  reachable w ->
  isGenerating (status (caller w)) = false /\
  status (caller w) <> GENERATING_ASSETS /\
  (is_Some (currentVideo (caller w)) <-> status (caller w) = COMPLETED) /\
  (status (caller w) = FAILED ->
   exists reason, progressMsg (caller w) = ("Error: " ++ message reason)%string) /\
  selectedStyle (studio (caller w)) ∈ STYLES /\
  (forall request,
     request ∈ sent w ->
     exists topic style,
       blank topic = false /\ style ∈ STYLES /\ requestFor topic style request).
Proof.
  intros Hreach.
  assert (HR : Rest w).
  { induction Hreach as [|w ev _ IH Hen]; [apply initial_rest|apply step_rest; assumption]. }
  destruct HR as [Hs Hv Hf Hst Hsent].
  split; [exact Hs|]. split; [intros E; rewrite E in Hs; discriminate|]. auto.
Qed.

(** X22.  Without an API key a click on the button changes the status to
    FAILED and the message to the key error, sends nothing and leaves the
    video and the form as they were. *)
Theorem generation_without_a_key_fails_at_once (topic style : string)
    (aspectRatio : AspectRatio) (w : World App) :
  hasKey = false ->
  handleGenerate topic style aspectRatio w
  = withCaller {| status := FAILED;
                  progressMsg := "Error: API Key not found. Please select a key.";
                  currentVideo := currentVideo (caller w);
                  studio := studio (caller w) |} w.
Proof.
  intros Hkey. unfold handleGenerate, generateVideoWorkflow.
  unfold andThen at 1. cbn [report]. unfold andThen at 1.
  rewrite generateScript_run, Hkey. reflexivity.
Qed.

Lemma textless_response_has_no_scenes (response : Response) :
  text response = None \/ text response = Some EmptyString ->
  parseScenes (textOrEmptyObject response) = Resolved None.
Proof.
  unfold textOrEmptyObject. intros [->| ->]; apply parseScenes_empty_object.
Qed.

(** X23.  When the answer to the script request has no text, or its JSON
    has no scenes or an empty list of them, the run completes all the
    same: the status is COMPLETED, the only request sent is the script
    request, the last message is the planning message, and the player is
    shown a video without segments. *)
Theorem script_without_scenes_completes (topic style : string)
    (aspectRatio : AspectRatio) (w : World App) (response : Response) :
  hasKey = true ->
  generateContent (length (sent w)) (scriptRequest topic style aspectRatio)
  = Resolved response ->
  text response = None \/ text response = Some EmptyString \/
  parseScenes (textOrEmptyObject response) = Resolved None \/
  parseScenes (textOrEmptyObject response) = Resolved (Some []) ->
  status (caller (handleGenerate topic style aspectRatio w)) = COMPLETED /\
  sent (handleGenerate topic style aspectRatio w)
  = sent w ++ [scriptRequest topic style aspectRatio] /\
  progressMsg (caller (handleGenerate topic style aspectRatio w)) = planningMessage /\
  exists video,
    currentVideo (caller (handleGenerate topic style aspectRatio w)) = Some video /\
    GeneratedVideo.segments video = [] /\
    GeneratedVideo.topic video = topic /\ GeneratedVideo.style video = style /\
    GeneratedVideo.aspectRatio video = aspectRatio.
Proof.
  intros Hkey Hanswer Hnone.
  assert (Hparsed : exists parsed,
             parseScenes (textOrEmptyObject response) = Resolved parsed /\
             match parsed with Some scenes => scenes | None => [] end = []).
  { destruct Hnone as [H|[H|[H|H]]].
    - exists None. split; [apply textless_response_has_no_scenes; auto|reflexivity].
    - exists None. split; [apply textless_response_has_no_scenes; auto|reflexivity].
    - exists None. auto.
    - exists (Some []). auto. }
  destruct Hparsed as (parsed & Hparse & Hempty).
  unfold handleGenerate. set (w0 := withCaller _ w).
  assert (Erun : exists video w1,
             generateVideoWorkflow setProgressMsg topic style aspectRatio w0
             = (Resolved video, w1) /\
             GeneratedVideo.segments video = [] /\
             GeneratedVideo.topic video = topic /\ GeneratedVideo.style video = style /\
             GeneratedVideo.aspectRatio video = aspectRatio /\
             sent w1 = sent w ++ [scriptRequest topic style aspectRatio] /\
             progressMsg (caller w1) = planningMessage).
  { unfold generateVideoWorkflow. unfold andThen at 1. cbn [report]. unfold andThen at 1.
    rewrite generateScript_run, Hkey. subst w0.
    cbn [withCaller sent clockReads caller afterSend].
    rewrite Hanswer, Hparse.
    replace (match parsed with
             | Some scenes => Resolved scenes
             | None => Resolved []
             end) with (Resolved (A := list Scene) [])
      by (destruct parsed; cbn in Hempty; rewrite ?Hempty; reflexivity).
    eexists. eexists. split; [reflexivity|]. cbn. auto 10. }
  destruct Erun as (video & w1 & -> & Hseg & Htopic & Hstyle & Har & Hsent & Hmsg).
  cbn [withCaller sent caller setStatus setCurrentVideo status progressMsg currentVideo].
  split; [reflexivity|]. split; [exact Hsent|]. split; [exact Hmsg|].
  exists video. auto.
Qed.

End ShellFacts.

(* ================================================================== *)
(** ** Closed instances, on the concrete backends *)

Lemma backends_working_run :
  Backends.run Backends.working
  = (Workflow.Resolved (Backends.videoOf Backends.working), snd (Backends.run Backends.working)).
Proof. vm_compute. reflexivity. Qed.

Lemma workflow_builds_a_segment_per_scene_witness :
  Backends.run Backends.working
  = (Workflow.Resolved (Backends.videoOf Backends.working),
     snd (Backends.run Backends.working)) /\
  GeneratedVideo.topic (Backends.videoOf Backends.working) = "space"%string /\
  GeneratedVideo.style (Backends.videoOf Backends.working) = "hype"%string /\
  length (GeneratedVideo.segments (Backends.videoOf Backends.working))
  = length Backends.scenes.
Proof.
  split; [exact backends_working_run|].
  destruct (workflow_builds_a_segment_per_scene (G := Backends.working) Backends.logging
              "space" "hype" PORTRAIT Backends.freshLog _ _ backends_working_run)
    as (H1 & H2 & _ & _ & _ & script & parsed & scenes & Hscript & Hparsed & Hscenes & Hlen & _).
  split; [exact H1|]. split; [exact H2|].
  injection Hscript as <-. vm_compute in Hparsed. injection Hparsed as <-.
  rewrite Hlen, Hscenes. reflexivity.
Defined.

Lemma backends_limited_run :
  Backends.run Backends.limited
  = (Workflow.Rejected (Backends.reasonOf Backends.limited),
     snd (Backends.run Backends.limited)).
Proof. vm_compute. reflexivity. Qed.

Lemma rejection_comes_from_the_last_request_witness :
  Backends.run Backends.limited
  = (Workflow.Rejected (Backends.reasonOf Backends.limited),
     snd (Backends.run Backends.limited)) /\
  exists earlier request,
    Workflow.sent (snd (Backends.run Backends.limited)) = earlier ++ [request] /\
    Workflow.blames (G := Backends.limited) (length earlier) request
                    (Backends.reasonOf Backends.limited).
Proof.
  split; [exact backends_limited_run|].
  destruct (rejection_comes_from_the_last_request (G := Backends.limited) Backends.logging
              "space" "hype" PORTRAIT Backends.freshLog _ _ backends_limited_run)
    as [(Hkey & _)|(_ & earlier & request & Hsent & Hblame)]; [discriminate Hkey|].
  exists earlier, request. split; [exact Hsent|exact Hblame].
Defined.

Lemma generation_without_a_key_fails_at_once_witness :
  Workflow.hasKey (G := Backends.keyless) = false /\
  Shell.status (Workflow.caller (Backends.generated Backends.keyless)) = Shell.FAILED.
Proof.
  split; [reflexivity|].
  unfold Backends.generated. cbn [Shell.step]. unfold Shell.studioHandleGenerate.
  change (Shell.blank (Shell.topic (Shell.studio (Workflow.caller Backends.typed))))
    with false. cbv iota.
  rewrite (generation_without_a_key_fails_at_once (G := Backends.keyless) _ _ _ _ eq_refl).
  reflexivity.
Defined.

Lemma script_without_scenes_completes_witness :
  Workflow.hasKey (G := Backends.mute) = true /\
  Shell.status (Workflow.caller
                  (Shell.handleGenerate (G := Backends.mute) "space" "hype" PORTRAIT
                                        Backends.typed)) = Shell.COMPLETED.
Proof.
  split; [reflexivity|].
  apply (script_without_scenes_completes (G := Backends.mute) "space" "hype" PORTRAIT
           Backends.typed {| Workflow.text := None; Workflow.parts := [] |} eq_refl eq_refl).
  left. reflexivity.
Defined.

Lemma backends_generated_reachable :
  Shell.reachable (G := Backends.working) (Backends.generated Backends.working).
Proof.
  apply Shell.reachable_step.
  - apply (Shell.reachable_step (G := Backends.working) _ (Shell.SetTopic "space"));
      [apply Shell.reachable_init|]. split; reflexivity.
  - repeat split; reflexivity.
Qed.

Lemma shell_is_at_rest_between_events_witness :
  Shell.reachable (G := Backends.working) (Backends.generated Backends.working) /\
  Shell.isGenerating (Shell.status (Workflow.caller (Backends.generated Backends.working)))
  = false.
Proof.
  split; [exact backends_generated_reachable|].
  exact (proj1 (shell_is_at_rest_between_events (G := Backends.working) _
                  backends_generated_reachable)).
Defined.

(* ================================================================== *)
(** ** The frames of the segment being played *)

Section PlayingFacts.
Context `{B : Browser}.
Variable video : GeneratedVideo.t.

Lemma playSegment_starts r env index p :
  length (sources (playSegment video r env index p)) = length (sources p) \/
  segmentStartTimeRef (playSegment video r env index p) = now env.
Proof.
  unfold playSegment. destruct (_ <=? _)%nat; [left; simp_player; reflexivity|].
  destruct (audioContextRef p); [|left; reflexivity].
  right. match goal with |- context [if ?b then _ else _] => destruct b end.
  - match goal with |- context [renderLoop video r env ?q] =>
      destruct (renderLoop_transport video r env q) as (_ & _ & _ & _ & E & _)
    end.
    rewrite E. simp_player. reflexivity.
  - simp_player. reflexivity.
Qed.

(** A handler that starts a source notes the time in
    [segmentStartTimeRef]. *)
Lemma handle_starts ev env p :
  length (sources (handle video ev env p)) = length (sources p) \/
  segmentStartTimeRef (handle video ev env p) = now env.
Proof.
  destruct ev as [c|j| |]; cbn [handle].
  - unfold loadAssets. destruct (decodeAssets video); [|left; simp_player; reflexivity].
    destruct c; [left; simp_player; reflexivity|].
    match goal with |- context [playSegment video ?r env 0 ?q] =>
      destruct (playSegment_starts r env 0 q) as [E|E]; [left|right; exact E]
    end.
    rewrite E. simp_player. reflexivity.
  - unfold onended. destruct (sources p !! j) as [node|] eqn:Ej; [|left; reflexivity].
    match goal with |- context [playSegment video ?r env ?i ?q] =>
      destruct (playSegment_starts r env i q) as [E|E]; [left|right; exact E]
    end.
    rewrite E. simp_player. apply length_insert.
  - unfold togglePlay. destruct (audioContextRef p) eqn:Ectx; [|left; reflexivity].
    set (q := if contextIs suspended p then _ else _).
    assert (Hq : sources q = sources p)
      by (subst q; destruct (contextIs suspended p); simp_player; reflexivity).
    clearbody q. rewrite <- Hq.
    destruct (isPlaying (rendered p)).
    { destruct (contextIs running q); left; simp_player; reflexivity. }
    destruct (contextIs suspended q).
    { left. match goal with |- context [renderLoop video ?r env ?x] =>
        destruct (renderLoop_transport video r env x) as (_ & _ & _ & E & _)
      end. rewrite E. simp_player. reflexivity. }
    match goal with |- context [if ?b then _ else _] => destruct b end.
    + apply playSegment_starts.
    + left. match goal with |- context [renderLoop video ?r env ?x] =>
        destruct (renderLoop_transport video r env x) as (_ & _ & _ & E & _)
      end. rewrite E. simp_player. reflexivity.
  - left. destruct (runFrames_transport video env p) as (_ & _ & _ & E & _).
    rewrite E. reflexivity.
Qed.

Lemma frames_transport ticks p : sameTransport p (run video (frames ticks) p).
Proof.
  revert p. induction ticks as [|env ticks IH]; intros p.
  - unfold sameTransport. cbn. auto 10.
  - cbn [frames map run]. fold (frames ticks).
    eapply sameTransport_trans; [|apply IH].
    eapply sameTransport_trans; [apply (withClock_transport (now env))|].
    eapply sameTransport_trans; [apply (runFrames_transport video env)|].
    exact (step_transport video AnimationFrame env p).
Qed.

Lemma timely_app t ticks env :
  timely t (ticks ++ [env]) -> timely t ticks /\ (t <= now env)%Q.
Proof.
  revert t. induction ticks as [|e ticks IH]; intros t; cbn [app timely].
  - intros [H _]. auto.
  - intros [H1 H2]. destruct (IH _ H2) as [H3 H4]. split; [auto|lra].
Qed.

(** Where the clock stands after a run of frames: times that do not run
    backwards from there on do not from the start either. *)
Lemma frames_clock ticks p env :
  Inv video p -> timely (clock p) (ticks ++ [env]) ->
  timely (clock p) ticks /\ (clock (run video (frames ticks) p) <= now env)%Q.
Proof.
  revert p. induction ticks as [|e ticks IH]; intros p HI; cbn [app timely frames map run].
  - intros [H _]. auto.
  - fold (frames ticks). intros [H1 H2].
    destruct (step_inv video AnimationFrame e p HI H1) as [HI' Hclock].
    rewrite <- Hclock in H2. destruct (IH _ HI' H2) as [H3 H4].
    rewrite Hclock in H3. auto.
Qed.

(** The frame of the segment being played.  Its source was started by
    the event [ev] at the time of [start]; only animation frames, at the
    times [ticks], have happened since.  The animation frame at the time
    of [env] then ends with the frame of that segment, painted from the
    decoded assets at the time elapsed since [start]. *)
Lemma playing_frame p0 ev start ticks env k node :
  reachable video p0 -> enabled ev p0 -> (clock p0 <= now start)%Q ->
  sources p0 !! k = None ->
  sources (step video ev start p0) !! k = Some node -> sourceState node = Playing ->
  timely (now start) (ticks ++ [env]) ->
  sourceIndex node = k /\
  currentSegmentIndex (st (run video (frames ticks) (step video ev start p0))) = k /\
  (k < segmentCount video)%nat /\ (now start <= now env)%Q /\
  last (painted (step video AnimationFrame env
                      (run video (frames ticks) (step video ev start p0))))
  = Some (renderFrame video (decodedAudio video) (decodedImages video) k
                      (now env - now start) (clientWidth env)).
Proof.
  intros Hreach Hen Hle Hnone Hnode Hplaying Htimely.
  set (p1 := step video ev start p0) in *.
  assert (Hreach1 : reachable video p1) by (apply reachable_step; assumption).
  assert (Hclock1 : clock p1 = now start)
    by (apply (step_inv video ev start p0 (reachable_inv video p0 Hreach) Hle)).
  assert (Hstart : segmentStartTimeRef p1 = now start).
  { destruct (step_transport video ev start p0) as (_ & _ & _ & Esrc & Etime & _).
    fold p1 in Esrc, Etime. rewrite Etime.
    destruct (handle_starts ev start (withClock (now start) p0)) as [Hlen|Hnow];
      [|exact Hnow].
    exfalso. apply lookup_ge_None in Hnone. apply lookup_lt_Some in Hnode.
    rewrite Esrc, Hlen in Hnode. change (sources (withClock (now start) p0))
      with (sources p0) in Hnode. lia. }
  rewrite <- Hclock1 in Htimely.
  destruct (frames_clock ticks p1 env (reachable_inv video p1 Hreach1) Htimely)
    as [Hticks Hlast].
  pose proof (timely_app _ _ _ Htimely) as [_ Hafter]. rewrite Hclock1 in Hafter.
  pose proof (reachable_frames video ticks p1 Hreach1 Hticks) as Hreachp.
  destruct (frames_transport ticks p1) as (Est & Ectx & _ & Esrc & Etime & _).
  set (p := run video (frames ticks) p1) in *.
  pose proof (reachable_settled video p Hreachp) as [HS Hsync].
  pose proof (reachable_looping video p Hreachp) as HL.
  rewrite <- Esrc in Hnode.
  destruct (steady_states video _ HS _ _ Hnode) as [Hended|(_ & Hk & Hflag)]; [congruence|].
  pose proof (steady_index video _ HS) as Hidx.
  pose proof (steady_count video _ HS) as Hcount.
  assert (Hrun : audioContextRef p = Some running).
  { apply (steady_running video _ HS). left. intros E. rewrite E in Hk. cbn in Hk. lia. }
  destruct (reachable_loaded video p Hreachp) as [Haudio Himages]; [rewrite Hrun; eauto|].
  split; [exact (steady_order video _ HS _ _ Hnode)|].
  split; [lia|]. split; [lia|]. split; [exact Hafter|].
  rewrite (animation_frame_paints video env p (conj HS Hsync) HL).
  unfold loopCount. rewrite Hflag.
  replace (Nat.max 1 (length (sources p))) with (S k) by lia.
  rewrite seq_S, map_app, app_assoc. cbn [map Nat.add].
  rewrite last_snoc, Haudio, Himages, Etime, Hstart. reflexivity.
Qed.

(** The loop of lines 330-331 adds up the durations. *)
Lemma sumDurations_sumOf (l : list AudioBuffer.t) :
  (sumDurations l == sumOf (map AudioBuffer.duration l))%Q.
Proof.
  induction l as [|b l IH]; [reflexivity|].
  change (b :: l) with ([b] ++ l). rewrite sumDurations_app. cbn [app map sumOf fold_right].
  fold (sumOf (map AudioBuffer.duration l)). rewrite <- IH.
  unfold sumDurations at 1. cbn [fold_left]. lra.
Qed.

Lemma totalProgressPct_spec (k : nat) (elapsed : Q) :
  (totalProgressPct (decodedAudio video) k elapsed
   == Qmin (specFraction video k elapsed) 1)%Q.
Proof.
  unfold totalProgressPct, specFraction. cbv zeta.
  rewrite firstn_map, <- !sumDurations_sumOf. reflexivity.
Qed.

(** C6 (amended).  The event [ev] at the time of [start] starts the
    source of segment [k]; animation frames follow at the times [ticks]
    and at the time of [env], the narration still playing.  The frame the
    loop of segment [k] paints on that animation frame, the last one
    painted, is of segment [k], the current one, and its progress bar is
    filled to the smaller of 1 and (decoded durations of the segments
    before [k] + time since [start]) / (decoded durations of all
    segments).  The fraction lies in [0, 1] and is the quotient whenever
    that is at most 1.  With decoded durations of 3 s and 2 s the
    fraction is 0.6 at 3 s of playback, be it the end of segment 0 or the
    start of segment 1.  Frames painted by the loops left over from
    earlier segments are not covered. *)
Theorem bar_fraction_is_capped (p0 : Player) (ev : Event) (start : Env)
    (ticks : list Env) (env : Env) (k : nat) (node : SourceNode) :
  reachable video p0 -> enabled ev p0 -> (clock p0 <= now start)%Q ->
  sources p0 !! k = None ->
  sources (step video ev start p0) !! k = Some node -> sourceState node = Playing ->
  timely (now start) (ticks ++ [env]) ->
  sourceIndex node = k /\
  exists f,
    last (painted (step video AnimationFrame env
                        (run video (frames ticks) (step video ev start p0)))) = Some f /\
    frameSegment f = k /\
    currentSegmentIndex (st (run video (frames ticks) (step video ev start p0))) = k /\
    (frameBar f == Qmin (specFraction video k (now env - now start)) 1)%Q /\
    (0 <= frameBar f <= 1)%Q /\
    ((specFraction video k (now env - now start) <= 1)%Q ->
     (frameBar f == specFraction video k (now env - now start))%Q) /\
    forall b0 b1 : AudioBuffer.t,
      decodedAudio video = [b0; b1] ->
      (AudioBuffer.duration b0 == 3)%Q -> (AudioBuffer.duration b1 == 2)%Q ->
      (k = 0%nat /\ (now env - now start == 3000)%Q) \/
      (k = 1%nat /\ (now env - now start == 0)%Q) ->
      (frameBar f == 0.6)%Q.
Proof.
  intros Hreach Hen Hle Hnone Hnode Hplaying Htimely.
  destruct (playing_frame p0 ev start ticks env k node
              Hreach Hen Hle Hnone Hnode Hplaying Htimely)
    as (Hsource & Hidx & Hk & Hafter & Hlast).
  split; [exact Hsource|]. eexists. split; [exact Hlast|]. cbn [renderFrame frameSegment frameBar].
  split; [reflexivity|]. split; [exact Hidx|].
  pose proof (totalProgressPct_spec k (now env - now start)) as Hspec.
  split; [exact Hspec|]. split; [|split].
  - apply bar_bounds; [apply decodedAudio_positive| |lra].
    rewrite decodedAudio_entries. unfold segmentCount in Hk.
    destruct (GeneratedVideo.segments video); [cbn in Hk; lia|discriminate].
  - intros Hone. rewrite Hspec. apply Q.min_l. exact Hone.
  - intros b0 b1 Hdec H0 H1 Hwhen. rewrite Hspec. unfold specFraction. rewrite Hdec.
    cbn [map]. destruct Hwhen as [[-> E]|[-> E]]; cbn [take sumOf fold_right];
      rewrite E, H0, H1.
    + assert (E' : ((0 + 3000 / 1000) / (3 + (2 + 0)) == 0.6)%Q) by reflexivity.
      rewrite E'. apply Q.min_l. unfold Qle. cbn. lia.
    + assert (E' : ((3 + 0 + 0 / 1000) / (3 + (2 + 0)) == 0.6)%Q) by reflexivity.
      rewrite E'. apply Q.min_l. unfold Qle. cbn. lia.
Qed.







End PlayingFacts.

(** Closed instances. *)

Lemma cases_threeTwo_reachable :
  reachable (B := Demo.browser) Cases.threeTwo Cases.threeTwoLoaded.
Proof.
  apply (allowedb_reachable (B := Demo.browser)); [apply reachable_init|].
  vm_compute. reflexivity.
Qed.

Lemma bar_fraction_is_capped_witness :
  reachable (B := Demo.browser) Cases.threeTwo Cases.threeTwoLoaded /\
  exists f g,
    last (painted (step (B := Demo.browser) Cases.threeTwo AnimationFrame (Demo.at_ (1 # 8))
                        (run (B := Demo.browser) Cases.threeTwo (frames [])
                             (step (B := Demo.browser) Cases.threeTwo (SourceEnded 0)
                                   (Demo.at_ (1 # 8)) Cases.threeTwoLoaded))))
    = Some f /\
    frameSegment f = 1%nat /\ (frameBar f == 0.6)%Q /\
    last (painted (step (B := Demo.browser) Cases.threeTwo AnimationFrame (Demo.at_ (1 # 6))
                        (run (B := Demo.browser) Cases.threeTwo (frames [Demo.at_ (1 # 8)])
                             (step (B := Demo.browser) Cases.threeTwo (SourceEnded 0)
                                   (Demo.at_ (1 # 8)) Cases.threeTwoLoaded))))
    = Some g /\
    frameSegment g = 1%nat /\ (frameBar g == 0.8)%Q.
Proof.
  split; [exact cases_threeTwo_reachable|].
  assert (Hen : enabled (SourceEnded 0) Cases.threeTwoLoaded).
  { exists Cases.firstNode. split; [vm_compute; reflexivity|]. left. split; reflexivity. }
  assert (Hle : (clock Cases.threeTwoLoaded <= now (Demo.at_ (1 # 8)))%Q)
    by (vm_compute; discriminate).
  assert (Hat : timely (now (Demo.at_ (1 # 8))) ([] ++ [Demo.at_ (1 # 8)]))
    by (split; [vm_compute; discriminate|exact I]).
  assert (Hlater : timely (now (Demo.at_ (1 # 8)))
                          ([Demo.at_ (1 # 8)] ++ [Demo.at_ (1 # 6)])).
  { split; [vm_compute; discriminate|]. split; [vm_compute; discriminate|exact I]. }
  destruct (bar_fraction_is_capped (B := Demo.browser) Cases.threeTwo
              Cases.threeTwoLoaded (SourceEnded 0) (Demo.at_ (1 # 8)) []
              (Demo.at_ (1 # 8)) 1%nat Cases.secondNode cases_threeTwo_reachable Hen Hle
              ltac:(vm_compute; reflexivity) ltac:(vm_compute; reflexivity) eq_refl Hat)
    as (_ & f & Hf & Hfseg & _ & Hfbar & _).
  destruct (bar_fraction_is_capped (B := Demo.browser) Cases.threeTwo
              Cases.threeTwoLoaded (SourceEnded 0) (Demo.at_ (1 # 8)) [Demo.at_ (1 # 8)]
              (Demo.at_ (1 # 6)) 1%nat Cases.secondNode cases_threeTwo_reachable Hen Hle
              ltac:(vm_compute; reflexivity) ltac:(vm_compute; reflexivity) eq_refl Hlater)
    as (_ & g & Hg & Hgseg & _ & Hgbar & _).
  exists f, g. split; [exact Hf|]. split; [exact Hfseg|].
  split; [rewrite Hfbar; vm_compute; reflexivity|].
  split; [exact Hg|]. split; [exact Hgseg|].
  rewrite Hgbar. vm_compute. reflexivity.
Defined.

(** C6, the claim as stated, fails on a frame painted after the current
    narration's length has passed and before its [ended] event arrives:
    one millisecond into segment 0, which lasts 1/12 ms of 1/6 ms in all,
    the claimed quotient is 6, and the bar is capped at 1. *)
Lemma bar_fraction_counterexample :
  reachable (B := Demo.browser) Demo.twoSegments Demo.overdueTwo /\
  sources Demo.overdueTwo !! 0%nat = Some Cases.firstNode /\
  last (painted Demo.overdueTwo) = Some Demo.overdueFrame /\
  (specFraction (B := Demo.browser) Demo.twoSegments 0 (1 - 0) == 6)%Q /\
  ~ ((frameBar Demo.overdueFrame
      == specFraction (B := Demo.browser) Demo.twoSegments 0 (1 - 0))%Q /\
     (0 <= frameBar Demo.overdueFrame <= 1)%Q).
Proof.
  split; [exact demo_overdue_reachable|]. split; [vm_compute; reflexivity|].
  split; [vm_compute; reflexivity|]. split; [vm_compute; reflexivity|].
  intros [Heq _]. vm_compute in Heq. discriminate Heq.
Qed.


Section Doubles.
Import PrimFloat.
#[local] Set Warnings "-inexact-float".


(** The end values of the zoom hold in the browser's arithmetic as they
    do in exact arithmetic: 1.0 + 0 * 0.15 is 1 and 1.0 + 1 * 0.15 is the
    double 1.15. *)
Lemma binary64_end_values :
  Binary64.scale 0 = 1%float /\ Binary64.scale 1 = 1.15%float /\
  Binary64.progress 0 1000 = 0%float /\ Binary64.progress 1000 1000 = 1%float /\
  Binary64.progress 1500 1000 = 1%float.
Proof. repeat split; vm_compute; reflexivity. Qed.

End Doubles.
